(** * Instant-runoff tally of rcv-polls: [calculateIRV]

    A shallow embedding of the two copies of [calculateIRV] found in the
    repository,

    - [src/backend/utils/irv.js]  (module [BackendIrv] below), the file
      required by [backend/api/polls.js] and by
      [backend/utils/__tests__/irv.test.js];
    - [src/unnamed/part_007]      (module [Part007] below), the copy with
      the two-option branch and the lowest-id tie-break;

    together with the properties of the tally stated in the specification,
    and of the code around it: the checks of the vote route, the results
    route and the routes that update and close a poll in
    [src/backend/api/polls.js], [generateShareLink] in
    [src/backend/database/poll.js], and the component's own tally,
    [calculateResults], in [src/frontend/src/components/PollResults.jsx].

    Conventions of the embedding.
    - Identifiers and ranks are JavaScript numbers holding integers: [Z].
    - [null] and [undefined] are both rendered as [None]; a field that an
      object literal does not mention is [None] (or [false] for [tie]).
    - A plain JavaScript object used as a dictionary is an association
      list kept in the order in which [Object.values] enumerates it:
      array-index keys ascending first, every other key in creation order.
    - [percentages] are the exact rationals denoted by the double
      expressions; the properties below only say when two of them are
      the same.
    - The [while] loop is a fixpoint on a fuel argument; [calculateIRV]
      supplies [length options] and the loop is proved never to exhaust
      it. *)

From Stdlib Require Import String QArith ZArith Bool Lia Permutation Sorted List.
Import ListNotations.

Open Scope Z_scope.
Open Scope nat_scope.
Open Scope list_scope.

(** ** Data model *)

(** [{ id, text }] *)
Record PollOption := mkOption { opt_id : Z; opt_text : string }.

(** A ranking as the caller hands it over: the option is referenced by a
    nested [pollOption] object, by a bare [pollOptionId], or by both. *)
Record RawRanking := mkRaw {
  pollOption : option PollOption;
  pollOptionId : option Z;
  rank : Z
}.

Record Ballot := mkBallot { ballot_id : Z; rankings : list RawRanking }.

(** A ranking after normalisation: [{ pollOptionId, rank }]. *)
Record Ranking := mkRanking { nr_pollOptionId : option Z; nr_rank : Z }.

Record NBallot := mkNBallot { nb_id : Z; nb_rankings : list Ranking }.

(** ** Plain objects as ordered dictionaries *)

Definition obj (A : Type) := list (Z * A).

(** Keys that are array indices (0 .. 2^32 - 2) are enumerated first, in
    ascending numeric order. *)
Definition is_array_index (k : Z) : bool :=
  ((0 <=? k) && (k <? 4294967295))%Z.

Fixpoint obj_get {A} (k : Z) (o : obj A) : option A :=
  match o with
  | [] => None
  | (k', v) :: o' => if (k' =? k)%Z then Some v else obj_get k o'
  end.

(** Assignment to a property that exists keeps its position. *)
Fixpoint obj_update {A} (k : Z) (v : A) (o : obj A) : obj A :=
  match o with
  | [] => []
  | (k', v') :: o' =>
      if (k' =? k)%Z then (k', v) :: o' else (k', v') :: obj_update k v o'
  end.

(** Creation of a property: at its place in the enumeration order. *)
Fixpoint obj_insert {A} (k : Z) (v : A) (o : obj A) : obj A :=
  match o with
  | [] => [(k, v)]
  | (k', v') :: o' =>
      if is_array_index k
         && (negb (is_array_index k') || (k <? k')%Z)
      then (k, v) :: o
      else (k', v') :: obj_insert k v o'
  end.

(** [o[k] = v] *)
Definition obj_set {A} (k : Z) (v : A) (o : obj A) : obj A :=
  match obj_get k o with
  | Some _ => obj_update k v o
  | None => obj_insert k v o
  end.

(** [o[k]++] on a counter; the engine only increments keys that the
    initialisation loop has created (lemma [count_votes_get]). *)
Definition obj_incr (k : Z) (o : obj nat) : obj nat :=
  match obj_get k o with
  | Some c => obj_set k (S c) o
  | None => o
  end.

Definition obj_keys {A} (o : obj A) : list Z := map fst o.

(** [Object.values(o)] *)
Definition Object_values {A} (o : obj A) : list A := map snd o.

(** [Math.min(...vs)]; [None] stands for the [Infinity] of an empty
    argument list. *)
Fixpoint Math_min (vs : list nat) : option nat :=
  match vs with
  | [] => None
  | v :: vs' =>
      match Math_min vs' with
      | None => Some v
      | Some m => Some (Nat.min v m)
      end
  end.

(** [x === m] for a possibly undefined count [x] and a minimum [m]. *)
Definition strict_eq_min (x : option nat) (m : option nat) : bool :=
  match x, m with
  | Some c, Some m' => c =? m'
  | _, _ => false
  end.

(** [vs[i] === vs[j]] where either side may be [undefined]. *)
Definition strict_eq_opt (x y : option nat) : bool :=
  match x, y with
  | Some a, Some b => a =? b
  | None, None => true
  | _, _ => false
  end.

(** [x >= t] for a possibly undefined count [x]. *)
Definition ge_opt (x : option nat) (t : nat) : bool :=
  match x with
  | Some c => t <=? c
  | None => false
  end.

(** ** Normalisation of ballots (lines 41-52 of both files) *)

(** [[...rs].sort((a, b) => a.rank - b.rank)]: a stable sort by rank. *)
Fixpoint insert_by_rank (r : RawRanking) (l : list RawRanking)
  : list RawRanking :=
  match l with
  | [] => [r]
  | x :: l' =>
      if (rank r <=? rank x)%Z then r :: l else x :: insert_by_rank r l'
  end.

Definition sort_by_rank (rs : list RawRanking) : list RawRanking :=
  fold_right insert_by_rank [] rs.

(** [r.pollOption?.id || r.pollOptionId]: the nested id when it is truthy
    (a number other than 0), the bare id otherwise. *)
Definition resolve_id (r : RawRanking) : option Z :=
  match pollOption r with
  | Some o => if (opt_id o =? 0)%Z then pollOptionId r else Some (opt_id o)
  | None => pollOptionId r
  end.

Definition normalize_ranking (r : RawRanking) : Ranking :=
  {| nr_pollOptionId := resolve_id r; nr_rank := rank r |}.

Definition normalize_ballot (ballot : Ballot) : NBallot :=
  let sortedRankings := sort_by_rank (rankings ballot) in
  {| nb_id := ballot_id ballot;
     nb_rankings := map normalize_ranking sortedRankings |}.

Definition normalizedBallots (ballots : list Ballot) : list NBallot :=
  map normalize_ballot ballots.

(** ** Counting one round (lines 59-81 of both files) *)

(** [remainingOptions.some((opt) => opt.id === k)] *)
Definition in_race (remainingOptions : list PollOption) (k : Z) : bool :=
  existsb (fun opt => (opt_id opt =? k)%Z) remainingOptions.

(** The [for ... of ballot.rankings] scan: the first ranking whose option
    is still in the race. *)
Fixpoint first_valid_choice (remainingOptions : list PollOption)
    (rs : list Ranking) : option Z :=
  match rs with
  | [] => None
  | ranking :: rs' =>
      match nr_pollOptionId ranking with
      | Some k =>
          if in_race remainingOptions k then Some k
          else first_valid_choice remainingOptions rs'
      | None => first_valid_choice remainingOptions rs'
      end
  end.

Definition init_voteCounts (remainingOptions : list PollOption) : obj nat :=
  fold_left (fun vc option => obj_set (opt_id option) 0 vc)
            remainingOptions [].

Definition count_ballot (remainingOptions : list PollOption)
    (vc : obj nat) (ballot : NBallot) : obj nat :=
  match first_valid_choice remainingOptions (nb_rankings ballot) with
  | Some k => obj_incr k vc
  | None => vc
  end.

Definition count_votes (remainingOptions : list PollOption)
    (nbs : list NBallot) : obj nat :=
  fold_left (count_ballot remainingOptions) nbs
            (init_voteCounts remainingOptions).

(** [totalVotes > 0 ? (voteCounts[id] / totalVotes) * 100 : 0].  An
    [undefined] count would make the quotient [NaN]; it is rendered as 0
    here and never arises, every id of the race having a counter
    ([count_votes_get]). *)
Definition percentage (totalVotes : nat) (c : option nat) : Q :=
  match totalVotes, c with
  | O, _ => 0%Q
  | _, Some c' =>
      ((inject_Z (Z.of_nat c') / inject_Z (Z.of_nat totalVotes)) * 100)%Q
  | _, None => 0%Q
  end.

Definition compute_percentages (totalVotes : nat)
    (remainingOptions : list PollOption) (voteCounts : obj nat) : obj Q :=
  fold_left
    (fun pc option =>
       obj_set (opt_id option)
               (percentage totalVotes (obj_get (opt_id option) voteCounts))
               pc)
    remainingOptions [].

(** ** Rounds and results *)

(** The record of a round.  A field that is absent, [null] or [undefined]
    is [None]; [rd_tie] is [false] where the record has no [tie]. *)
Record Round := mkRound {
  rd_round : nat;
  rd_voteCounts : obj nat;
  rd_percentages : obj Q;
  rd_eliminated : option PollOption;
  rd_eliminatedMultiple : option (list PollOption);
  rd_remaining : list Z;
  rd_majorityWinner : option Z;
  rd_tie : bool
}.

Record Result := mkResult {
  res_rounds : list Round;
  res_winner : option PollOption;
  res_tie : bool;
  res_tiedOptions : option (list PollOption);
  res_totalVotes : option nat;
  res_majorityThreshold : option nat;
  res_error : option string
}.

(** What a call can do: return a result, throw a [TypeError], or (in the
    embedding only) exhaust the fuel of the loop. *)
Inductive outcome :=
| Returned (r : Result)
| Threw
| OutOfFuel.

Definition error_result (msg : string) : Result :=
  {| res_rounds := []; res_winner := None; res_tie := false;
     res_tiedOptions := None; res_totalVotes := None;
     res_majorityThreshold := None; res_error := Some msg |}.

Definition No_options_available : string := "No options available".
Definition No_ballots_available : string := "No ballots available".
Definition All_options_eliminated : string :=
  "All options eliminated - no winner".

(** [ids.includes(k)] *)
Definition includes (ids : list Z) (k : Z) : bool :=
  existsb (fun i => (i =? k)%Z) ids.

(** [xs.reduce((lowest, current) => current.id < lowest.id ? current : lowest)];
    [None] is the [TypeError] of reducing an empty array. *)
Definition reduce_lowest_id (xs : list PollOption) : option PollOption :=
  match xs with
  | [] => None
  | x :: xs' =>
      Some (fold_left
              (fun lowest current =>
                 if (opt_id current <? opt_id lowest)%Z
                 then current else lowest)
              xs' x)
  end.

(** ** The round loop

    [while (remainingOptions.length > 1) { body }] followed by the final
    [return]: one pass through the body either returns, throws, or goes
    round again with new [rounds] and [remainingOptions]. *)

Inductive pass :=
| Return (r : Result)
| Continue (rounds : list Round) (remainingOptions : list PollOption)
| Throw.

Section While.

Variable body : list Round -> list PollOption -> pass.
Variable finish : list Round -> option PollOption -> Result.

Fixpoint while_loop (fuel : nat) (rounds : list Round)
    (remainingOptions : list PollOption) : outcome :=
  if length remainingOptions <=? 1 then
    (* const winner = remainingOptions[0]; return { rounds, winner, ... } *)
    Returned (finish rounds (hd_error remainingOptions))
  else
    match fuel with
    | O => OutOfFuel
    | S fuel' =>
        match body rounds remainingOptions with
        | Return r => Returned r
        | Continue rounds' remainingOptions' =>
            while_loop fuel' rounds' remainingOptions'
        | Throw => Threw
        end
    end.

End While.

(** The object literal pushed onto [rounds]. *)
Definition push_round (rounds : list Round) (voteCounts : obj nat)
    (percentages : obj Q) (remainingOptions : list PollOption)
    (eliminated : option PollOption)
    (eliminatedMultiple : option (list PollOption))
    (majorityWinner : option Z) (tie : bool) : list Round :=
  rounds ++
  [{| rd_round := length rounds + 1;
      rd_voteCounts := voteCounts;
      rd_percentages := percentages;
      rd_eliminated := eliminated;
      rd_eliminatedMultiple := eliminatedMultiple;
      rd_remaining := map opt_id remainingOptions;
      rd_majorityWinner := majorityWinner;
      rd_tie := tie |}].

Section Returns.

Variable totalVotes : nat.
Variable majorityThreshold : nat.

(** [{ rounds, winner, totalVotes, majorityThreshold }] *)
Definition finish (rounds : list Round) (winner : option PollOption)
  : Result :=
  {| res_rounds := rounds; res_winner := winner; res_tie := false;
     res_tiedOptions := None; res_totalVotes := Some totalVotes;
     res_majorityThreshold := Some majorityThreshold;
     res_error := None |}.

(** [{ rounds, winner: null, tie: true, tiedOptions, ... }] *)
Definition tie_result (rounds : list Round)
    (remainingOptions : list PollOption) : Result :=
  {| res_rounds := rounds; res_winner := None; res_tie := true;
     res_tiedOptions := Some remainingOptions;
     res_totalVotes := Some totalVotes;
     res_majorityThreshold := Some majorityThreshold;
     res_error := None |}.

(** [{ rounds, winner: null, error: "All options eliminated - no winner", ... }] *)
Definition eliminated_result (rounds : list Round) : Result :=
  {| res_rounds := rounds; res_winner := None; res_tie := false;
     res_tiedOptions := None; res_totalVotes := Some totalVotes;
     res_majorityThreshold := Some majorityThreshold;
     res_error := Some All_options_eliminated |}.

End Returns.

(** [voteCounts[opt.id] >= majorityThreshold] *)
Definition has_majority (voteCounts : obj nat) (majorityThreshold : nat)
    (opt : PollOption) : bool :=
  ge_opt (obj_get (opt_id opt) voteCounts) majorityThreshold.

(** [voteCounts[opt.id] === minVotes] *)
Definition has_min (voteCounts : obj nat) (minVotes : option nat)
    (opt : PollOption) : bool :=
  strict_eq_min (obj_get (opt_id opt) voteCounts) minVotes.

(** [voteValues.every((count) => count === minVotes)] *)
Definition all_same (voteValues : list nat) (minVotes : option nat) : bool :=
  forallb (fun count => strict_eq_min (Some count) minVotes) voteValues.

(** [remainingOptions.filter((opt) => !eliminatedIds.includes(opt.id))] *)
Definition remove_ids (eliminatedIds : list Z)
    (remainingOptions : list PollOption) : list PollOption :=
  filter (fun opt => negb (includes eliminatedIds (opt_id opt)))
         remainingOptions.

(** The prologue shared by both files (lines 18-55). *)
Definition copy_options (options : list PollOption) : list PollOption :=
  map (fun opt => {| opt_id := opt_id opt; opt_text := opt_text opt |})
      options.

Definition threshold_of (totalVotes : nat) : nat := totalVotes / 2 + 1.

(** ** [src/backend/utils/irv.js] *)

Module BackendIrv.

Section Body.

Variable nbs : list NBallot.
Variable totalVotes : nat.
Variable majorityThreshold : nat.

Definition body (rounds : list Round) (remainingOptions : list PollOption)
  : pass :=
  let voteCounts := count_votes remainingOptions nbs in
  let percentages :=
    compute_percentages totalVotes remainingOptions voteCounts in
  let majorityWinner :=
    find (has_majority voteCounts majorityThreshold) remainingOptions in
  match majorityWinner with
  | Some mw =>
      Return
        (finish totalVotes majorityThreshold
           (push_round rounds voteCounts percentages remainingOptions
                       None None (Some (opt_id mw)) false)
           (Some mw))
  | None =>
      let voteValues := Object_values voteCounts in
      let minVotes := Math_min voteValues in
      let allSame := all_same voteValues minVotes in
      if allSame && (1 <? length remainingOptions) then
        Return
          (tie_result totalVotes majorityThreshold
             (push_round rounds voteCounts percentages remainingOptions
                         None None None true)
             remainingOptions)
      else
        let minVoteOptions :=
          filter (has_min voteCounts minVotes) remainingOptions in
        let eliminatedOptions := minVoteOptions in
        let rounds' :=
          push_round rounds voteCounts percentages remainingOptions
            (if length eliminatedOptions =? 1
             then nth_error eliminatedOptions 0 else None)
            (if 1 <? length eliminatedOptions
             then Some eliminatedOptions else None)
            None false in
        let eliminatedIds := map opt_id eliminatedOptions in
        let remainingOptions' := remove_ids eliminatedIds remainingOptions in
        if length remainingOptions' =? 0 then
          Return (eliminated_result totalVotes majorityThreshold rounds')
        else Continue rounds' remainingOptions'
  end.

End Body.

Definition calculateIRV (options : list PollOption) (ballots : list Ballot)
  : outcome :=
  match options with
  | [] => Returned (error_result No_options_available)
  | _ :: _ =>
      match ballots with
      | [] => Returned (error_result No_ballots_available)
      | _ :: _ =>
          let remainingOptions := copy_options options in
          let nbs := normalizedBallots ballots in
          let totalVotes := length nbs in
          let majorityThreshold := threshold_of totalVotes in
          while_loop (body nbs totalVotes majorityThreshold)
                     (finish totalVotes majorityThreshold)
                     (length options) [] remainingOptions
      end
  end.

End BackendIrv.

(** ** [src/unnamed/part_007] *)

Module Part007.

Section Body.

Variable nbs : list NBallot.
Variable totalVotes : nat.
Variable majorityThreshold : nat.

Definition body (rounds : list Round) (remainingOptions : list PollOption)
  : pass :=
  let voteCounts := count_votes remainingOptions nbs in
  let percentages :=
    compute_percentages totalVotes remainingOptions voteCounts in
  let majorityWinner :=
    if 2 <? length remainingOptions
    then find (has_majority voteCounts majorityThreshold) remainingOptions
    else None in
  let push := push_round rounds voteCounts percentages remainingOptions in
  match majorityWinner with
  | Some mw =>
      Return
        (finish totalVotes majorityThreshold
           (push None None (Some (opt_id mw)) false) (Some mw))
  | None =>
      if length remainingOptions =? 2 then
        let voteValues := Object_values voteCounts in
        let minVotes := Math_min voteValues in
        if strict_eq_opt (nth_error voteValues 0) (nth_error voteValues 1)
        then
          Return
            (tie_result totalVotes majorityThreshold
               (push None None None true) remainingOptions)
        else
          match find (has_min voteCounts minVotes) remainingOptions with
          | None => Throw  (* eliminatedOption.id of undefined *)
          | Some eliminatedOption =>
              let winner :=
                find (fun opt =>
                        negb (opt_id opt =? opt_id eliminatedOption)%Z)
                     remainingOptions in
              Return
                (finish totalVotes majorityThreshold
                   (push (Some eliminatedOption) None None false) winner)
          end
      else
        let voteValues := Object_values voteCounts in
        let minVotes := Math_min voteValues in
        let minVoteOptions :=
          filter (has_min voteCounts minVotes) remainingOptions in
        let allSame := all_same voteValues minVotes in
        if allSame && (2 <? length remainingOptions) then
          match reduce_lowest_id minVoteOptions with
          | None => Throw  (* reduce of an empty array *)
          | Some optionToEliminate =>
              Continue
                (push (Some optionToEliminate) None None false)
                (filter
                   (fun opt =>
                      negb (opt_id opt =? opt_id optionToEliminate)%Z)
                   remainingOptions)
          end
        else if (length remainingOptions =? 2) && allSame then
          Return
            (tie_result totalVotes majorityThreshold
               (push None None None true) remainingOptions)
        else
          (* minVoteOptions.length > 1 ? minVoteOptions
                                       : [minVoteOptions[0]]
             is minVoteOptions itself unless it is empty; then it is
             [undefined], and eliminatedOptions.map((opt) => opt.id)
             throws. *)
          match minVoteOptions with
          | [] => Throw
          | _ :: _ =>
              let eliminatedOptions := minVoteOptions in
              let rounds' :=
                push
                  (if length eliminatedOptions =? 1
                   then nth_error eliminatedOptions 0 else None)
                  (if 1 <? length eliminatedOptions
                   then Some eliminatedOptions else None)
                  None false in
              let eliminatedIds := map opt_id eliminatedOptions in
              let remainingOptions' :=
                remove_ids eliminatedIds remainingOptions in
              if length remainingOptions' =? 0 then
                Return
                  (eliminated_result totalVotes majorityThreshold rounds')
              else Continue rounds' remainingOptions'
          end
  end.

End Body.

Definition calculateIRV (options : list PollOption) (ballots : list Ballot)
  : outcome :=
  match options with
  | [] => Returned (error_result No_options_available)
  | _ :: _ =>
      match ballots with
      | [] => Returned (error_result No_ballots_available)
      | _ :: _ =>
          let remainingOptions := copy_options options in
          let nbs := normalizedBallots ballots in
          let totalVotes := length nbs in
          let majorityThreshold := threshold_of totalVotes in
          while_loop (body nbs totalVotes majorityThreshold)
                     (finish totalVotes majorityThreshold)
                     (length options) [] remainingOptions
      end
  end.

End Part007.

(** ** The inputs of the test suite and of the specification's scenarios *)

Definition direct (k : Z) (r : Z) : RawRanking :=
  {| pollOption := None; pollOptionId := Some k; rank := r |}.

Definition nested (k : Z) (t : string) (r : Z) : RawRanking :=
  {| pollOption := Some {| opt_id := k; opt_text := t |};
     pollOptionId := None; rank := r |}.

(** A ballot that ranks the given ids in order, from rank 1. *)
Definition ranked (i : Z) (ks : list Z) : Ballot :=
  {| ballot_id := i;
     rankings := map (fun p => direct (snd p) (Z.of_nat (fst p) + 1))
                     (combine (seq 0 (length ks)) ks) |}.

Definition optA := {| opt_id := 1; opt_text := "Option A" |}.
Definition optB := {| opt_id := 2; opt_text := "Option B" |}.
Definition optC := {| opt_id := 3; opt_text := "Option C" |}.
Definition optD := {| opt_id := 4; opt_text := "Option D" |}.

(** Scenario A: "two options with clear winner". *)
Definition ballots_A : list Ballot :=
  [ranked 1 [1; 2]; ranked 2 [1; 2]; ranked 3 [2; 1]]%Z.

(** Scenario C: "handles multiple candidates tied for last place". *)
Definition ballots_C : list Ballot :=
  [ranked 1 [1; 2; 3]; ranked 2 [1; 2; 3];
   ranked 3 [2; 1; 3]; ranked 4 [3; 1; 2]]%Z.

(** Scenario D: "detects tie when all candidates have equal votes". *)
Definition ballots_D : list Ballot :=
  [ranked 1 [1; 2]; ranked 2 [2; 1]]%Z.

(** "handles three-round elimination": four options, one first choice each. *)
Definition ballots_four_way : list Ballot :=
  [ranked 1 [1; 2; 3; 4]; ranked 2 [2; 1; 3; 4];
   ranked 3 [3; 1; 2; 4]; ranked 4 [4; 1; 2; 3]]%Z.

(** "candidate wins with majority in first round" (scenario B). *)
Definition ballots_B : list Ballot :=
  [ranked 1 [1; 2; 3]; ranked 2 [1; 2; 3]; ranked 3 [1; 2; 3];
   ranked 4 [2; 1; 3]; ranked 5 [3; 1; 2]]%Z.

(** "eliminates candidate and redistributes votes correctly". *)
Definition ballots_redistribute : list Ballot :=
  [ranked 1 [1; 3; 2]; ranked 2 [1; 3; 2]; ranked 3 [3; 1; 2];
   ranked 4 [3; 1; 2]; ranked 5 [2; 1; 3]]%Z.

(** "handles ballots with pollOption object structure". *)
Definition ballots_nested : list Ballot :=
  [{| ballot_id := 1;
      rankings := [nested 1 "Option A" 1; nested 2 "Option B" 2] |}]%Z.

(** "handles ballots with unsorted rankings". *)
Definition ballots_unsorted : list Ballot :=
  [{| ballot_id := 1; rankings := [direct 2 2; direct 1 1] |}]%Z.

(** The result of a call that returned. *)
Definition returned (o : outcome) : Result :=
  match o with
  | Returned r => r
  | _ => error_result No_options_available
  end.

(** What [src/unnamed/part_007] returns on scenarios C and D. *)
Definition result_C : Result :=
  Eval vm_compute in
    returned (Part007.calculateIRV [optA; optB; optC] ballots_C).

Definition result_D : Result :=
  Eval vm_compute in returned (Part007.calculateIRV [optA; optB] ballots_D).

(** ** Vocabulary of the statements *)

(** The ballot still ranks an option that is in the race. *)
Definition ranks_remaining (remainingOptions : list PollOption)
    (ballot : NBallot) : Prop :=
  exists r k, In r (nb_rankings ballot) /\ nr_pollOptionId r = Some k
              /\ in_race remainingOptions k = true.

Definition has_choice (remainingOptions : list PollOption)
    (ballot : NBallot) : bool :=
  match first_valid_choice remainingOptions (nb_rankings ballot) with
  | Some _ => true
  | None => false
  end.

(** The ballot's vote goes to option [k] in a round played by
    [remainingOptions]. *)
Definition chooses (remainingOptions : list PollOption) (k : Z)
    (ballot : NBallot) : bool :=
  match first_valid_choice remainingOptions (nb_rankings ballot) with
  | Some k' => (k' =? k)%Z
  | None => false
  end.

(** [rd] is the record of a round played by [remainingOptions]. *)
Definition round_of (nbs : list NBallot) (remainingOptions : list PollOption)
    (rd : Round) : Prop :=
  rd_voteCounts rd = count_votes remainingOptions nbs
  /\ rd_remaining rd = map opt_id remainingOptions
  /\ 2 <= length remainingOptions.

(** The count of option [k] in a round record ([undefined] is [None]). *)
Definition count_in (rd : Round) (k : Z) : option nat :=
  obj_get k (rd_voteCounts rd).

(** [rem] is what a filter keeps of [options]: the same options, in the
    same order, with some removed. *)
Definition kept_from (options rem : list PollOption) : Prop :=
  exists keep, rem = filter keep options.

(** A recorded majority winner has at least [majorityThreshold] votes in
    the record. *)
Definition majority_sound (majorityThreshold : nat) (rd : Round) : Prop :=
  forall k, rd_majorityWinner rd = Some k ->
            exists c, count_in rd k = Some c /\ majorityThreshold <= c.

(** [rd] is the record of a round played by some of the [options]. *)
Definition round_sound (nbs : list NBallot) (majorityThreshold : nat)
    (options : list PollOption) (rd : Round) : Prop :=
  (exists rem, kept_from options rem /\ round_of nbs rem rd)
  /\ majority_sound majorityThreshold rd.

(** A declared tie: no winner, and the tied options are the ones of the
    last round, all with the same count there. *)
Definition tie_sound (nbs : list NBallot) (options : list PollOption)
    (res : Result) : Prop :=
  res_winner res = None
  /\ exists pre rd rem c,
       res_rounds res = pre ++ [rd]
       /\ res_tiedOptions res = Some rem
       /\ kept_from options rem
       /\ round_of nbs rem rd
       /\ rd_tie rd = true
       /\ forall opt, In opt rem -> count_in rd (opt_id opt) = Some c.

(** What every result of the round loop satisfies. *)
Definition result_sound (nbs : list NBallot) (options : list PollOption)
    (res : Result) : Prop :=
  res_totalVotes res = Some (length nbs)
  /\ res_majorityThreshold res = Some (threshold_of (length nbs))
  /\ res_error res = None
  /\ Forall (round_sound nbs (threshold_of (length nbs)) options)
            (res_rounds res)
  /\ (res_tie res = true -> tie_sound nbs options res).

(** Either copy of [calculateIRV] returns [res] on this input. *)
Definition tally_returns (options : list PollOption) (ballots : list Ballot)
    (res : Result) : Prop :=
  BackendIrv.calculateIRV options ballots = Returned res
  \/ Part007.calculateIRV options ballots = Returned res.

(** [sum] of [voteCounts[id]] over the ids of [rd.remaining]. *)
Definition sum_over_remaining (rd : Round) : nat :=
  list_sum (map (fun k => match count_in rd k with
                          | Some c => c
                          | None => 0
                          end)
                (rd_remaining rd)).

(** The ballot ranks one of the listed ids. *)
Definition ranks_one_of (ids : list Z) (ballot : NBallot) : Prop :=
  exists r k, In r (nb_rankings ballot) /\ nr_pollOptionId r = Some k
              /\ In k ids.

(** The same ranking, written with the other representation of its
    option: a bare [pollOptionId] against a nested [pollOption] object
    with that id. *)
Inductive rerepresented : RawRanking -> RawRanking -> Prop :=
| rr_same r : rerepresented r r
| rr_nest k t rk : rerepresented (direct k rk) (nested k t rk)
| rr_bare k t rk : rerepresented (nested k t rk) (direct k rk).

Definition same_ballot (b b' : Ballot) : Prop :=
  ballot_id b = ballot_id b'
  /\ Forall2 rerepresented (rankings b) (rankings b').

(** The ranking does not refer to the id 0, the one number that is
    falsy. *)
Definition nonzero_ranking (r : RawRanking) : Prop :=
  pollOptionId r <> Some 0%Z
  /\ forall o, pollOption r = Some o -> opt_id o <> 0%Z.

Definition nonzero_ids (ballot : Ballot) : Prop :=
  forall r, In r (rankings ballot) -> nonzero_ranking r.

Definition raw_rank_le (a b : RawRanking) : Prop := (rank a <= rank b)%Z.

Definition rank_le (a b : Ranking) : Prop := (nr_rank a <= nr_rank b)%Z.

(** An option whose id is 0, and one ballot that ranks it first, written
    in both representations. *)
Definition optZero := {| opt_id := 0; opt_text := "Option Zero" |}.

Definition ballots_zero_bare : list Ballot :=
  [{| ballot_id := 1; rankings := [direct 0 1; direct 1 2] |}]%Z.

Definition ballots_zero_nested : list Ballot :=
  [{| ballot_id := 1;
      rankings := [nested 0 "Option Zero" 1; direct 1 2] |}]%Z.

(** The same ballot with both options nested, and a ballot that ranks
    the option of id 0 alone, in both representations. *)
Definition ballots_zero_all_nested : list Ballot :=
  [{| ballot_id := 1;
      rankings := [nested 0 "Option Zero" 1; nested 1 "Option A" 2] |}]%Z.

Definition ballots_zero_only : list Ballot :=
  [{| ballot_id := 1; rankings := [nested 0 "Option Zero" 1] |}]%Z.

Definition ballots_zero_only_bare : list Ballot :=
  [{| ballot_id := 1; rankings := [direct 0 1] |}]%Z.

(** A ballot that ranks the option of id 0 first and hands its rankings
    over in the other order, in both representations. *)
Definition ballots_zero_unsorted : list Ballot :=
  [{| ballot_id := 1;
      rankings := [direct 1 2; nested 0 "Option Zero" 1] |}]%Z.

Definition ballots_zero_unsorted_bare : list Ballot :=
  [{| ballot_id := 1; rankings := [direct 1 2; direct 0 1] |}]%Z.

(** The record of a first round played by [a], [b] and [c] that sends [b]
    and [c] out together. *)
Definition scenario_C_round (a b c : PollOption) (nbs : list NBallot)
    (totalVotes : nat) : list Round :=
  push_round [] (count_votes [a; b; c] nbs)
             (compute_percentages totalVotes [a; b; c]
                                  (count_votes [a; b; c] nbs))
             [a; b; c] None (Some [b; c]) None false.

(** A majority winner is only recorded in a round of more than two
    options. *)
Definition majority_guarded (rd : Round) : Prop :=
  rd_majorityWinner rd <> None -> 2 < length (rd_remaining rd).

(** The invariant of the round loop. *)
Definition loop_inv (nbs : list NBallot) (options : list PollOption)
    (rounds : list Round) (rem : list PollOption) : Prop :=
  kept_from options rem
  /\ Forall (round_sound nbs (threshold_of (length nbs)) options) rounds.

(** What [src/unnamed/part_007] returns on the four-way tie: two rounds. *)
Definition result_four_way : Result :=
  Eval vm_compute in
    returned (Part007.calculateIRV [optA; optB; optC; optD]
                                   ballots_four_way).

(** What [src/backend/utils/irv.js] returns on scenario B: a majority in
    round 1. *)
Definition result_B : Result :=
  Eval vm_compute in
    returned (BackendIrv.calculateIRV [optA; optB; optC] ballots_B).

(** ** [src/backend/api/polls.js] *)

(** [[...xs].sort((a, b) => key(a) - key(b))]: a stable sort by a numeric
    key. *)
Section SortBy.

Context {A : Type}.
Variable key : A -> Z.

Fixpoint insert_by (x : A) (l : list A) : list A :=
  match l with
  | [] => [x]
  | y :: l' => if (key x <=? key y)%Z then x :: l else y :: insert_by x l'
  end.

Definition sort_by (xs : list A) : list A := fold_right insert_by [] xs.

End SortBy.

(** *** [POST /public/:shareLink/vote]: the checks on the rankings of the
        request body (lines 65-92) *)

Definition All_options_must_be_ranked : string :=
  "All options must be ranked".
Definition Each_option_exactly_once : string :=
  "Each option must be ranked exactly once".
Definition Invalid_option_ID : string := "Invalid option ID".
Definition Rankings_must_be_sequential : string :=
  "Rankings must be sequential (1, 2, 3, etc.)".

(** Equality of two [pollOptionId] values, either of which may be
    [undefined]. *)
Definition same_value (x y : option Z) : bool :=
  match x, y with
  | Some a, Some b => (a =? b)%Z
  | None, None => true
  | _, _ => false
  end.

(** [[...new Set(xs)]]: the distinct values, in order of first
    occurrence. *)
Definition Set_add (s : list (option Z)) (x : option Z) : list (option Z) :=
  if existsb (same_value x) s then s else s ++ [x].

Definition Set_values (xs : list (option Z)) : list (option Z) :=
  fold_left Set_add xs [].

(** [optionIds.includes(ranking.pollOptionId)] *)
Definition includes_value (optionIds : list Z) (x : option Z) : bool :=
  match x with
  | Some k => includes optionIds k
  | None => false
  end.

(** The loop [for (i = 0; ...) if (ranks[i] !== i + 1) return ...] finds
    no gap from index [i] on. *)
Fixpoint sequential_from (i : Z) (ranks : list Z) : bool :=
  match ranks with
  | [] => true
  | r :: ranks' => (r =? i + 1)%Z && sequential_from (i + 1) ranks'
  end.

(** The error of the 400 response, or [None] when the request goes on to
    the creation of the ballot.  The [rankings] of the body are [None]
    when they are missing or not an array; their members carry a
    [pollOptionId], possibly [undefined], and an integer [rank]. *)
Definition validate_vote (options : list PollOption)
    (rankings : option (list RawRanking)) : option string :=
  match rankings with
  | None => Some All_options_must_be_ranked
  | Some rankings =>
      if negb (length rankings =? length options) then
        Some All_options_must_be_ranked
      else
        let optionIds := map opt_id options in
        let rankedOptionIds := map pollOptionId rankings in
        let uniqueRankedIds := Set_values rankedOptionIds in
        if negb (length uniqueRankedIds =? length optionIds) then
          Some Each_option_exactly_once
        else if negb (forallb (fun ranking =>
                                 includes_value optionIds
                                                (pollOptionId ranking))
                              rankings) then
          Some Invalid_option_ID
        else
          let ranks := sort_by (fun r => r) (map rank rankings) in
          if negb (sequential_from 0 ranks) then
            Some Rankings_must_be_sequential
          else None
  end.

(** *** [GET /:id/results]: what is handed to the tally (lines 405-412) *)

(** [[...poll.options].sort((a, b) => a.id - b.id)] *)
Definition sortedOptions (options : list PollOption) : list PollOption :=
  sort_by opt_id options.

(** [{ ...ballot.toJSON(), rankings: [...ballot.rankings].sort(...) }] *)
Definition sortedBallots (ballots : list Ballot) : list Ballot :=
  map (fun ballot => {| ballot_id := ballot_id ballot;
                        rankings := sort_by_rank (rankings ballot) |})
      ballots.

(** [const irvResults = calculateIRV(sortedOptions, sortedBallots)], with
    the [calculateIRV] of [../utils/irv]. *)
Definition irvResults (options : list PollOption) (ballots : list Ballot)
  : outcome :=
  BackendIrv.calculateIRV (sortedOptions options) (sortedBallots ballots).

(** The nested [pollOption] of a ranking, where there is one, is the
    option that its [pollOptionId] names. *)
Definition reference_agrees (r : RawRanking) : Prop :=
  match pollOption r with
  | Some o => pollOptionId r = Some (opt_id o)
  | None => True
  end.

(** The ranks 1, 2, ..., n. *)
Definition ranks_upto (n : nat) : list Z := map Z.of_nat (seq 1 n).

(** The ballot would pass the checks of the vote route for these
    options. *)
Definition accepted (options : list PollOption) (ballot : Ballot) : Prop :=
  validate_vote options (Some (rankings ballot)) = None
  /\ forall r, In r (rankings ballot) -> reference_agrees r.

(** The results of the route on scenario C with its options out of
    order. *)
Definition result_route : Result :=
  Eval vm_compute in returned (irvResults [optC; optA; optB] ballots_C).

(** *** The life of a poll: [PUT /:id], [POST /:id/close] and
        [Poll.prototype.generateShareLink] of
        [src/backend/database/poll.js] *)

(** A field of a request body: absent, [null], or a string. *)
Inductive field :=
| Undefined
| Null
| Str (s : string).

(** The columns of a poll that the routes read and write. *)
Record Poll := mkPoll {
  poll_title : string;
  poll_description : option string;
  poll_status : string;
  poll_shareLink : option string
}.

Definition draft : string := "draft".
Definition published : string := "published".
Definition closed : string := "closed".

Definition Cannot_update_a_closed_poll : string :=
  "Cannot update a closed poll".
Definition Invalid_status : string := "Invalid status".
Definition Poll_is_already_closed : string := "Poll is already closed".
Definition Failed_to_update_poll : string := "Failed to update poll".
Definition Failed_to_close_poll : string := "Failed to close poll".

(** A string is truthy unless it is empty. *)
Definition truthy (s : string) : bool :=
  match s with
  | EmptyString => false
  | String _ _ => true
  end.

(** [!!poll.shareLink] *)
Definition has_shareLink (poll : Poll) : bool :=
  match poll_shareLink poll with
  | Some link => truthy link
  | None => false
  end.

(** [generateShareLink]: [draw] is what
    [crypto.randomBytes(16).toString("hex")] returns when it is called. *)
Definition generateShareLink (draw : string) (poll : Poll) : Poll :=
  if has_shareLink poll then poll
  else {| poll_title := poll_title poll;
          poll_description := poll_description poll;
          poll_status := poll_status poll;
          poll_shareLink := Some draw |}.

(** The answer of a route: the status code, the error if there is one,
    and the poll as it is stored afterwards. *)
Record Answer := mkAnswer {
  ans_code : nat;
  ans_error : option string;
  ans_poll : Poll
}.

Section PollRoutes.

(** [String.prototype.trim] *)
Variable trim : string -> string.

(** [await poll.save()] on the row found: whether the store takes the
    changed row.  It rejects a row that fails the validation of the model
    ([src/backend/database/poll.js]: a title that is not [notEmpty]) or a
    constraint of the table (the unique [shareLink]). *)
Variable saves : Poll -> Poll -> bool.

(** A save that is taken is answered with 200 and the new row; a save
    that is rejected throws into the [catch] of the route, which answers
    500, and the row stays as it was. *)
Definition saved (poll changed : Poll) (failed : string) : Answer :=
  if saves poll changed then
    {| ans_code := 200; ans_error := None; ans_poll := changed |}
  else
    {| ans_code := 500; ans_error := Some failed; ans_poll := poll |}.

(** [f?.trim() || null] *)
Definition trim_or_null (f : field) : option string :=
  match f with
  | Str s => if truthy (trim s) then Some (trim s) else None
  | _ => None
  end.

(** [PUT /:id], lines 298-334, for the poll found. *)
Definition update_poll (poll : Poll) (title description status : field)
    (draw : string) : Answer :=
  if String.eqb (poll_status poll) closed then
    {| ans_code := 400; ans_error := Some Cannot_update_a_closed_poll;
       ans_poll := poll |}
  else
    let poll1 :=
      match title with
      | Str t =>
          if truthy t then
            {| poll_title := trim t;
               poll_description := poll_description poll;
               poll_status := poll_status poll;
               poll_shareLink := poll_shareLink poll |}
          else poll
      | _ => poll
      end in
    let poll2 :=
      match description with
      | Undefined => poll1
      | _ =>
          {| poll_title := poll_title poll1;
             poll_description := trim_or_null description;
             poll_status := poll_status poll1;
             poll_shareLink := poll_shareLink poll1 |}
      end in
    match status with
    | Str st =>
        if truthy st then
          if negb (existsb (String.eqb st) [draft; published; closed]) then
            (* returns before poll.save() *)
            {| ans_code := 400; ans_error := Some Invalid_status;
               ans_poll := poll |}
          else
            let poll3 :=
              {| poll_title := poll_title poll2;
                 poll_description := poll_description poll2;
                 poll_status := st;
                 poll_shareLink := poll_shareLink poll2 |} in
            let poll4 :=
              if String.eqb st published && negb (has_shareLink poll3)
              then generateShareLink draw poll3 else poll3 in
            saved poll poll4 Failed_to_update_poll
        else saved poll poll2 Failed_to_update_poll
    | _ => saved poll poll2 Failed_to_update_poll
    end.

(** [POST /:id/close], lines 352-363, for the poll found. *)
Definition close_poll (poll : Poll) : Answer :=
  if String.eqb (poll_status poll) closed then
    {| ans_code := 400; ans_error := Some Poll_is_already_closed;
       ans_poll := poll |}
  else
    saved poll
          {| poll_title := poll_title poll;
             poll_description := poll_description poll;
             poll_status := closed;
             poll_shareLink := poll_shareLink poll |}
          Failed_to_close_poll.

(** A request of the creator on one poll. *)
Inductive request :=
| Update (title description status : field) (draw : string)
| Close.

Definition handle (poll : Poll) (req : request) : Answer :=
  match req with
  | Update title description status draw =>
      update_poll poll title description status draw
  | Close => close_poll poll
  end.

(** The poll as stored after a sequence of requests. *)
Definition after (poll : Poll) (reqs : list request) : Poll :=
  fold_left (fun p req => ans_poll (handle p req)) reqs poll.

End PollRoutes.

(** The random link drawn for every update request is a non-empty
    string. *)
Definition draws_nonempty (reqs : list request) : Prop :=
  forall t d s draw, In (Update t d s draw) reqs -> truthy draw = true.

(** A poll of a status the store allows, with a share link if it is
    published. *)
Definition poll_ok (poll : Poll) : Prop :=
  In (poll_status poll) [draft; published; closed]
  /\ (poll_status poll = published -> has_shareLink poll = true).

(** The store of the model alone: it takes every row whose title is not
    empty. *)
Definition title_notEmpty (poll changed : Poll) : bool :=
  truthy (poll_title changed).

(** Three stored polls and two sequences of requests. *)
Definition poll_closed : Poll :=
  {| poll_title := "Lunch"; poll_description := None;
     poll_status := closed; poll_shareLink := Some "ab12"%string |}.

Definition poll_published : Poll :=
  {| poll_title := "Lunch"; poll_description := None;
     poll_status := published; poll_shareLink := Some "ab12"%string |}.

Definition poll_draft : Poll :=
  {| poll_title := "Lunch"; poll_description := None;
     poll_status := draft; poll_shareLink := None |}.

Definition requests_republish : list request :=
  [Update Undefined Undefined (Str draft) "cd34";
   Update (Str "Dinner") Null (Str published) "ef56";
   Close].

Definition requests_publish : list request :=
  [Update Undefined Undefined (Str published) "cd34"].

(** ** [src/frontend/src/components/PollResults.jsx]: [calculateResults] *)

(** What the component's own tally can do: return [null], return
    [{ rounds, winner }], throw, or (in the embedding only) exhaust the
    fuel of the loop. *)
Inductive client_outcome :=
| ReturnedNull
| ReturnedResults (r : Result)
| ClientThrew
| ClientOutOfFuel.

(** [{ pollOptionId: r.pollOption.id, rank: r.rank }]; reading [id] of a
    missing [pollOption] throws. *)
Definition client_ranking (r : RawRanking) : option Ranking :=
  match pollOption r with
  | Some o => Some {| nr_pollOptionId := Some (opt_id o); nr_rank := rank r |}
  | None => None
  end.

(** [xs.map(f)] for an [f] that may throw. *)
Fixpoint map_or_throw {A B} (f : A -> option B) (xs : list A)
  : option (list B) :=
  match xs with
  | [] => Some []
  | x :: xs' =>
      match f x with
      | None => None
      | Some y =>
          match map_or_throw f xs' with
          | None => None
          | Some ys => Some (y :: ys)
          end
      end
  end.

Definition client_ballot (ballot : Ballot) : option NBallot :=
  match map_or_throw client_ranking (rankings ballot) with
  | Some rs => Some {| nb_id := ballot_id ballot; nb_rankings := rs |}
  | None => None
  end.

(** The body of [ballots.forEach]: the rankings are sorted by rank in
    every round. *)
Definition client_count (remainingOptions : list PollOption)
    (vc : obj nat) (ballot : NBallot) : obj nat :=
  let sortedRankings := sort_by nr_rank (nb_rankings ballot) in
  match first_valid_choice remainingOptions sortedRankings with
  | Some k => obj_incr k vc
  | None => vc
  end.

Definition client_voteCounts (remainingOptions : list PollOption)
    (ballots : list NBallot) : obj nat :=
  fold_left (client_count remainingOptions) ballots
            (init_voteCounts remainingOptions).

(** [{ rounds, winner }] *)
Definition client_finish (rounds : list Round) (winner : option PollOption)
  : Result :=
  {| res_rounds := rounds; res_winner := winner; res_tie := false;
     res_tiedOptions := None; res_totalVotes := None;
     res_majorityThreshold := None; res_error := None |}.

Definition client_body (ballots : list NBallot) (rounds : list Round)
    (remainingOptions : list PollOption) : pass :=
  let voteCounts := client_voteCounts remainingOptions ballots in
  let totalVotes :=
    fold_left (fun sum count => sum + count) (Object_values voteCounts) 0 in
  let percentages :=
    compute_percentages totalVotes remainingOptions voteCounts in
  let minVotes := Math_min (Object_values voteCounts) in
  match find (has_min voteCounts minVotes) remainingOptions with
  | None => Throw  (* eliminatedOption.id of undefined *)
  | Some eliminatedOption =>
      Continue
        (push_round rounds voteCounts percentages remainingOptions
                    (Some eliminatedOption) None None false)
        (filter (fun opt => negb (opt_id opt =? opt_id eliminatedOption)%Z)
                remainingOptions)
  end.

Definition calculateResults (options : list PollOption)
    (ballots : list Ballot) : client_outcome :=
  match ballots with
  | [] => ReturnedNull
  | _ :: _ =>
      let remainingOptions := options in
      match map_or_throw client_ballot ballots with
      | None => ClientThrew
      | Some ballots' =>
          match while_loop (client_body ballots') client_finish
                           (length options) [] remainingOptions with
          | Returned r => ReturnedResults r
          | Threw => ClientThrew
          | OutOfFuel => ClientOutOfFuel
          end
      end
  end.

(** The ballot with its rankings in ascending order of rank. *)
Definition sorted_nballot (ballot : NBallot) : NBallot :=
  {| nb_id := nb_id ballot;
     nb_rankings := sort_by nr_rank (nb_rankings ballot) |}.

(** Every ranking of every ballot carries its nested [pollOption]. *)
Definition all_nested (ballots : list Ballot) : Prop :=
  forall b r, In b ballots -> In r (rankings b) -> pollOption r <> None.

(** The ballots of scenario C as the component receives them. *)
Definition ballots_C_nested : list Ballot :=
  map (fun b =>
         {| ballot_id := ballot_id b;
            rankings :=
              map (fun r =>
                     {| pollOption :=
                          match pollOptionId r with
                          | Some k => Some {| opt_id := k; opt_text := EmptyString |}
                          | None => None
                          end;
                        pollOptionId := pollOptionId r;
                        rank := rank r |})
                  (rankings b) |})
      ballots_C.

(** ** Vocabulary of the run of the round loop *)

(** The options a round record sends out: [eliminated], or the members
    of [eliminatedMultiple]. *)
Definition eliminated_options (rd : Round) : list PollOption :=
  match rd_eliminated rd with Some e => [e] | None => [] end
  ++ match rd_eliminatedMultiple rd with Some es => es | None => [] end.

(** The ids left of a round's [remaining] once its eliminated options
    are gone. *)
Definition remaining_after (rd : Round) : list Z :=
  filter (fun k => negb (includes (map opt_id (eliminated_options rd)) k))
         (rd_remaining rd).

(** [rd] is the record pushed by a pass that starts with [rounds] and
    [rem]: numbered after the rounds before it, with the counters and ids
    of [rem], and with every eliminated option taken from [rem] at the
    minimum count. *)
Definition round_base (nbs : list NBallot) (rounds : list Round)
    (rem : list PollOption) (rd : Round) : Prop :=
  rd_round rd = length rounds + 1
  /\ rd_voteCounts rd = count_votes rem nbs
  /\ rd_remaining rd = map opt_id rem
  /\ forall e, In e (eliminated_options rd) ->
       In e rem
       /\ exists c, count_in rd (opt_id e) = Some c
                    /\ Math_min (Object_values (rd_voteCounts rd)) = Some c.

(** The three ways in which a pass returns: a majority winner, a declared
    tie, or the decision between the last two options. *)
Definition ends_with (rem : list PollOption) (rd : Round) (r : Result)
  : Prop :=
  res_error r = None
  /\ ((exists w, In w rem
                 /\ rd_majorityWinner rd = Some (opt_id w)
                 /\ res_winner r = Some w
                 /\ rd_tie rd = false /\ res_tie r = false
                 /\ res_tiedOptions r = None
                 /\ eliminated_options rd = [])
      \/ (rd_majorityWinner rd = None
          /\ rd_tie rd = true /\ res_tie r = true
          /\ res_winner r = None
          /\ res_tiedOptions r = Some rem
          /\ eliminated_options rd = [])
      \/ (exists e, rd_majorityWinner rd = None
                    /\ rd_tie rd = false /\ res_tie r = false
                    /\ res_tiedOptions r = None
                    /\ eliminated_options rd = [e]
                    /\ res_winner r
                       = find (fun o => negb (opt_id o =? opt_id e)%Z) rem)).

(** What one pass through the loop body does to [rounds] and [rem]. *)
Definition pass_ok (nbs : list NBallot) (rounds : list Round)
    (rem : list PollOption) (p : pass) : Prop :=
  match p with
  | Throw => False
  | Return r =>
      exists rd, res_rounds r = rounds ++ [rd]
                 /\ round_base nbs rounds rem rd
                 /\ ends_with rem rd r
  | Continue rounds' rem' =>
      exists rd, rounds' = rounds ++ [rd]
                 /\ round_base nbs rounds rem rd
                 /\ rd_majorityWinner rd = None
                 /\ rd_tie rd = false
                 /\ eliminated_options rd <> []
                 /\ rem' = remove_ids (map opt_id (eliminated_options rd)) rem
                 /\ (NoDup (map opt_id rem) -> rem' <> [])
  end.

(** The rounds recorded so far by passes that went on, and the options
    still in the race after them. *)
Inductive played (nbs : list NBallot) (options : list PollOption)
  : list Round -> list PollOption -> Prop :=
| played_start : played nbs options [] options
| played_pass rounds rem rd :
    played nbs options rounds rem ->
    1 < length rem ->
    round_base nbs rounds rem rd ->
    rd_majorityWinner rd = None ->
    rd_tie rd = false ->
    eliminated_options rd <> [] ->
    (NoDup (map opt_id rem) ->
     remove_ids (map opt_id (eliminated_options rd)) rem <> []) ->
    played nbs options (rounds ++ [rd])
           (remove_ids (map opt_id (eliminated_options rd)) rem).

(** A result of the round loop: the loop ran out of options to
    eliminate, or a last pass returned. *)
Inductive tallied (nbs : list NBallot) (options : list PollOption)
  : Result -> Prop :=
| tallied_exit rounds rem :
    played nbs options rounds rem ->
    length rem <= 1 ->
    tallied nbs options
            (finish (length nbs) (threshold_of (length nbs)) rounds
                    (hd_error rem))
| tallied_return rounds rem rd r :
    played nbs options rounds rem ->
    1 < length rem ->
    res_rounds r = rounds ++ [rd] ->
    round_base nbs rounds rem rd ->
    ends_with rem rd r ->
    tallied nbs options r.

(** Each round starts from what the round before it left, the first one
    from all the options. *)
Definition chained (options : list PollOption) (rounds : list Round)
  : Prop :=
  (forall rd, nth_error rounds 0 = Some rd ->
              rd_remaining rd = map opt_id options)
  /\ forall i rd1 rd2,
       nth_error rounds i = Some rd1 ->
       nth_error rounds (S i) = Some rd2 ->
       rd_remaining rd2 = remaining_after rd1
       /\ length (rd_remaining rd2) < length (rd_remaining rd1).

(** ** The two copies side by side

    Two records of one round that agree in every field.  Where a round
    records no list of options eliminated together,
    [src/backend/utils/irv.js] writes [eliminatedMultiple: null] and
    [src/unnamed/part_007] writes [undefined] or leaves the field out:
    such records agree in having no list, not in how they say so. *)
Definition same_record (rd1 rd2 : Round) : Prop :=
  rd_round rd1 = rd_round rd2
  /\ rd_voteCounts rd1 = rd_voteCounts rd2
  /\ rd_percentages rd1 = rd_percentages rd2
  /\ rd_remaining rd1 = rd_remaining rd2
  /\ rd_eliminated rd1 = rd_eliminated rd2
  /\ rd_majorityWinner rd1 = rd_majorityWinner rd2
  /\ rd_tie rd1 = rd_tie rd2
  /\ forall es, rd_eliminatedMultiple rd1 = Some es
                <-> rd_eliminatedMultiple rd2 = Some es.

(** What two records of a last round share when they differ in how they
    name the option that goes. *)
Definition round_tally (rd : Round)
  : nat * obj nat * obj Q * list Z * bool :=
  (rd_round rd, rd_voteCounts rd, rd_percentages rd, rd_remaining rd,
   rd_tie rd).

(** Two results with the same outcome, rounds before the last that agree
    in every field, and last rounds with the same tally. *)
Definition same_verdict (r1 r2 : Result) : Prop :=
  res_winner r1 = res_winner r2
  /\ res_tie r1 = res_tie r2
  /\ res_tiedOptions r1 = res_tiedOptions r2
  /\ res_error r1 = res_error r2
  /\ res_totalVotes r1 = res_totalVotes r2
  /\ res_majorityThreshold r1 = res_majorityThreshold r2
  /\ Forall2 same_record (removelast (res_rounds r1))
                         (removelast (res_rounds r2))
  /\ map round_tally (res_rounds r1) = map round_tally (res_rounds r2).

(** ** Votes of the ballots as supplied

    The option a supplied ranking refers to, as the specification reads
    it: the id of the nested reference when there is one, the direct id
    otherwise. *)
Definition ranked_option (r : RawRanking) : option Z :=
  match pollOption r with
  | Some o => Some (opt_id o)
  | None => pollOptionId r
  end.

(** The ranking refers to one of the listed ids. *)
Definition refers_to (ids : list Z) (r : RawRanking) : bool :=
  match ranked_option r with
  | Some k => includes ids k
  | None => false
  end.

(** The supplied ballot has a ranked option among the listed ids. *)
Definition ranks_remaining_option (ids : list Z) (ballot : Ballot) : Prop :=
  exists r k, In r (rankings ballot) /\ ranked_option r = Some k /\ In k ids.

(** The ranking of least rank among those of a ballot that refer to a
    listed id, the earliest of them where ranks repeat. *)
Fixpoint top_ranking (ids : list Z) (rs : list RawRanking)
  : option RawRanking :=
  match rs with
  | [] => None
  | r :: rs' =>
      if refers_to ids r then
        match top_ranking ids rs' with
        | Some f => if (rank r <=? rank f)%Z then Some r else Some f
        | None => Some r
        end
      else top_ranking ids rs'
  end.

(** The first still-remaining ranked option of the supplied ballot. *)
Definition first_remaining_option (ids : list Z) (ballot : Ballot)
  : option Z :=
  match top_ranking ids (rankings ballot) with
  | Some r => ranked_option r
  | None => None
  end.

Definition first_choice_is (ids : list Z) (k : Z) (ballot : Ballot) : bool :=
  match first_remaining_option ids ballot with
  | Some k' => (k' =? k)%Z
  | None => false
  end.

(** The supplied ballot credits a vote in a round of the listed ids. *)
Definition credits_a_vote (ids : list Z) (ballot : Ballot) : bool :=
  match first_remaining_option ids ballot with
  | Some _ => true
  | None => false
  end.

(** No ranking carries a nested option whose id is 0. *)
Definition no_nested_zero (ballots : list Ballot) : Prop :=
  forall b r o, In b ballots -> In r (rankings b) ->
                pollOption r = Some o -> opt_id o <> 0%Z.

(** ** Results up to the order of their lists *)

(** Two dictionaries with the same value, or none, at every key. *)
Definition same_entries {A} (o o' : obj A) : Prop :=
  forall k, obj_get k o = obj_get k o'.

(** Two optional lists with the same members. *)
Definition same_members {A} (l l' : option (list A)) : Prop :=
  match l, l' with
  | Some x, Some y => Permutation x y
  | None, None => True
  | _, _ => False
  end.

(** Two records of a round that differ at most in the order of their
    lists. *)
Definition same_round_up_to_order (rd rd' : Round) : Prop :=
  rd_round rd = rd_round rd'
  /\ same_entries (rd_voteCounts rd) (rd_voteCounts rd')
  /\ same_entries (rd_percentages rd) (rd_percentages rd')
  /\ rd_eliminated rd = rd_eliminated rd'
  /\ same_members (rd_eliminatedMultiple rd) (rd_eliminatedMultiple rd')
  /\ Permutation (rd_remaining rd) (rd_remaining rd')
  /\ rd_majorityWinner rd = rd_majorityWinner rd'
  /\ rd_tie rd = rd_tie rd'.

(** Two results that differ at most in the order of their lists. *)
Definition same_up_to_order (r r' : Result) : Prop :=
  Forall2 same_round_up_to_order (res_rounds r) (res_rounds r')
  /\ res_winner r = res_winner r'
  /\ res_tie r = res_tie r'
  /\ same_members (res_tiedOptions r) (res_tiedOptions r')
  /\ res_totalVotes r = res_totalVotes r'
  /\ res_majorityThreshold r = res_majorityThreshold r'
  /\ res_error r = res_error r'.

Definition pass_up_to_order (p p' : pass) : Prop :=
  match p, p' with
  | Return r, Return r' => same_up_to_order r r'
  | Continue rs rem, Continue rs' rem' =>
      Forall2 same_round_up_to_order rs rs' /\ Permutation rem rem'
  | Throw, Throw => True
  | _, _ => False
  end.

Definition outcome_up_to_order (o o' : outcome) : Prop :=
  match o, o' with
  | Returned r, Returned r' => same_up_to_order r r'
  | Threw, Threw => True
  | OutOfFuel, OutOfFuel => True
  | _, _ => False
  end.

(** The lists of a round keep the order in which the options were
    supplied: its [remaining] ids and its [eliminatedMultiple] options
    are what a filter keeps of the options. *)
Definition round_in_supplied_order (options : list PollOption) (rd : Round)
  : Prop :=
  (exists rem, kept_from options rem /\ rd_remaining rd = map opt_id rem)
  /\ forall es, rd_eliminatedMultiple rd = Some es -> kept_from options es.

(** So do the lists of a result: those of its rounds and the
    [tiedOptions]. *)
Definition in_supplied_order (options : list PollOption) (r : Result)
  : Prop :=
  Forall (round_in_supplied_order options) (res_rounds r)
  /\ forall tied, res_tiedOptions r = Some tied -> kept_from options tied.

(** * Properties *)

(** ** Ordered dictionaries *)

Section ObjFacts.

Context {A : Type}.
Implicit Types (o : obj A) (k : Z) (v : A).

Lemma obj_get_In k o v : obj_get k o = Some v -> In (k, v) o.
Proof.
  induction o as [|[k' v'] o IH]; simpl; [discriminate|].
  destruct (Z.eqb_spec k' k) as [->|Hne].
  - intros [= ->]. now left.
  - intros H. right. auto.
Qed.

Lemma obj_get_None k o : obj_get k o = None <-> ~ In k (obj_keys o).
Proof.
  induction o as [|[k' v'] o IH]; simpl.
  - tauto.
  - destruct (Z.eqb_spec k' k) as [->|Hne].
    + split; [discriminate|]. intros H. exfalso. apply H. now left.
    + rewrite IH. split; intros H; [intros [?|?]; [congruence|tauto]|tauto].
Qed.

Lemma obj_get_Some_key k o v : obj_get k o = Some v -> In k (obj_keys o).
Proof.
  intros H. apply obj_get_In in H.
  change k with (fst (k, v)). now apply in_map.
Qed.

Lemma In_obj_get k o v :
  NoDup (obj_keys o) -> In (k, v) o -> obj_get k o = Some v.
Proof.
  induction o as [|[k' v'] o IH]; simpl; [tauto|].
  intros Hnd [H|H].
  - injection H as -> ->. now rewrite Z.eqb_refl.
  - inversion Hnd as [|? ? Hnotin Hnd']; subst.
    destruct (Z.eqb_spec k' k) as [->|Hne].
    + exfalso. apply Hnotin. change k with (fst (k, v)). now apply in_map.
    + auto.
Qed.

Lemma obj_keys_update k v o : obj_keys (obj_update k v o) = obj_keys o.
Proof.
  induction o as [|[k' v'] o IH]; simpl; [reflexivity|].
  destruct (k' =? k)%Z; simpl; [reflexivity|]. now rewrite IH.
Qed.

Lemma obj_get_update_same k v o :
  obj_get k o <> None -> obj_get k (obj_update k v o) = Some v.
Proof.
  induction o as [|[k' v'] o IH]; simpl; [congruence|].
  destruct (Z.eqb_spec k' k) as [->|Hne]; simpl.
  - now rewrite Z.eqb_refl.
  - intros H. destruct (Z.eqb_spec k' k); [contradiction|]. auto.
Qed.

Lemma obj_get_update_other k k' v o :
  k <> k' -> obj_get k' (obj_update k v o) = obj_get k' o.
Proof.
  intros Hne. induction o as [|[k0 v0] o IH]; simpl; [reflexivity|].
  destruct (Z.eqb_spec k0 k) as [->|Hne0]; simpl.
  - destruct (Z.eqb_spec k k'); [contradiction|reflexivity].
  - now rewrite IH.
Qed.

Lemma obj_insert_perm k v o : Permutation (obj_insert k v o) ((k, v) :: o).
Proof.
  induction o as [|[k' v'] o IH]; simpl; [reflexivity|].
  destruct (is_array_index k && _); [reflexivity|].
  rewrite IH. apply perm_swap.
Qed.

Lemma obj_get_insert_same k v o :
  obj_get k o = None -> obj_get k (obj_insert k v o) = Some v.
Proof.
  induction o as [|[k' v'] o IH]; simpl.
  - now rewrite Z.eqb_refl.
  - destruct (Z.eqb_spec k' k) as [->|Hne]; [discriminate|].
    intros H. destruct (is_array_index k && _); simpl.
    + now rewrite Z.eqb_refl.
    + destruct (Z.eqb_spec k' k); [contradiction|]. auto.
Qed.

Lemma obj_get_insert_other k k' v o :
  k <> k' -> obj_get k' (obj_insert k v o) = obj_get k' o.
Proof.
  intros Hne. induction o as [|[k0 v0] o IH]; simpl.
  - destruct (Z.eqb_spec k k'); [contradiction|reflexivity].
  - destruct (is_array_index k && _); simpl.
    + destruct (Z.eqb_spec k k'); [contradiction|reflexivity].
    + now rewrite IH.
Qed.

Lemma obj_get_set_same k v o : obj_get k (obj_set k v o) = Some v.
Proof.
  unfold obj_set. destruct (obj_get k o) eqn:E.
  - apply obj_get_update_same. congruence.
  - now apply obj_get_insert_same.
Qed.

Lemma obj_get_set_other k k' v o :
  k <> k' -> obj_get k' (obj_set k v o) = obj_get k' o.
Proof.
  intros Hne. unfold obj_set. destruct (obj_get k o).
  - now apply obj_get_update_other.
  - now apply obj_get_insert_other.
Qed.

Lemma obj_keys_set_NoDup k v o :
  NoDup (obj_keys o) -> NoDup (obj_keys (obj_set k v o)).
Proof.
  intros Hnd. unfold obj_set. destruct (obj_get k o) eqn:E.
  - now rewrite obj_keys_update.
  - unfold obj_keys.
    eapply Permutation_NoDup.
    + symmetry. apply Permutation_map. apply obj_insert_perm.
    + simpl. constructor; [|exact Hnd]. now apply obj_get_None.
Qed.

Lemma obj_keys_set_In k v o k' :
  In k' (obj_keys (obj_set k v o)) <-> k' = k \/ In k' (obj_keys o).
Proof.
  unfold obj_set. destruct (obj_get k o) eqn:E.
  - rewrite obj_keys_update. apply obj_get_Some_key in E.
    split; [tauto|]. intros [->|H]; assumption.
  - unfold obj_keys.
    assert (P : Permutation (map fst (obj_insert k v o)) (k :: map fst o)).
    { apply (Permutation_map fst (obj_insert_perm k v o)). }
    split; intros H.
    + apply (Permutation_in _ P) in H. destruct H; [left|right]; auto.
    + apply (Permutation_in _ (Permutation_sym P)).
      destruct H; [left|right]; auto.
Qed.

End ObjFacts.

(** ** Counters *)

Lemma In_obj_update {A} (k : Z) (v : A) (o : obj A) p :
  In p (obj_update k v o) -> p = (k, v) \/ In p o.
Proof.
  induction o as [|[k' v'] o IH]; simpl; [tauto|].
  destruct (Z.eqb_spec k' k) as [->|Hne]; simpl.
  - intros [H|H]; auto.
  - intros [H|H]; auto. destruct (IH H); auto.
Qed.

Lemma In_obj_set {A} (k : Z) (v : A) (o : obj A) p :
  In p (obj_set k v o) -> p = (k, v) \/ In p o.
Proof.
  unfold obj_set. destruct (obj_get k o).
  - apply In_obj_update.
  - intros H. apply (Permutation_in _ (obj_insert_perm k v o)) in H.
    destruct H; auto.
Qed.

Lemma list_sum_zero (vs : list nat) :
  (forall v, In v vs -> v = 0) -> list_sum vs = 0.
Proof.
  induction vs as [|v vs IH]; simpl; [reflexivity|].
  intros H. rewrite (H v), IH; auto.
Qed.

Lemma list_sum_update (k : Z) (v c : nat) (o : obj nat) :
  obj_get k o = Some c ->
  list_sum (Object_values (obj_update k v o)) + c
  = list_sum (Object_values o) + v.
Proof.
  unfold Object_values.
  induction o as [|[k' v'] o IH]; simpl; [discriminate|].
  destruct (Z.eqb_spec k' k) as [->|Hne]; simpl.
  - intros [= ->]. lia.
  - intros H. specialize (IH H). lia.
Qed.

Lemma list_sum_pair (k1 k2 : Z) (c1 c2 : nat) (o : obj nat) :
  k1 <> k2 -> obj_get k1 o = Some c1 -> obj_get k2 o = Some c2 ->
  c1 + c2 <= list_sum (Object_values o).
Proof.
  assert (One : forall k c (o : obj nat),
             obj_get k o = Some c -> c <= list_sum (map snd o)).
  { clear. intros k c o. induction o as [|[k0 v0] o IH]; simpl; [discriminate|].
    destruct (k0 =? k)%Z; [intros [= ->]; lia|].
    intros H. specialize (IH H). lia. }
  unfold Object_values.
  intros Hne. induction o as [|[k' v'] o IH]; simpl; [discriminate|].
  destruct (Z.eqb_spec k' k1) as [E1|H1]; destruct (Z.eqb_spec k' k2) as [E2|H2];
    try congruence.
  - intros [= ->] H. apply One in H. lia.
  - intros H [= ->]. apply One in H. lia.
  - intros Ha Hb. specialize (IH Ha Hb). lia.
Qed.

Lemma obj_keys_incr (k : Z) (o : obj nat) :
  obj_keys (obj_incr k o) = obj_keys o.
Proof.
  unfold obj_incr, obj_set. destruct (obj_get k o); [|reflexivity].
  apply obj_keys_update.
Qed.

Lemma obj_incr_update (k : Z) (o : obj nat) (c : nat) :
  obj_get k o = Some c -> obj_incr k o = obj_update k (S c) o.
Proof. intros H. unfold obj_incr, obj_set. now rewrite H. Qed.

Lemma obj_get_incr_same (k : Z) (o : obj nat) (c : nat) :
  obj_get k o = Some c -> obj_get k (obj_incr k o) = Some (S c).
Proof.
  intros H. rewrite (obj_incr_update _ _ _ H).
  apply obj_get_update_same. congruence.
Qed.

Lemma obj_get_incr_other (k k' : Z) (o : obj nat) :
  k <> k' -> obj_get k' (obj_incr k o) = obj_get k' o.
Proof.
  intros Hne. unfold obj_incr. destruct (obj_get k o); [|reflexivity].
  now apply obj_get_set_other.
Qed.

Lemma list_sum_incr (k : Z) (o : obj nat) :
  obj_get k o <> None ->
  list_sum (Object_values (obj_incr k o)) = S (list_sum (Object_values o)).
Proof.
  destruct (obj_get k o) as [c|] eqn:E; [intros _|congruence].
  rewrite (obj_incr_update _ _ _ E).
  pose proof (list_sum_update k (S c) c o E). lia.
Qed.

(** Increments of two ballots commute, whatever their keys. *)
Lemma obj_incr_comm (k1 k2 : Z) (o : obj nat) :
  obj_incr k1 (obj_incr k2 o) = obj_incr k2 (obj_incr k1 o).
Proof.
  destruct (Z.eq_dec k1 k2) as [->|Hne]; [reflexivity|].
  destruct (obj_get k1 o) as [c1|] eqn:E1; destruct (obj_get k2 o) as [c2|] eqn:E2.
  - assert (E1' : obj_get k1 (obj_incr k2 o) = Some c1)
      by (rewrite obj_get_incr_other; auto).
    assert (E2' : obj_get k2 (obj_incr k1 o) = Some c2)
      by (rewrite obj_get_incr_other; auto).
    rewrite (obj_incr_update _ _ _ E1'), (obj_incr_update _ _ _ E2').
    rewrite (obj_incr_update _ _ _ E1), (obj_incr_update _ _ _ E2).
    clear - Hne. induction o as [|[k v] o IH]; simpl; [reflexivity|].
    destruct (Z.eqb_spec k k1) as [H1|H1]; destruct (Z.eqb_spec k k2) as [H2|H2];
      simpl; try congruence.
    + subst k. rewrite Z.eqb_refl.
      destruct (Z.eqb_spec k1 k2); [contradiction|reflexivity].
    + subst k. rewrite Z.eqb_refl.
      destruct (Z.eqb_spec k2 k1); [congruence|reflexivity].
    + destruct (Z.eqb_spec k k1); [contradiction|].
      destruct (Z.eqb_spec k k2); [contradiction|]. now rewrite IH.
  - assert (E2' : obj_get k2 (obj_incr k1 o) = None)
      by (rewrite obj_get_incr_other; auto).
    unfold obj_incr at 2. rewrite E2.
    unfold obj_incr at 2. now rewrite E2'.
  - assert (E1' : obj_get k1 (obj_incr k2 o) = None)
      by (rewrite obj_get_incr_other; auto).
    unfold obj_incr at 1. rewrite E1'.
    unfold obj_incr at 3. now rewrite E1.
  - unfold obj_incr. now rewrite E2, E1, E2.
Qed.

(** ** One round of counting *)

Section Counting.

Variable remainingOptions : list PollOption.

Lemma in_race_In (k : Z) :
  in_race remainingOptions k = true
  <-> exists opt, In opt remainingOptions /\ opt_id opt = k.
Proof.
  unfold in_race. rewrite existsb_exists.
  split; intros (opt & Hin & H); exists opt; split; auto.
  - now apply Z.eqb_eq.
  - now apply Z.eqb_eq.
Qed.

Lemma first_valid_choice_in_race rs k :
  first_valid_choice remainingOptions rs = Some k ->
  in_race remainingOptions k = true.
Proof.
  induction rs as [|r rs IH]; simpl; [discriminate|].
  destruct (nr_pollOptionId r) as [k'|]; auto.
  destruct (in_race remainingOptions k') eqn:E; auto.
  now intros [= <-].
Qed.

Lemma has_choice_ranks ballot :
  has_choice remainingOptions ballot = true
  <-> ranks_remaining remainingOptions ballot.
Proof.
  unfold has_choice, ranks_remaining.
  induction (nb_rankings ballot) as [|r rs IH]; simpl.
  - split; [discriminate|]. intros (? & ? & [] & _).
  - destruct (nr_pollOptionId r) as [k'|] eqn:Ek.
    + destruct (in_race remainingOptions k') eqn:E.
      * split; [|reflexivity]. intros _. exists r, k'. auto.
      * rewrite IH. split.
        -- intros (r0 & k & Hin & H1 & H2). exists r0, k. auto.
        -- intros (r0 & k & [<-|Hin] & H1 & H2).
           ++ congruence.
           ++ exists r0, k. auto.
    + rewrite IH. split.
      * intros (r0 & k & Hin & H1 & H2). exists r0, k. auto.
      * intros (r0 & k & [<-|Hin] & H1 & H2).
        -- congruence.
        -- exists r0, k. auto.
Qed.

(** The initialisation loop creates one zero counter per distinct id. *)
Lemma init_voteCounts_spec :
  let vc := init_voteCounts remainingOptions in
  NoDup (obj_keys vc)
  /\ (forall k, In k (obj_keys vc) <-> in_race remainingOptions k = true)
  /\ (forall p, In p vc -> snd p = 0).
Proof.
  unfold init_voteCounts.
  assert (G : forall (l : list PollOption) (o : obj nat),
             NoDup (obj_keys o) ->
             (forall p, In p o -> snd p = 0) ->
             let vc := fold_left
                         (fun vc option => obj_set (opt_id option) 0 vc) l o in
             NoDup (obj_keys vc)
             /\ (forall k, In k (obj_keys vc)
                           <-> In k (obj_keys o) \/ in_race l k = true)
             /\ (forall p, In p vc -> snd p = 0)).
  { induction l as [|x l IH]; intros o Hnd Hz; simpl.
    - repeat split; auto. intros [?|?]; [assumption|discriminate].
    - destruct (IH (obj_set (opt_id x) 0 o)) as (H1 & H2 & H3).
      + now apply obj_keys_set_NoDup.
      + intros p Hp. apply In_obj_set in Hp. destruct Hp as [->|Hp]; auto.
      + repeat split; auto.
        * intros Hk. apply H2 in Hk. rewrite obj_keys_set_In in Hk.
          rewrite orb_true_iff, Z.eqb_eq. intuition.
        * intros Hk. apply H2. rewrite obj_keys_set_In.
          rewrite orb_true_iff, Z.eqb_eq in Hk. intuition. }
  destruct (G remainingOptions [] (NoDup_nil _)) as (H1 & H2 & H3).
  - intros p [].
  - repeat split; auto.
    + intros Hk. apply H2 in Hk. destruct Hk as [[]|]; auto.
    + intros Hk. apply H2. auto.
Qed.

Lemma count_ballot_keys vc ballot :
  obj_keys (count_ballot remainingOptions vc ballot) = obj_keys vc.
Proof.
  unfold count_ballot.
  destruct (first_valid_choice _ _); [apply obj_keys_incr|reflexivity].
Qed.

Lemma count_votes_keys nbs :
  obj_keys (count_votes remainingOptions nbs)
  = obj_keys (init_voteCounts remainingOptions).
Proof.
  unfold count_votes. generalize (init_voteCounts remainingOptions).
  induction nbs as [|b nbs IH]; intros vc; simpl; [reflexivity|].
  rewrite IH. apply count_ballot_keys.
Qed.

Lemma count_votes_NoDup nbs :
  NoDup (obj_keys (count_votes remainingOptions nbs)).
Proof. rewrite count_votes_keys. apply init_voteCounts_spec. Qed.

Lemma count_votes_key nbs k :
  In k (obj_keys (count_votes remainingOptions nbs))
  <-> in_race remainingOptions k = true.
Proof. rewrite count_votes_keys. apply init_voteCounts_spec. Qed.

(** Every option in the race has a counter: [voteCounts[opt.id]] is never
    [undefined]. *)
Lemma count_votes_get nbs opt :
  In opt remainingOptions ->
  exists c, obj_get (opt_id opt) (count_votes remainingOptions nbs) = Some c.
Proof.
  intros Hin.
  destruct (obj_get (opt_id opt) (count_votes remainingOptions nbs)) eqn:E;
    [eauto|].
  apply obj_get_None in E. exfalso. apply E.
  apply count_votes_key. apply in_race_In. eauto.
Qed.

(** Every counter belongs to an option in the race. *)
Lemma count_votes_entry nbs k c :
  In (k, c) (count_votes remainingOptions nbs) ->
  obj_get k (count_votes remainingOptions nbs) = Some c
  /\ exists opt, In opt remainingOptions /\ opt_id opt = k.
Proof.
  intros Hin. split.
  - apply In_obj_get; [apply count_votes_NoDup|assumption].
  - apply in_race_In, (count_votes_key nbs).
    change k with (fst (k, c)). now apply in_map.
Qed.

(** The counters add up to the number of ballots that still rank an option
    in the race. *)
Lemma count_votes_sum nbs :
  list_sum (Object_values (count_votes remainingOptions nbs))
  = length (filter (has_choice remainingOptions) nbs).
Proof.
  unfold count_votes.
  assert (G : forall nbs vc,
             (forall k, in_race remainingOptions k = true ->
                        obj_get k vc <> None) ->
             list_sum (Object_values
                         (fold_left (count_ballot remainingOptions) nbs vc))
             = list_sum (Object_values vc)
               + length (filter (has_choice remainingOptions) nbs)).
  { clear nbs. induction nbs as [|b nbs IH]; intros vc Hk; simpl; [lia|].
    rewrite IH.
    - unfold count_ballot, has_choice.
      destruct (first_valid_choice remainingOptions (nb_rankings b)) eqn:E;
        simpl; [|lia].
      rewrite list_sum_incr; [lia|].
      apply Hk. eapply first_valid_choice_in_race; eauto.
    - intros k Hr. specialize (Hk k Hr).
      rewrite obj_get_None in *. now rewrite count_ballot_keys. }
  rewrite G.
  - rewrite list_sum_zero; [reflexivity|].
    intros v Hv. unfold Object_values in Hv. apply in_map_iff in Hv.
    destruct Hv as (p & <- & Hp). now apply init_voteCounts_spec.
  - intros k Hr. rewrite obj_get_None. intros H. apply H.
    now apply init_voteCounts_spec.
Qed.

End Counting.

(** ** Minimum, scans and filters *)

Lemma Math_min_spec (vs : list nat) :
  vs <> [] ->
  exists m, Math_min vs = Some m /\ In m vs /\ forall v, In v vs -> m <= v.
Proof.
  induction vs as [|v vs IH]; [congruence|intros _]. simpl.
  destruct vs as [|v' vs'].
  - simpl. exists v. repeat split; auto. intros ? [<-|[]]. lia.
  - destruct IH as (m & -> & Hin & Hle); [discriminate|].
    exists (Nat.min v m). split; [reflexivity|]. split.
    + destruct (Nat.min_spec v m) as [[_ ->]|[_ ->]]; [now left|now right].
    + intros x [<-|Hx]; [lia|]. specialize (Hle x Hx). lia.
Qed.

Lemma filter_length_lt {A} (f : A -> bool) (l : list A) (x : A) :
  In x l -> f x = false -> length (filter f l) < length l.
Proof.
  induction l as [|y l IH]; simpl; [tauto|].
  intros [->|Hin] Hf.
  - rewrite Hf. pose proof (filter_length_le f l). lia.
  - specialize (IH Hin Hf). destruct (f y); simpl; lia.
Qed.

Lemma includes_In (ids : list Z) (k : Z) :
  includes ids k = true <-> In k ids.
Proof.
  unfold includes. rewrite existsb_exists. split.
  - intros (i & Hin & H). apply Z.eqb_eq in H. now subst.
  - intros H. exists k. split; [assumption|apply Z.eqb_refl].
Qed.

Lemma reduce_lowest_id_In (xs : list PollOption) (x : PollOption) :
  reduce_lowest_id xs = Some x -> In x xs.
Proof.
  destruct xs as [|y ys]; simpl; [discriminate|]. intros [= <-].
  revert y. induction ys as [|z ys IH]; intros y; simpl; [now left|].
  destruct (IH (if (opt_id z <? opt_id y)%Z then z else y)) as [H|H].
  - destruct (opt_id z <? opt_id y)%Z; [right; left|left]; auto.
  - right. now right.
Qed.

Lemma reduce_lowest_id_le (xs : list PollOption) (x : PollOption) :
  reduce_lowest_id xs = Some x ->
  forall y, In y xs -> (opt_id x <= opt_id y)%Z.
Proof.
  destruct xs as [|a ys]; simpl; [discriminate|]. intros [= <-].
  assert (G : forall ys a,
             (opt_id (fold_left
                        (fun lowest current =>
                           if (opt_id current <? opt_id lowest)%Z
                           then current else lowest) ys a) <= opt_id a)%Z
             /\ forall y, In y ys ->
                  (opt_id (fold_left
                             (fun lowest current =>
                                if (opt_id current <? opt_id lowest)%Z
                                then current else lowest) ys a)
                   <= opt_id y)%Z).
  { clear. induction ys as [|z ys IH]; intros a; simpl.
    - split; [lia|tauto].
    - destruct (IH (if (opt_id z <? opt_id a)%Z then z else a)) as [H1 H2].
      destruct (Z.ltb_spec (opt_id z) (opt_id a)); split; try lia.
      + intros y [<-|Hy]; auto.
      + intros y [<-|Hy]; [lia|auto]. }
  destruct (G ys a) as [G1 G2]. intros y [<-|Hy]; auto.
Qed.

Lemma forallb_false {A} (f : A -> bool) (l : list A) :
  forallb f l = false -> exists x, In x l /\ f x = false.
Proof.
  induction l as [|y l IH]; simpl; [discriminate|].
  destruct (f y) eqn:E; simpl.
  - intros H. destruct (IH H) as (x & ? & ?). eauto.
  - intros _. eauto.
Qed.

(** ** The round loop *)

Section WhileRule.

Variable body : list Round -> list PollOption -> pass.
Variable finish_ : list Round -> option PollOption -> Result.
Variable Inv : list Round -> list PollOption -> Prop.
Variable Post : Result -> Prop.

Hypothesis exit_ok : forall rounds rem,
  Inv rounds rem -> length rem <= 1 -> Post (finish_ rounds (hd_error rem)).

Hypothesis body_ok : forall rounds rem,
  Inv rounds rem -> 1 < length rem ->
  match body rounds rem with
  | Return r => Post r
  | Continue rounds' rem' => Inv rounds' rem' /\ length rem' < length rem
  | Throw => False
  end.

(** With as much fuel as there are options the loop returns, and what it
    returns satisfies the postcondition. *)
Lemma while_loop_rule fuel rounds rem :
  Inv rounds rem -> length rem <= fuel ->
  exists res, while_loop body finish_ fuel rounds rem = Returned res
              /\ Post res.
Proof.
  revert rounds rem. induction fuel as [|fuel IH]; intros rounds rem HI Hf.
  - simpl. destruct (Nat.leb_spec (length rem) 1); [|lia]. eauto.
  - simpl. destruct (Nat.leb_spec (length rem) 1) as [Hl|Hl]; [eauto|].
    pose proof (body_ok rounds rem HI Hl) as Hb.
    destruct (body rounds rem) as [r|rounds' rem'|]; [eauto| |contradiction].
    destruct Hb as [HI' Hlt]. apply IH; [assumption|lia].
Qed.

End WhileRule.

(** ** What a round of elimination removes *)

Section Elimination.

Variable nbs : list NBallot.
Variable remainingOptions : list PollOption.
Hypothesis in_loop : 1 < length remainingOptions.

Let voteCounts := count_votes remainingOptions nbs.
Let voteValues := Object_values voteCounts.
Let minVotes := Math_min voteValues.
Let minVoteOptions := filter (has_min voteCounts minVotes) remainingOptions.

Lemma voteValues_option v :
  In v voteValues ->
  exists opt, In opt remainingOptions
              /\ obj_get (opt_id opt) voteCounts = Some v.
Proof.
  intros Hv. unfold voteValues, Object_values in Hv.
  apply in_map_iff in Hv. destruct Hv as ([k c] & <- & Hin).
  apply count_votes_entry in Hin. destruct Hin as (Hget & opt & Ho & <-).
  eauto.
Qed.

Lemma option_voteValues opt c :
  obj_get (opt_id opt) voteCounts = Some c -> In c voteValues.
Proof.
  intros H. apply obj_get_In in H. apply (in_map snd) in H. exact H.
Qed.

Lemma voteValues_nonempty : voteValues <> [].
Proof.
  assert (H : exists opt, In opt remainingOptions).
  { destruct remainingOptions as [|opt rest]; simpl in *; [lia|eauto]. }
  destruct H as (opt & Ho).
  destruct (count_votes_get remainingOptions nbs opt Ho) as (c & Hc).
  apply option_voteValues in Hc. intros H. rewrite H in Hc. destruct Hc.
Qed.

(** The minimum is the count of some option in the race. *)
Lemma minVotes_attained :
  exists m opt, minVotes = Some m /\ In opt minVoteOptions
                /\ (forall v, In v voteValues -> m <= v).
Proof.
  destruct (Math_min_spec voteValues voteValues_nonempty) as (m & Hm & Hin & Hle).
  destruct (voteValues_option m Hin) as (opt & Ho & Hget).
  exists m, opt. repeat split; auto.
  apply filter_In. split; [assumption|].
  unfold has_min. rewrite Hget. unfold minVotes. rewrite Hm.
  simpl. apply Nat.eqb_refl.
Qed.

Lemma find_has_min_Some :
  exists opt, find (has_min voteCounts minVotes) remainingOptions = Some opt.
Proof.
  destruct minVotes_attained as (m & opt & _ & Hin & _).
  apply filter_In in Hin. destruct Hin as [Hin Hf].
  destruct (find (has_min voteCounts minVotes) remainingOptions) eqn:E; [eauto|].
  pose proof (find_none _ _ E _ Hin). congruence.
Qed.

(** Removing the options at the minimum always removes something ... *)
Lemma remove_ids_shrinks :
  length (remove_ids (map opt_id minVoteOptions) remainingOptions)
  < length remainingOptions.
Proof.
  destruct minVotes_attained as (m & opt & _ & Hin & _).
  pose proof Hin as Hin'. apply filter_In in Hin'. destruct Hin' as [Ho _].
  apply (filter_length_lt _ _ opt Ho).
  apply negb_false_iff, includes_In. now apply in_map.
Qed.

(** ... and, unless all counts are the same, leaves something. *)
Lemma remove_ids_survivor :
  all_same voteValues minVotes = false ->
  remove_ids (map opt_id minVoteOptions) remainingOptions <> [].
Proof.
  intros Hall. apply forallb_false in Hall. destruct Hall as (v & Hv & Hne).
  destruct (voteValues_option v Hv) as (opt & Ho & Hget).
  assert (Hs : In opt (remove_ids (map opt_id minVoteOptions) remainingOptions)).
  { apply filter_In. split; [assumption|].
    apply negb_true_iff. destruct (includes _ _) eqn:E; [|reflexivity].
    apply includes_In, in_map_iff in E. destruct E as (o' & Hid & Ho').
    apply filter_In in Ho'. destruct Ho' as [_ Hmin].
    unfold has_min in Hmin. rewrite Hid, Hget in Hmin. congruence. }
  intros H. rewrite H in Hs. destruct Hs.
Qed.

(** When all counts are the same every option in the race has the
    minimum. *)
Lemma all_same_counts :
  all_same voteValues minVotes = true ->
  exists m, minVotes = Some m
            /\ forall opt, In opt remainingOptions ->
                           obj_get (opt_id opt) voteCounts = Some m.
Proof.
  intros Hall. destruct minVotes_attained as (m & _ & Hm & _ & _).
  exists m. split; [assumption|]. intros opt Ho.
  destruct (count_votes_get remainingOptions nbs opt Ho) as (c & Hc).
  fold voteCounts in Hc. rewrite Hc. f_equal.
  unfold all_same in Hall. rewrite forallb_forall in Hall.
  specialize (Hall c (option_voteValues opt c Hc)).
  rewrite Hm in Hall. simpl in Hall. now apply Nat.eqb_eq.
Qed.

End Elimination.

(** ** Soundness of the recorded rounds *)

Lemma filter_filter {A} (f g : A -> bool) (l : list A) :
  filter g (filter f l) = filter (fun x => f x && g x) l.
Proof.
  induction l as [|x l IH]; simpl; [reflexivity|].
  destruct (f x); simpl; [|assumption].
  destruct (g x); now rewrite IH.
Qed.

Lemma kept_from_refl (options : list PollOption) : kept_from options options.
Proof.
  exists (fun _ => true). induction options as [|x l IH]; simpl; congruence.
Qed.

Lemma kept_from_incl (options rem : list PollOption) :
  kept_from options rem -> incl rem options.
Proof. intros [keep ->] x Hx. apply filter_In in Hx. apply Hx. Qed.

Lemma kept_from_NoDup (options rem : list PollOption) :
  kept_from options rem ->
  NoDup (map opt_id options) -> NoDup (map opt_id rem).
Proof.
  intros [keep ->]. induction options as [|x l IH]; simpl; [auto|].
  intros Hnd. inversion Hnd as [|? ? Hx Hl]; subst.
  destruct (keep x); simpl; [|auto]. constructor; [|auto].
  intros Hin. apply Hx. apply in_map_iff in Hin.
  destruct Hin as (y & Hy & Hin). apply filter_In in Hin.
  rewrite <- Hy. apply in_map, Hin.
Qed.

Section Soundness.

Variable nbs : list NBallot.
Variable options : list PollOption.

Let totalVotes := length nbs.
Let majorityThreshold := threshold_of totalVotes.

Let loop_inv := loop_inv nbs options.

Lemma push_round_sound rounds rem pct e em mw t :
  loop_inv rounds rem -> 1 < length rem ->
  (forall k, mw = Some k ->
             exists c, obj_get k (count_votes rem nbs) = Some c
                       /\ majorityThreshold <= c) ->
  Forall (round_sound nbs majorityThreshold options)
         (push_round rounds (count_votes rem nbs) pct rem e em mw t).
Proof.
  intros [Hincl Hr] Hlen Hmw. unfold push_round.
  apply Forall_app. split; [assumption|]. constructor; [|constructor].
  split.
  - exists rem. split; [assumption|]. repeat split; simpl; auto.
  - exact Hmw.
Qed.

Lemma find_majority rem mw :
  find (has_majority (count_votes rem nbs) majorityThreshold) rem = Some mw ->
  forall k, Some (opt_id mw) = Some k ->
            exists c, obj_get k (count_votes rem nbs) = Some c
                      /\ majorityThreshold <= c.
Proof.
  intros Hf k [= <-]. apply find_some in Hf. destruct Hf as [_ Hf].
  unfold has_majority, ge_opt in Hf.
  destruct (obj_get (opt_id mw) (count_votes rem nbs)) as [c|];
    [|discriminate].
  exists c. split; [reflexivity|]. now apply Nat.leb_le.
Qed.

Lemma no_majority k :
  @None Z = Some k ->
  exists c : nat, @None nat = Some c /\ majorityThreshold <= c.
Proof. discriminate. Qed.

Lemma loop_inv_filter f rounds rounds' rem :
  loop_inv rounds rem ->
  Forall (round_sound nbs majorityThreshold options) rounds' ->
  loop_inv rounds' (filter f rem).
Proof.
  intros [[keep ->] _] Hr. split; [|assumption].
  exists (fun x => keep x && f x). apply filter_filter.
Qed.

Ltac sound_result :=
  unfold result_sound; simpl;
  split; [reflexivity|]; split; [reflexivity|]; split; [reflexivity|]; split.

Lemma exit_sound rounds rem :
  loop_inv rounds rem -> length rem <= 1 ->
  result_sound nbs options
    (finish totalVotes majorityThreshold rounds (hd_error rem)).
Proof.
  intros [_ Hr] _. sound_result; [assumption|discriminate].
Qed.

(** *** [src/backend/utils/irv.js] *)

Lemma BackendIrv_body_sound rounds rem :
  loop_inv rounds rem -> 1 < length rem ->
  match BackendIrv.body nbs totalVotes majorityThreshold rounds rem with
  | Return r => result_sound nbs options r
  | Continue rounds' rem' => loop_inv rounds' rem' /\ length rem' < length rem
  | Throw => False
  end.
Proof.
  intros HI Hlen. unfold BackendIrv.body.
  destruct (find _ rem) as [mw|] eqn:Emw.
  - (* majority winner *)
    sound_result; [|discriminate].
    apply push_round_sound; auto. now apply find_majority.
  - destruct (Nat.ltb_spec 1 (length rem)) as [_|]; [|lia].
    rewrite andb_true_r.
    destruct (all_same _ _) eqn:Eall.
    + (* declared tie *)
      assert (Hs : Forall (round_sound nbs majorityThreshold options)
                     (push_round rounds (count_votes rem nbs)
                        (compute_percentages totalVotes rem
                           (count_votes rem nbs)) rem None None None true)).
      { apply push_round_sound; auto. discriminate. }
      sound_result; [assumption|]. intros _.
      split; [reflexivity|]. simpl.
      destruct (all_same_counts nbs rem Hlen Eall) as (m & _ & Hm).
      eexists rounds, _, rem, m. split; [reflexivity|].
      repeat split; simpl; auto; try lia. apply HI.
    + (* elimination *)
      pose proof (remove_ids_survivor nbs rem Eall) as Hsurv.
      pose proof (remove_ids_shrinks nbs rem Hlen) as Hshr.
      match goal with
      | |- context [length ?l =? 0] =>
          destruct (Nat.eqb_spec (length l) 0) as [E|E]
      end.
      * apply length_zero_iff_nil in E. contradiction.
      * split; [|exact Hshr].
        apply loop_inv_filter with (rounds := rounds); auto.
        apply push_round_sound; auto. discriminate.
Qed.

(** *** [src/unnamed/part_007] *)

(** With two options in the race, [voteValues[0] === voteValues[1]] says
    that both have the same count. *)
Lemma two_values_equal rem :
  length rem = 2 ->
  strict_eq_opt (nth_error (Object_values (count_votes rem nbs)) 0)
                (nth_error (Object_values (count_votes rem nbs)) 1) = true ->
  exists c, forall opt, In opt rem ->
                        obj_get (opt_id opt) (count_votes rem nbs) = Some c.
Proof.
  intros Hlen Heq.
  assert (Hk : length (Object_values (count_votes rem nbs)) <= 2).
  { unfold Object_values. rewrite length_map.
    rewrite <- (length_map fst). fold (obj_keys (count_votes rem nbs)).
    rewrite <- Hlen, <- (length_map opt_id rem).
    apply NoDup_incl_length; [apply count_votes_NoDup|].
    intros k Hin. apply count_votes_key, in_race_In in Hin.
    destruct Hin as (opt & Ho & <-). now apply in_map. }
  assert (Hv : forall opt c, In opt rem ->
                 obj_get (opt_id opt) (count_votes rem nbs) = Some c ->
                 In c (Object_values (count_votes rem nbs))).
  { intros opt c _ H. now apply (option_voteValues nbs rem opt). }
  destruct (Object_values (count_votes rem nbs)) as [|c0 [|c1 [|c2 vs]]];
    simpl in *; try discriminate; try lia.
  - exists 0. intros opt Ho.
    destruct (count_votes_get rem nbs opt Ho) as (c & Hc).
    destruct (Hv opt c Ho Hc).
  - apply Nat.eqb_eq in Heq. subst c1.
    exists c0. intros opt Ho.
    destruct (count_votes_get rem nbs opt Ho) as (c & Hc).
    rewrite Hc. f_equal. destruct (Hv opt c Ho Hc) as [H|[H|[]]]; auto.
Qed.

Lemma Part007_body_sound rounds rem :
  loop_inv rounds rem -> 1 < length rem ->
  match Part007.body nbs totalVotes majorityThreshold rounds rem with
  | Return r => result_sound nbs options r
  | Continue rounds' rem' => loop_inv rounds' rem' /\ length rem' < length rem
  | Throw => False
  end.
Proof.
  intros HI Hlen. unfold Part007.body.
  assert (Hpush : forall e em t,
             Forall (round_sound nbs majorityThreshold options)
               (push_round rounds (count_votes rem nbs)
                  (compute_percentages totalVotes rem (count_votes rem nbs))
                  rem e em None t)).
  { intros. apply push_round_sound; auto. discriminate. }
  destruct (if 2 <? length rem then find _ rem else None) as [mw|] eqn:Emw.
  - (* majority winner *)
    destruct (2 <? length rem); [|discriminate].
    sound_result; [|discriminate].
    apply push_round_sound; auto. now apply find_majority.
  - clear Emw. destruct (Nat.eqb_spec (length rem) 2) as [E2|E2].
    + (* two options *)
      destruct (strict_eq_opt _ _) eqn:Etie.
      * sound_result; [apply Hpush|]. intros _.
        split; [reflexivity|]. simpl.
        destruct (two_values_equal rem E2 Etie) as (c & Hc).
        eexists rounds, _, rem, c. split; [reflexivity|].
        repeat split; simpl; auto; try lia. apply HI.
      * destruct (find_has_min_Some nbs rem Hlen) as (elim & ->).
        sound_result; [apply Hpush|discriminate].
    + (* three or more options *)
      destruct (Nat.ltb_spec 2 (length rem)) as [_|]; [|lia].
      rewrite andb_true_r. simpl.
      destruct (minVotes_attained nbs rem Hlen) as (m & opt & _ & Hopt & _).
      destruct (all_same _ _) eqn:Eall.
      * (* complete tie: the lowest id goes *)
        destruct (reduce_lowest_id _) as [elim|] eqn:Er.
        -- split.
           ++ apply loop_inv_filter with (rounds := rounds); auto.
           ++ apply reduce_lowest_id_In in Er.
              apply filter_In in Er. destruct Er as [Er _].
              apply (filter_length_lt _ _ elim Er).
              now rewrite Z.eqb_refl.
        -- destruct (filter _ rem); [destruct Hopt|discriminate].
      * (* every option at the minimum goes *)
        pose proof (remove_ids_survivor nbs rem Eall) as Hsurv.
        pose proof (remove_ids_shrinks nbs rem Hlen) as Hshr.
        destruct (filter _ rem) as [|x xs] eqn:Ef; [destruct Hopt|].
        match goal with
        | |- context [length ?l =? 0] =>
            destruct (Nat.eqb_spec (length l) 0) as [E|E]
        end.
        -- apply length_zero_iff_nil in E. contradiction.
        -- split; [|exact Hshr].
           apply loop_inv_filter with (rounds := rounds); auto.
Qed.

End Soundness.

(** Both copies return, whatever the input, and what they return is
    sound. *)
Lemma BackendIrv_sound (options : list PollOption) (ballots : list Ballot) :
  options <> [] -> ballots <> [] ->
  exists res,
    BackendIrv.calculateIRV options ballots = Returned res
    /\ result_sound (normalizedBallots ballots) (copy_options options) res.
Proof.
  intros Ho Hb. unfold BackendIrv.calculateIRV.
  destruct options as [|o os]; [congruence|].
  destruct ballots as [|b bs]; [congruence|].
  cbv zeta.
  apply while_loop_rule
    with (Inv := loop_inv (normalizedBallots (b :: bs))
                          (copy_options (o :: os))).
  - apply exit_sound.
  - apply BackendIrv_body_sound.
  - split; [apply kept_from_refl|constructor].
  - unfold copy_options. now rewrite length_map.
Qed.

Lemma Part007_sound (options : list PollOption) (ballots : list Ballot) :
  options <> [] -> ballots <> [] ->
  exists res,
    Part007.calculateIRV options ballots = Returned res
    /\ result_sound (normalizedBallots ballots) (copy_options options) res.
Proof.
  intros Ho Hb. unfold Part007.calculateIRV.
  destruct options as [|o os]; [congruence|].
  destruct ballots as [|b bs]; [congruence|].
  cbv zeta.
  apply while_loop_rule
    with (Inv := loop_inv (normalizedBallots (b :: bs))
                          (copy_options (o :: os))).
  - apply exit_sound.
  - apply Part007_body_sound.
  - split; [apply kept_from_refl|constructor].
  - unfold copy_options. now rewrite length_map.
Qed.

Lemma copy_options_id (options : list PollOption) :
  copy_options options = options.
Proof.
  unfold copy_options. induction options as [|[i t] os IH]; simpl;
    [reflexivity|]. now rewrite IH.
Qed.

(** A returned result is one of the two precondition errors or a sound
    result of the round loop. *)
Lemma tally_returns_cases options ballots res :
  tally_returns options ballots res ->
  (options = [] /\ res = error_result No_options_available)
  \/ (ballots = [] /\ res = error_result No_ballots_available)
  \/ (options <> [] /\ ballots <> []
      /\ result_sound (normalizedBallots ballots) options res).
Proof.
  intros Hr.
  destruct options as [|o os].
  { left. split; [reflexivity|]. destruct Hr as [H|H]; simpl in H; congruence. }
  destruct ballots as [|b bs].
  { right; left. split; [reflexivity|].
    destruct Hr as [H|H]; simpl in H; congruence. }
  right; right. split; [discriminate|]. split; [discriminate|].
  rewrite <- (copy_options_id (o :: os)).
  destruct Hr as [H|H].
  - destruct (BackendIrv_sound (o :: os) (b :: bs)) as (r & Hr & Hs);
      try discriminate. congruence.
  - destruct (Part007_sound (o :: os) (b :: bs)) as (r & Hr & Hs);
      try discriminate. congruence.
Qed.

Lemma tally_rounds_sound options ballots res rd :
  tally_returns options ballots res -> In rd (res_rounds res) ->
  ballots <> []
  /\ res_totalVotes res = Some (length ballots)
  /\ round_sound (normalizedBallots ballots)
                 (threshold_of (length ballots)) options rd.
Proof.
  intros Hr Hin. apply tally_returns_cases in Hr.
  destruct Hr as [[_ ->]|[[_ ->]|(_ & Hb & Hs)]]; try (destruct Hin).
  destruct Hs as (Ht & _ & _ & Hf & _).
  unfold normalizedBallots in *. rewrite length_map in *.
  rewrite Forall_forall in Hf. auto.
Qed.

(** Both copies return on every input. *)
Lemma calculateIRV_total options ballots :
  exists r1 r2,
    BackendIrv.calculateIRV options ballots = Returned r1
    /\ Part007.calculateIRV options ballots = Returned r2.
Proof.
  destruct options as [|o os]; [simpl; eauto|].
  destruct ballots as [|b bs]; [simpl; eauto|].
  destruct (BackendIrv_sound (o :: os) (b :: bs)) as (r1 & H1 & _);
    try discriminate.
  destruct (Part007_sound (o :: os) (b :: bs)) as (r2 & H2 & _);
    try discriminate.
  eauto.
Qed.

(** ** Totals and threshold *)

(** C7. For non-empty options and ballots both copies of [calculateIRV]
    return a result whose [totalVotes] is the number of ballots supplied
    and whose [majorityThreshold] is [floor(totalVotes / 2) + 1]; the two
    values are fixed before the round loop (they are parameters of the loop
    body), and every majority winner recorded in a round has a count of at
    least that same threshold. *)
Theorem totalVotes_and_majorityThreshold
    (options : list PollOption) (ballots : list Ballot) :
  options <> [] -> ballots <> [] ->
  let n := length ballots in
  (exists res,
      BackendIrv.calculateIRV options ballots = Returned res
      /\ res_totalVotes res = Some n
      /\ res_majorityThreshold res = Some (n / 2 + 1)
      /\ Forall (majority_sound (n / 2 + 1)) (res_rounds res))
  /\ (exists res,
         Part007.calculateIRV options ballots = Returned res
         /\ res_totalVotes res = Some n
         /\ res_majorityThreshold res = Some (n / 2 + 1)
         /\ Forall (majority_sound (n / 2 + 1)) (res_rounds res)).
Proof.
  intros Ho Hb n.
  assert (G : forall res,
             result_sound (normalizedBallots ballots)
                          (copy_options options) res ->
             res_totalVotes res = Some n
             /\ res_majorityThreshold res = Some (n / 2 + 1)
             /\ Forall (majority_sound (n / 2 + 1)) (res_rounds res)).
  { intros res (Ht & Hm & _ & Hf & _).
    unfold normalizedBallots, threshold_of in *. rewrite length_map in *.
    repeat split; auto.
    eapply Forall_impl; [|exact Hf]. intros rd [_ H]. exact H. }
  split.
  - destruct (BackendIrv_sound options ballots Ho Hb) as (res & Hr & Hs).
    exists res. split; [assumption|]. now apply G.
  - destruct (Part007_sound options ballots Ho Hb) as (res & Hr & Hs).
    exists res. split; [assumption|]. now apply G.
Qed.

Lemma totalVotes_and_majorityThreshold_witness :
  [optA; optB] <> [] /\ ballots_A <> []
  /\ (exists res,
         BackendIrv.calculateIRV [optA; optB] ballots_A = Returned res
         /\ res_totalVotes res = Some 3
         /\ res_majorityThreshold res = Some 2
         /\ Forall (majority_sound 2) (res_rounds res))
  /\ (exists res,
         Part007.calculateIRV [optA; optB] ballots_A = Returned res
         /\ res_totalVotes res = Some 3
         /\ res_majorityThreshold res = Some 2
         /\ Forall (majority_sound 2) (res_rounds res)).
Proof.
  split; [discriminate|]. split; [discriminate|].
  apply (totalVotes_and_majorityThreshold [optA; optB] ballots_A);
    discriminate.
Defined.

(** ** The guard for an empty race *)

(** C6. On every input both copies of [calculateIRV] return, and the
    result never carries the error "All options eliminated - no winner":
    whenever the counts of a round are not all the same, removing every
    option at the minimum leaves an option in the race, so the guard for
    an empty race is never taken. *)
Theorem never_all_options_eliminated
    (options : list PollOption) (ballots : list Ballot) :
  (exists r1 r2,
      BackendIrv.calculateIRV options ballots = Returned r1
      /\ Part007.calculateIRV options ballots = Returned r2
      /\ res_error r1 <> Some All_options_eliminated
      /\ res_error r2 <> Some All_options_eliminated)
  /\ forall nbs rem,
       let voteCounts := count_votes rem nbs in
       let minVotes := Math_min (Object_values voteCounts) in
       all_same (Object_values voteCounts) minVotes = false ->
       remove_ids (map opt_id (filter (has_min voteCounts minVotes) rem))
                  rem
       <> [].
Proof.
  split; [|intros nbs rem; apply remove_ids_survivor].
  destruct (calculateIRV_total options ballots) as (r1 & r2 & H1 & H2).
  exists r1, r2. split; [assumption|]. split; [assumption|].
  assert (G : forall res, tally_returns options ballots res ->
                          res_error res <> Some All_options_eliminated).
  { intros res Hr. apply tally_returns_cases in Hr.
    destruct Hr as [[_ ->]|[[_ ->]|(_ & _ & Hs)]].
    - simpl. discriminate.
    - simpl. discriminate.
    - destruct Hs as (_ & _ & -> & _). discriminate. }
  split; apply G; [now left|now right].
Qed.

Lemma never_all_options_eliminated_witness :
  all_same
    (Object_values
       (count_votes [optA; optB; optC] (normalizedBallots ballots_C)))
    (Math_min
       (Object_values
          (count_votes [optA; optB; optC] (normalizedBallots ballots_C))))
  = false
  /\ remove_ids
       (map opt_id
          (filter
             (has_min
                (count_votes [optA; optB; optC]
                             (normalizedBallots ballots_C))
                (Math_min
                   (Object_values
                      (count_votes [optA; optB; optC]
                                   (normalizedBallots ballots_C)))))
             [optA; optB; optC]))
       [optA; optB; optC]
     <> [].
Proof.
  split; [reflexivity|].
  apply (proj2 (never_all_options_eliminated [optA; optB; optC] ballots_C)
           (normalizedBallots ballots_C) [optA; optB; optC]).
  reflexivity.
Defined.

(** ** Ties *)

(** C5. Whenever either copy returns [tie: true], the winner is absent,
    [tiedOptions] are the options that played the last recorded round
    [rd], that round is flagged as a tie, and all of them have the same
    count [c] in it. *)
Theorem tie_means_equal_counts
    (options : list PollOption) (ballots : list Ballot) (res : Result) :
  tally_returns options ballots res ->
  res_tie res = true ->
  res_winner res = None
  /\ exists pre rd tied c,
       res_rounds res = pre ++ [rd]
       /\ res_tiedOptions res = Some tied
       /\ rd_remaining rd = map opt_id tied
       /\ rd_voteCounts rd = count_votes tied (normalizedBallots ballots)
       /\ rd_tie rd = true
       /\ forall opt, In opt tied -> count_in rd (opt_id opt) = Some c.
Proof.
  intros Hr Htie. apply tally_returns_cases in Hr.
  destruct Hr as [[_ ->]|[[_ ->]|(_ & _ & Hs)]]; try discriminate.
  destruct Hs as (_ & _ & _ & _ & Ht). destruct (Ht Htie) as (Hw & Hx).
  split; [assumption|].
  destruct Hx as (pre & rd & tied & c & Hrs & Hto & _ & Hro & Hrt & Hc).
  exists pre, rd, tied, c.
  destruct Hro as (Hvc & Hrem & _).
  repeat split; auto.
Qed.

Lemma tie_means_equal_counts_witness :
  tally_returns [optA; optB] ballots_D result_D
  /\ res_tie result_D = true
  /\ exists pre rd tied c,
       res_rounds result_D = pre ++ [rd]
       /\ res_tiedOptions result_D = Some tied
       /\ forall opt, In opt tied -> count_in rd (opt_id opt) = Some c.
Proof.
  assert (H : tally_returns [optA; optB] ballots_D result_D).
  { right. vm_compute. reflexivity. }
  split; [exact H|]. split; [reflexivity|].
  destruct (tie_means_equal_counts _ _ _ H eq_refl)
    as (_ & pre & rd & tied & c & Hrs & Ht & _ & _ & _ & Hc).
  exists pre, rd, tied, c. auto.
Defined.

(** ** Votes counted in a round *)

Lemma filter_length_all {A} (f : A -> bool) (l : list A) :
  length (filter f l) = length l <-> forall x, In x l -> f x = true.
Proof.
  induction l as [|y l IH]; simpl; [tauto|].
  pose proof (filter_length_le f l) as Hle.
  destruct (f y) eqn:E; simpl.
  - split.
    + intros H x [<-|Hx]; [assumption|]. apply IH; [lia|assumption].
    + intros H. f_equal. apply IH. auto.
  - split; [lia|]. intros H. specialize (H y (or_introl eq_refl)). congruence.
Qed.

Lemma list_sum_perm (l l' : list nat) :
  Permutation l l' -> list_sum l = list_sum l'.
Proof. induction 1; simpl; lia. Qed.

Lemma values_by_key (o : obj nat) :
  NoDup (obj_keys o) ->
  map (fun k => match obj_get k o with Some c => c | None => 0 end)
      (obj_keys o)
  = Object_values o.
Proof.
  induction o as [|[k v] o IH]; simpl; [reflexivity|].
  intros Hnd. inversion Hnd as [|? ? Hk Ho]; subst.
  rewrite Z.eqb_refl. f_equal. rewrite <- (IH Ho).
  apply map_ext_in. intros k' Hk'.
  destruct (Z.eqb_spec k k') as [->|_]; [contradiction|reflexivity].
Qed.

Lemma ranks_one_of_remaining rem ballot :
  ranks_one_of (map opt_id rem) ballot <-> ranks_remaining rem ballot.
Proof.
  unfold ranks_one_of, ranks_remaining.
  split; intros (r & k & Hr & Hk & H); exists r, k; repeat split; auto.
  - apply in_race_In. apply in_map_iff in H.
    destruct H as (opt & <- & Ho). eauto.
  - apply in_race_In in H. destruct H as (opt & Ho & <-). now apply in_map.
Qed.

(** The counter of an option in the race is the number of ballots whose
    first ranking still in the race is that option. *)
Lemma count_votes_first_choice rem nbs k :
  in_race rem k = true ->
  obj_get k (count_votes rem nbs)
  = Some (length (filter (chooses rem k) nbs)).
Proof.
  intros Hk. unfold count_votes.
  assert (G : forall nbs vc c0,
             obj_get k vc = Some c0 ->
             obj_get k (fold_left (count_ballot rem) nbs vc)
             = Some (c0 + length (filter (chooses rem k) nbs))).
  { clear nbs. induction nbs as [|b nbs IH]; intros vc c0 H0; simpl.
    - now rewrite Nat.add_0_r.
    - unfold count_ballot at 2. unfold chooses at 1.
      destruct (first_valid_choice rem (nb_rankings b)) as [k'|]; [|auto].
      destruct (Z.eqb_spec k' k) as [->|Hne]; simpl.
      + rewrite (IH _ (S c0)); [f_equal; lia|].
        now apply obj_get_incr_same.
      + apply IH. now rewrite obj_get_incr_other. }
  destruct (init_voteCounts_spec rem) as (_ & Hkeys & Hz).
  destruct (obj_get k (init_voteCounts rem)) as [c0|] eqn:E.
  - rewrite (G nbs _ c0 E). apply obj_get_In, Hz in E. simpl in E.
    now subst.
  - apply obj_get_None in E. exfalso. apply E. now apply Hkeys.
Qed.

(** ** Uniqueness of the majority winner *)

Lemma twice_threshold (n : nat) : n < 2 * threshold_of n.
Proof.
  unfold threshold_of.
  pose proof (Nat.div_mod_eq n 2). pose proof (Nat.mod_upper_bound n 2). lia.
Qed.

Lemma count_votes_majority_unique rem nbs k1 k2 c1 c2 :
  obj_get k1 (count_votes rem nbs) = Some c1 ->
  obj_get k2 (count_votes rem nbs) = Some c2 ->
  threshold_of (length nbs) <= c1 ->
  threshold_of (length nbs) <= c2 ->
  k1 = k2.
Proof.
  intros H1 H2 L1 L2. destruct (Z.eq_dec k1 k2) as [|Hne]; [assumption|].
  pose proof (list_sum_pair _ _ _ _ _ Hne H1 H2) as Hs.
  rewrite count_votes_sum in Hs.
  pose proof (filter_length_le (has_choice rem) nbs).
  pose proof (twice_threshold (length nbs)). lia.
Qed.

Lemma NoDup_map_inj {A B} (f : A -> B) (l : list A) (a b : A) :
  NoDup (map f l) -> In a l -> In b l -> f a = f b -> a = b.
Proof.
  induction l as [|x l IH]; simpl; [tauto|].
  intros Hnd Ha Hb E. inversion Hnd as [|? ? Hx Hl]; subst.
  destruct Ha as [->|Ha]; destruct Hb as [->|Hb]; auto.
  - exfalso. apply Hx. rewrite E. now apply in_map.
  - exfalso. apply Hx. rewrite <- E. now apply in_map.
Qed.

(** A first-match scan for a property that at most one element has finds
    the same element in whatever order the list is scanned. *)
Lemma find_unique_perm {A} (P : A -> bool) (l l' : list A) :
  (forall a b, In a l -> In b l -> P a = true -> P b = true -> a = b) ->
  Permutation l l' -> find P l' = find P l.
Proof.
  intros Huniq Hp.
  destruct (find P l) as [x|] eqn:E; destruct (find P l') as [y|] eqn:E';
    auto.
  - apply find_some in E, E'. destruct E as [Hx Px], E' as [Hy Py].
    f_equal. apply Huniq; auto.
    apply (Permutation_in _ (Permutation_sym Hp)). assumption.
  - apply find_some in E. destruct E as [Hx Px].
    pose proof (find_none _ _ E' x (Permutation_in _ Hp Hx)). congruence.
  - apply find_some in E'. destruct E' as [Hy Py].
    pose proof (find_none _ _ E y
                  (Permutation_in _ (Permutation_sym Hp) Hy)). congruence.
Qed.

Lemma has_majority_count vc t opt :
  has_majority vc t opt = true ->
  exists c, obj_get (opt_id opt) vc = Some c /\ t <= c.
Proof.
  unfold has_majority, ge_opt.
  destruct (obj_get (opt_id opt) vc) as [c|]; [|discriminate].
  intros H. exists c. split; [reflexivity|]. now apply Nat.leb_le.
Qed.

(** C10. In every round recorded by either copy at most one id has a
    count of at least [majorityThreshold] (two such counts would add up to
    more than [totalVotes]); with distinct option ids at most one option
    of the round passes the majority test, and the first-match scan
    [find] returns the same option in whatever order the round's options
    are scanned. *)
Theorem majority_winner_unique
    (options : list PollOption) (ballots : list Ballot) (res : Result)
    (rd : Round) :
  tally_returns options ballots res ->
  In rd (res_rounds res) ->
  let t := threshold_of (length ballots) in
  (forall k1 k2 c1 c2,
      count_in rd k1 = Some c1 -> count_in rd k2 = Some c2 ->
      t <= c1 -> t <= c2 -> k1 = k2)
  /\ exists rem,
       kept_from options rem
       /\ rd_remaining rd = map opt_id rem
       /\ (NoDup (map opt_id options) ->
           (forall a b, In a rem -> In b rem ->
                        has_majority (rd_voteCounts rd) t a = true ->
                        has_majority (rd_voteCounts rd) t b = true ->
                        a = b)
           /\ forall rem', Permutation rem rem' ->
                find (has_majority (rd_voteCounts rd) t) rem'
                = find (has_majority (rd_voteCounts rd) t) rem).
Proof.
  intros Hr Hin t.
  destruct (tally_rounds_sound _ _ _ _ Hr Hin) as (_ & _ & Hs).
  destruct Hs as [(rem & Hk & Hvc & Hrem & _) _].
  assert (Hn : length (normalizedBallots ballots) = length ballots).
  { unfold normalizedBallots. apply length_map. }
  assert (U : forall k1 k2 c1 c2,
             count_in rd k1 = Some c1 -> count_in rd k2 = Some c2 ->
             t <= c1 -> t <= c2 -> k1 = k2).
  { unfold count_in, t. rewrite Hvc, <- Hn.
    intros. eapply count_votes_majority_unique; eauto. }
  split; [exact U|].
  exists rem. split; [assumption|]. split; [assumption|].
  intros Hnd.
  assert (Uo : forall a b, In a rem -> In b rem ->
                 has_majority (rd_voteCounts rd) t a = true ->
                 has_majority (rd_voteCounts rd) t b = true -> a = b).
  { intros a b Ha Hb Pa Pb.
    apply has_majority_count in Pa, Pb.
    destruct Pa as (ca & Ga & La), Pb as (cb & Gb & Lb).
    apply (NoDup_map_inj opt_id rem); auto.
    - now apply (kept_from_NoDup options).
    - exact (U _ _ _ _ Ga Gb La Lb). }
  split; [exact Uo|].
  intros rem' Hp. now apply find_unique_perm.
Qed.

Lemma majority_winner_unique_witness :
  tally_returns [optA; optB; optC] ballots_B result_B
  /\ NoDup (map opt_id [optA; optB; optC])
  /\ exists rd,
       In rd (res_rounds result_B)
       /\ rd_majorityWinner rd = Some 1%Z
       /\ count_in rd 1 = Some 3
       /\ 3 <= 3
       /\ (forall k c, count_in rd k = Some c -> 3 <= c -> k = 1%Z)
       /\ exists rem,
            rd_remaining rd = map opt_id rem
            /\ In optA rem
            /\ has_majority (rd_voteCounts rd) 3 optA = true
            /\ (forall b, In b rem ->
                          has_majority (rd_voteCounts rd) 3 b = true ->
                          b = optA)
            /\ forall rem', Permutation rem rem' ->
                 find (has_majority (rd_voteCounts rd) 3) rem'
                 = find (has_majority (rd_voteCounts rd) 3) rem.
Proof.
  assert (Hr : tally_returns [optA; optB; optC] ballots_B result_B).
  { left. vm_compute. reflexivity. }
  assert (Hnd : NoDup (map opt_id [optA; optB; optC])).
  { simpl. repeat constructor; simpl; intuition discriminate. }
  split; [exact Hr|]. split; [exact Hnd|].
  eexists. split; [left; reflexivity|].
  split; [reflexivity|]. split; [reflexivity|]. split; [lia|].
  destruct (majority_winner_unique _ _ _ _ Hr (or_introl eq_refl))
    as (U & rem & Hk & Hrem & Hs).
  destruct (Hs Hnd) as [Uo Hf].
  assert (Ha : In optA rem).
  { destruct Hk as [keep ->].
    destruct (keep optA) eqn:Ea; [simpl; rewrite Ea; now left|].
    simpl in Hrem. rewrite Ea in Hrem.
    destruct (keep optB), (keep optC); discriminate Hrem. }
  split; [intros k c Hc Hle; exact (U k 1%Z c 3 Hc eq_refl Hle (le_n 3))|].
  exists rem. split; [exact Hrem|]. split; [exact Ha|].
  split; [reflexivity|]. split; [|exact Hf].
  intros b Hb Pb. exact (Uo b optA Hb Ha Pb eq_refl).
Defined.

(** ** Order of the input rows *)

Lemma count_ballot_comm rem vc b1 b2 :
  count_ballot rem (count_ballot rem vc b1) b2
  = count_ballot rem (count_ballot rem vc b2) b1.
Proof.
  unfold count_ballot.
  destruct (first_valid_choice rem (nb_rankings b1)) as [k1|];
    destruct (first_valid_choice rem (nb_rankings b2)) as [k2|];
    try reflexivity.
  apply obj_incr_comm.
Qed.

Lemma fold_left_perm {A B} (f : A -> B -> A) (l l' : list B) :
  (forall a x y, f (f a x) y = f (f a y) x) ->
  Permutation l l' -> forall a, fold_left f l a = fold_left f l' a.
Proof.
  intros Hc. induction 1 as [|x l l' _ IH|x y l|l l' l'' _ IH1 _ IH2];
    intros a; simpl.
  - reflexivity.
  - apply IH.
  - now rewrite Hc.
  - now rewrite IH1.
Qed.

(** The counters of a round do not depend on the order of the ballots. *)
Lemma count_votes_perm rem nbs nbs' :
  Permutation nbs nbs' -> count_votes rem nbs = count_votes rem nbs'.
Proof.
  intros Hp. unfold count_votes. apply fold_left_perm; [|assumption].
  intros. apply count_ballot_comm.
Qed.

Lemma while_loop_ext body body' fin fuel rounds rem :
  (forall rounds rem, body rounds rem = body' rounds rem) ->
  while_loop body fin fuel rounds rem = while_loop body' fin fuel rounds rem.
Proof.
  intros Hb. revert rounds rem.
  induction fuel as [|fuel IH]; intros rounds rem; simpl; [reflexivity|].
  rewrite Hb. destruct (length rem <=? 1); [reflexivity|].
  destruct (body' rounds rem); auto.
Qed.

Lemma BackendIrv_body_perm nbs nbs' tv t rounds rem :
  Permutation nbs nbs' ->
  BackendIrv.body nbs tv t rounds rem = BackendIrv.body nbs' tv t rounds rem.
Proof.
  intros Hp. unfold BackendIrv.body.
  now rewrite (count_votes_perm rem nbs nbs' Hp).
Qed.

Lemma Part007_body_perm nbs nbs' tv t rounds rem :
  Permutation nbs nbs' ->
  Part007.body nbs tv t rounds rem = Part007.body nbs' tv t rounds rem.
Proof.
  intros Hp. unfold Part007.body.
  now rewrite (count_votes_perm rem nbs nbs' Hp).
Qed.

(** For one and the same list of options, the result of either copy does
    not depend on the order of the ballots. *)
Lemma calculateIRV_ballot_perm
    (options : list PollOption) (ballots ballots' : list Ballot) :
  Permutation ballots ballots' ->
  BackendIrv.calculateIRV options ballots
  = BackendIrv.calculateIRV options ballots'
  /\ Part007.calculateIRV options ballots
     = Part007.calculateIRV options ballots'.
Proof.
  intros Hp.
  assert (Hn : Permutation (normalizedBallots ballots)
                           (normalizedBallots ballots')).
  { unfold normalizedBallots. now apply Permutation_map. }
  assert (Hl : length (normalizedBallots ballots)
               = length (normalizedBallots ballots')).
  { now apply Permutation_length. }
  unfold BackendIrv.calculateIRV, Part007.calculateIRV.
  destruct options as [|o os]; [split; reflexivity|].
  destruct ballots as [|b bs].
  { apply Permutation_nil in Hp. subst. split; reflexivity. }
  destruct ballots' as [|b' bs'].
  { apply Permutation_sym, Permutation_nil in Hp. discriminate. }
  cbv zeta. rewrite Hl. split; apply while_loop_ext; intros.
  - now apply BackendIrv_body_perm.
  - now apply Part007_body_perm.
Qed.

(** C8, as stated, fails: with the two options of scenario D given in the
    other order, the round's [remaining] list and [tiedOptions] come out in
    the other order as well; and with the three options of scenario C
    given in the other order, so does the round's [eliminatedMultiple]. *)
Lemma option_order_matters :
  ~ (forall options options' ballots ballots',
        Permutation options options' -> Permutation ballots ballots' ->
        BackendIrv.calculateIRV options ballots
        = BackendIrv.calculateIRV options' ballots')
  /\ ~ (forall options options' ballots ballots',
           Permutation options options' -> Permutation ballots ballots' ->
           Part007.calculateIRV options ballots
           = Part007.calculateIRV options' ballots')
  /\ Forall (fun calculateIRV =>
               map rd_remaining
                   (res_rounds (returned (calculateIRV [optA; optB])))
               = [[1; 2]%Z]
               /\ map rd_remaining
                      (res_rounds (returned (calculateIRV [optB; optA])))
                  = [[2; 1]%Z]
               /\ res_tiedOptions (returned (calculateIRV [optA; optB]))
                  = Some [optA; optB]
               /\ res_tiedOptions (returned (calculateIRV [optB; optA]))
                  = Some [optB; optA])
            [fun options => BackendIrv.calculateIRV options ballots_D;
             fun options => Part007.calculateIRV options ballots_D]
  /\ Forall (fun calculateIRV =>
               map rd_eliminatedMultiple
                   (res_rounds (returned (calculateIRV [optA; optB; optC])))
               = [Some [optB; optC]]
               /\ map rd_eliminatedMultiple
                      (res_rounds
                         (returned (calculateIRV [optC; optB; optA])))
                  = [Some [optC; optB]])
            [fun options => BackendIrv.calculateIRV options ballots_C;
             fun options => Part007.calculateIRV options ballots_C].
Proof.
  split; [|split; [|split]].
  - intros H.
    specialize (H [optA; optB] [optB; optA] ballots_D ballots_D
                  (perm_swap _ _ _) (Permutation_refl _)).
    vm_compute in H. discriminate H.
  - intros H.
    specialize (H [optA; optB] [optB; optA] ballots_D ballots_D
                  (perm_swap _ _ _) (Permutation_refl _)).
    vm_compute in H. discriminate H.
  - repeat constructor; vm_compute; reflexivity.
  - repeat constructor; vm_compute; reflexivity.
Qed.

(** ** Normalisation of the rankings *)

Section SortFacts.

Variable R : RawRanking -> RawRanking -> Prop.
Hypothesis R_rank : forall r r', R r r' -> rank r = rank r'.

Lemma insert_by_rank_Forall2 r r' l l' :
  R r r' -> Forall2 R l l' ->
  Forall2 R (insert_by_rank r l) (insert_by_rank r' l').
Proof.
  intros Hr Hl. induction Hl as [|x x' l l' Hx Hl IH]; simpl.
  - constructor; [assumption|constructor].
  - rewrite <- (R_rank _ _ Hr), <- (R_rank _ _ Hx).
    destruct (rank r <=? rank x)%Z; constructor; auto.
Qed.

Lemma sort_by_rank_Forall2 l l' :
  Forall2 R l l' -> Forall2 R (sort_by_rank l) (sort_by_rank l').
Proof.
  induction 1 as [|x x' l l' Hx Hl IH]; simpl; [constructor|].
  now apply insert_by_rank_Forall2.
Qed.

End SortFacts.

Lemma insert_by_rank_Sorted r l :
  Sorted raw_rank_le l -> Sorted raw_rank_le (insert_by_rank r l).
Proof.
  induction 1 as [|x l Hs IH Hd]; simpl.
  - repeat constructor.
  - destruct (Z.leb_spec (rank r) (rank x)) as [Hle|Hgt].
    + constructor; [now constructor|]. now constructor.
    + constructor; [assumption|].
      destruct l as [|y l]; simpl.
      * constructor. unfold raw_rank_le. lia.
      * destruct (Z.leb_spec (rank r) (rank y)).
        -- constructor. unfold raw_rank_le. lia.
        -- constructor. now inversion Hd.
Qed.

Lemma sort_by_rank_Sorted rs : Sorted raw_rank_le (sort_by_rank rs).
Proof.
  induction rs as [|r rs IH]; simpl; [constructor|].
  now apply insert_by_rank_Sorted.
Qed.

Lemma normalize_Sorted rs :
  Sorted raw_rank_le rs -> Sorted rank_le (map normalize_ranking rs).
Proof.
  induction 1 as [|x l Hs IH Hd]; simpl; constructor; auto.
  destruct Hd; simpl; constructor. assumption.
Qed.

(** The sort keeps every ranking of the ballot. *)
Lemma insert_by_rank_perm r l : Permutation (insert_by_rank r l) (r :: l).
Proof.
  induction l as [|x l IH]; simpl; [reflexivity|].
  destruct (rank r <=? rank x)%Z; [reflexivity|].
  rewrite IH. apply perm_swap.
Qed.

Lemma sort_by_rank_perm rs : Permutation (sort_by_rank rs) rs.
Proof.
  induction rs as [|r rs IH]; simpl; [reflexivity|].
  rewrite insert_by_rank_perm. now constructor.
Qed.

(** A ranking and its other representation resolve to the same id, as
    long as the id is not 0. *)
Lemma rerepresented_normalize r r' :
  rerepresented r r' -> nonzero_ranking r ->
  normalize_ranking r = normalize_ranking r'.
Proof.
  intros Hr [Hd Hn]. destruct Hr as [r|k t rk|k t rk]; [reflexivity| |].
  - unfold normalize_ranking, resolve_id. simpl in *.
    destruct (Z.eqb_spec k 0) as [->|_]; [congruence|reflexivity].
  - unfold normalize_ranking, resolve_id. simpl in *.
    destruct (Z.eqb_spec k 0) as [->|_]; [|reflexivity].
    exfalso. now apply (Hn _ eq_refl).
Qed.

Lemma same_ballot_normalize b b' :
  same_ballot b b' -> nonzero_ids b ->
  normalize_ballot b = normalize_ballot b'.
Proof.
  intros [Hid Hr] Hnz. unfold normalize_ballot. rewrite Hid. f_equal.
  assert (H2 : Forall2 (fun r r' => rerepresented r r' /\ nonzero_ranking r)
                       (rankings b) (rankings b')).
  { unfold nonzero_ids in Hnz. revert Hnz.
    induction Hr as [|x x' l l' Hx Hl IH]; intros Hnz; constructor.
    - split; [assumption|]. apply Hnz. now left.
    - apply IH. intros r Hin. apply Hnz. now right. }
  apply sort_by_rank_Forall2 in H2.
  - induction H2 as [|x x' l l' [Hx Hn] Hl IH]; simpl; [reflexivity|].
    now rewrite IH, (rerepresented_normalize x x').
  - intros r r' [H _]. destruct H; reflexivity.
Qed.

(** X24. Replacing, in any ballots, rankings that name their option by a
    bare [pollOptionId] with rankings that name it by a nested
    [pollOption] of the same id, or the other way round, leaves the
    normalised ballots and therefore the result of either copy unchanged,
    provided no ranking refers to the id 0; the normalised rankings of
    every ballot are in ascending order of rank. *)
Theorem representation_round_trip
    (options : list PollOption) (ballots ballots' : list Ballot) :
  Forall2 same_ballot ballots ballots' ->
  Forall nonzero_ids ballots ->
  normalizedBallots ballots = normalizedBallots ballots'
  /\ Forall (fun nb => Sorted rank_le (nb_rankings nb))
            (normalizedBallots ballots)
  /\ BackendIrv.calculateIRV options ballots
     = BackendIrv.calculateIRV options ballots'
  /\ Part007.calculateIRV options ballots
     = Part007.calculateIRV options ballots'.
Proof.
  intros Hs Hnz.
  assert (Hn : normalizedBallots ballots = normalizedBallots ballots').
  { unfold normalizedBallots.
    induction Hs as [|b b' l l' Hb Hl IH]; simpl; [reflexivity|].
    inversion Hnz; subst. rewrite IH by assumption.
    now rewrite (same_ballot_normalize b b'). }
  split; [exact Hn|]. split.
  - unfold normalizedBallots. apply Forall_map, Forall_forall.
    intros b _. simpl. apply normalize_Sorted, sort_by_rank_Sorted.
  - unfold BackendIrv.calculateIRV, Part007.calculateIRV.
    destruct options as [|o os]; [split; reflexivity|].
    destruct Hs as [|b b' l l' Hb Hl]; [split; reflexivity|].
    cbv zeta. rewrite Hn. split; reflexivity.
Qed.

Lemma representation_round_trip_witness :
  Forall2 same_ballot
    [{| ballot_id := 1; rankings := [direct 1 1; direct 2 2] |}]
    [{| ballot_id := 1;
        rankings := [nested 1 "Option A" 1; nested 2 "Option B" 2] |}]
  /\ Part007.calculateIRV [optA; optB]
       [{| ballot_id := 1; rankings := [direct 1 1; direct 2 2] |}]
     = Part007.calculateIRV [optA; optB]
         [{| ballot_id := 1;
             rankings := [nested 1 "Option A" 1; nested 2 "Option B" 2] |}].
Proof.
  assert (H : Forall2 same_ballot
    [{| ballot_id := 1; rankings := [direct 1 1; direct 2 2] |}]
    [{| ballot_id := 1;
        rankings := [nested 1 "Option A" 1; nested 2 "Option B" 2] |}]).
  { repeat constructor. }
  split; [exact H|].
  apply (representation_round_trip [optA; optB] _ _ H).
  constructor; [|constructor].
  intros r [<-|[<-|[]]]; (split; [discriminate|intros o Ho; discriminate Ho]).
Defined.

(** C9. The round trip fails for the id 0.  A ranking that names the
    option of id 0 by a nested [pollOption] is resolved to its absent
    [pollOptionId], because [r.pollOption?.id || r.pollOptionId] takes
    the id 0 for a missing one: in both copies the first choice of the
    ballot is lost and the other option wins, where the same ballot with
    a bare [pollOptionId] of 0 elects the option of id 0, and where the
    component's own tally, which reads [r.pollOption.id], elects it from
    the nested form as well. *)
Theorem nested_zero_id_dropped :
  Forall2 same_ballot ballots_zero_bare ballots_zero_nested
  /\ res_winner
       (returned (BackendIrv.calculateIRV [optZero; optA] ballots_zero_bare))
     = Some optZero
  /\ res_winner
       (returned (BackendIrv.calculateIRV [optZero; optA] ballots_zero_nested))
     = Some optA
  /\ res_winner
       (returned (Part007.calculateIRV [optZero; optA] ballots_zero_bare))
     = Some optZero
  /\ res_winner
       (returned (Part007.calculateIRV [optZero; optA] ballots_zero_nested))
     = Some optA
  /\ BackendIrv.calculateIRV [optZero; optA] ballots_zero_bare
     <> BackendIrv.calculateIRV [optZero; optA] ballots_zero_nested
  /\ Part007.calculateIRV [optZero; optA] ballots_zero_bare
     <> Part007.calculateIRV [optZero; optA] ballots_zero_nested
  /\ res_winner
       (returned
          (BackendIrv.calculateIRV [optZero; optA] ballots_zero_all_nested))
     = Some optA
  /\ res_winner
       (returned
          (Part007.calculateIRV [optZero; optA] ballots_zero_all_nested))
     = Some optA
  /\ exists res,
       calculateResults [optZero; optA] ballots_zero_all_nested
       = ReturnedResults res
       /\ res_winner res = Some optZero.
Proof.
  split; [repeat constructor|].
  repeat split; try (vm_compute; reflexivity);
    try (intros H; vm_compute in H; discriminate H).
  eexists. split; vm_compute; reflexivity.
Qed.

(** ** Unfolding the loop one pass at a time *)

Section WhileSteps.

Variable body : list Round -> list PollOption -> pass.
Variable fin : list Round -> option PollOption -> Result.

Lemma while_loop_exit fuel rounds rem :
  length rem <= 1 ->
  while_loop body fin fuel rounds rem = Returned (fin rounds (hd_error rem)).
Proof.
  intros H. destruct fuel; simpl;
    destruct (Nat.leb_spec (length rem) 1); auto; lia.
Qed.

Lemma while_loop_continue fuel rounds rem rounds' rem' :
  1 < length rem -> body rounds rem = Continue rounds' rem' ->
  while_loop body fin (S fuel) rounds rem
  = while_loop body fin fuel rounds' rem'.
Proof.
  intros H Hb. simpl. destruct (Nat.leb_spec (length rem) 1); [lia|].
  now rewrite Hb.
Qed.

Lemma while_loop_return fuel rounds rem res :
  1 < length rem -> body rounds rem = Return res ->
  while_loop body fin (S fuel) rounds rem = Returned res.
Proof.
  intros H Hb. simpl. destruct (Nat.leb_spec (length rem) 1); [lia|].
  now rewrite Hb.
Qed.

End WhileSteps.

(** ** Scenario C: one option ahead, two tied for last place *)

Section ScenarioC.

Variables a b c : PollOption.
Variable nbs : list NBallot.

Let voteCounts := count_votes [a; b; c] nbs.

Hypothesis distinct : NoDup (map opt_id [a; b; c]).
Hypothesis count_a : obj_get (opt_id a) voteCounts = Some 2.
Hypothesis count_b : obj_get (opt_id b) voteCounts = Some 1.
Hypothesis count_c : obj_get (opt_id c) voteCounts = Some 1.

Lemma scenario_C_ids :
  (opt_id a =? opt_id b)%Z = false /\ (opt_id a =? opt_id c)%Z = false
  /\ (opt_id b =? opt_id a)%Z = false /\ (opt_id c =? opt_id a)%Z = false.
Proof.
  simpl in distinct.
  inversion distinct as [|? ? Ha _]; subst. simpl in Ha.
  repeat split; apply Z.eqb_neq; intros E; apply Ha; auto.
Qed.

Lemma scenario_C_min : Math_min (Object_values voteCounts) = Some 1.
Proof.
  destruct (minVotes_attained nbs [a; b; c]) as (m & opt & Hm & Hopt & Hle);
    [simpl; lia|].
  fold voteCounts in Hm, Hopt, Hle. rewrite Hm. f_equal.
  assert (m <= 1).
  { apply Hle. now apply (option_voteValues nbs [a; b; c] b). }
  apply filter_In in Hopt. destruct Hopt as [Hin Hmin].
  unfold has_min in Hmin. rewrite Hm in Hmin.
  destruct Hin as [<-|[<-|[<-|[]]]].
  - rewrite count_a in Hmin. unfold strict_eq_min in Hmin.
    apply Nat.eqb_eq in Hmin. lia.
  - rewrite count_b in Hmin. unfold strict_eq_min in Hmin.
    now apply Nat.eqb_eq in Hmin.
  - rewrite count_c in Hmin. unfold strict_eq_min in Hmin.
    now apply Nat.eqb_eq in Hmin.
Qed.

Lemma scenario_C_not_all_same :
  all_same (Object_values voteCounts) (Some 1) = false.
Proof.
  destruct (all_same _ _) eqn:E; [|reflexivity].
  unfold all_same in E. rewrite forallb_forall in E.
  specialize (E 2 (option_voteValues nbs [a; b; c] a 2 count_a)).
  discriminate E.
Qed.

Lemma scenario_C_no_majority :
  find (has_majority voteCounts 3) [a; b; c] = None.
Proof.
  simpl. unfold has_majority. now rewrite count_a, count_b, count_c.
Qed.

Lemma scenario_C_last_place :
  filter (has_min voteCounts (Some 1)) [a; b; c] = [b; c].
Proof.
  simpl. unfold has_min. now rewrite count_a, count_b, count_c.
Qed.

Lemma scenario_C_survivor :
  remove_ids (map opt_id [b; c]) [a; b; c] = [a].
Proof.
  destruct scenario_C_ids as (Hab & Hac & Hba & Hca).
  unfold remove_ids, includes. simpl.
  now rewrite Hba, Hca, !Z.eqb_refl, !orb_true_r.
Qed.

Lemma BackendIrv_scenario_C tv :
  BackendIrv.body nbs tv 3 [] [a; b; c]
  = Continue (scenario_C_round a b c nbs tv) [a].
Proof.
  unfold BackendIrv.body. fold voteCounts.
  rewrite scenario_C_no_majority, scenario_C_min, scenario_C_not_all_same.
  rewrite scenario_C_last_place, scenario_C_survivor. reflexivity.
Qed.

Lemma Part007_scenario_C tv :
  Part007.body nbs tv 3 [] [a; b; c]
  = Continue (scenario_C_round a b c nbs tv) [a].
Proof.
  unfold Part007.body. fold voteCounts.
  change (2 <? length [a; b; c]) with true. cbv iota.
  rewrite scenario_C_no_majority.
  change (length [a; b; c] =? 2) with false. cbv iota.
  rewrite scenario_C_min, scenario_C_not_all_same.
  rewrite scenario_C_last_place, scenario_C_survivor. reflexivity.
Qed.

End ScenarioC.

(** C3, as amended. For three options [a], [b], [c] with distinct ids and
    four ballots whose first-choice counts are [a]: 2, [b]: 1, [c]: 1,
    both copies return one round only: round 1 counts those votes,
    records no single [eliminated] option and an [eliminatedMultiple] of
    length 2 holding [b] and [c]; no further round is appended for the
    state in which only [a] is left, and the winner is [a]. *)
Theorem scenario_C_single_round
    (a b c : PollOption) (ballots : list Ballot) :
  NoDup (map opt_id [a; b; c]) ->
  length ballots = 4 ->
  let voteCounts := count_votes [a; b; c] (normalizedBallots ballots) in
  obj_get (opt_id a) voteCounts = Some 2 ->
  obj_get (opt_id b) voteCounts = Some 1 ->
  obj_get (opt_id c) voteCounts = Some 1 ->
  let res :=
    finish 4 3 (scenario_C_round a b c (normalizedBallots ballots) 4)
           (Some a) in
  BackendIrv.calculateIRV [a; b; c] ballots = Returned res
  /\ Part007.calculateIRV [a; b; c] ballots = Returned res
  /\ length (res_rounds res) = 1
  /\ (forall rd, In rd (res_rounds res) ->
                 rd_round rd = 1
                 /\ rd_voteCounts rd = voteCounts
                 /\ rd_remaining rd = map opt_id [a; b; c]
                 /\ rd_eliminated rd = None
                 /\ rd_eliminatedMultiple rd = Some [b; c]
                 /\ rd_majorityWinner rd = None
                 /\ rd_tie rd = false)
  /\ res_winner res = Some a.
Proof.
  intros Hnd Hlen voteCounts Ha Hb Hc res.
  assert (Hn : length (normalizedBallots ballots) = 4).
  { unfold normalizedBallots. now rewrite length_map. }
  split; [|split]; [| |split; [reflexivity|split; [|reflexivity]]].
  - unfold BackendIrv.calculateIRV.
    destruct ballots as [|b0 bs]; [discriminate|].
    cbv zeta. rewrite Hn, copy_options_id.
    change (threshold_of 4) with 3. change (length [a; b; c]) with 3.
    rewrite (while_loop_continue _ _ _ [] [a; b; c]
               (scenario_C_round a b c (normalizedBallots (b0 :: bs)) 4) [a]).
    + apply while_loop_exit. simpl. lia.
    + simpl. lia.
    + now apply BackendIrv_scenario_C.
  - unfold Part007.calculateIRV.
    destruct ballots as [|b0 bs]; [discriminate|].
    cbv zeta. rewrite Hn, copy_options_id.
    change (threshold_of 4) with 3. change (length [a; b; c]) with 3.
    rewrite (while_loop_continue _ _ _ [] [a; b; c]
               (scenario_C_round a b c (normalizedBallots (b0 :: bs)) 4) [a]).
    + apply while_loop_exit. simpl. lia.
    + simpl. lia.
    + now apply Part007_scenario_C.
  - intros rd [<-|[]]. repeat split.
Qed.

Lemma scenario_C_single_round_witness :
  NoDup (map opt_id [optA; optB; optC])
  /\ length ballots_C = 4
  /\ BackendIrv.calculateIRV [optA; optB; optC] ballots_C
     = Returned
         (finish 4 3
            (scenario_C_round optA optB optC (normalizedBallots ballots_C) 4)
            (Some optA))
  /\ Part007.calculateIRV [optA; optB; optC] ballots_C
     = Returned
         (finish 4 3
            (scenario_C_round optA optB optC (normalizedBallots ballots_C) 4)
            (Some optA)).
Proof.
  assert (Hnd : NoDup (map opt_id [optA; optB; optC])).
  { simpl. repeat constructor; simpl; intuition discriminate. }
  split; [exact Hnd|]. split; [reflexivity|].
  destruct (scenario_C_single_round optA optB optC ballots_C Hnd eq_refl
              eq_refl eq_refl eq_refl) as (H1 & H2 & _).
  split; [exact H1|exact H2].
Defined.

(** C3, as stated, fails on the test's own input: the first-choice counts
    are 1: 2, 2: 1, 3: 1, options 2 and 3 leave together in round 1 and
    option 1 wins, but the result of either copy has one round; there is
    no round 2 in which only option 1 remains. *)
Lemma scenario_C_no_second_round :
  (exists res rd,
      BackendIrv.calculateIRV [optA; optB; optC] ballots_C = Returned res
      /\ res_rounds res = [rd]
      /\ rd_voteCounts rd = [(1%Z, 2); (2%Z, 1); (3%Z, 1)]
      /\ rd_eliminatedMultiple rd = Some [optB; optC]
      /\ res_winner res = Some optA
      /\ nth_error (res_rounds res) 1 = None)
  /\ (exists res rd,
         Part007.calculateIRV [optA; optB; optC] ballots_C = Returned res
         /\ res_rounds res = [rd]
         /\ rd_voteCounts rd = [(1%Z, 2); (2%Z, 1); (3%Z, 1)]
         /\ rd_eliminatedMultiple rd = Some [optB; optC]
         /\ res_winner res = Some optA
         /\ nth_error (res_rounds res) 1 = None).
Proof.
  split; eexists; eexists; (split; [vm_compute; reflexivity|]);
    repeat split.
Qed.

(** ** What [src/unnamed/part_007] does with two options and with a
       complete tie *)

Lemma find_all_false {A} (f : A -> bool) (l : list A) :
  (forall x, In x l -> f x = false) -> find f l = None.
Proof.
  induction l as [|y l IH]; simpl; [reflexivity|].
  intros H. rewrite (H y (or_introl eq_refl)). auto.
Qed.

Lemma filter_all_true {A} (f : A -> bool) (l : list A) :
  (forall x, In x l -> f x = true) -> filter f l = l.
Proof.
  induction l as [|y l IH]; simpl; [reflexivity|].
  intros H. rewrite (H y (or_introl eq_refl)). f_equal. auto.
Qed.

Lemma remove_one_id (l : list PollOption) (x : PollOption) :
  NoDup (map opt_id l) -> In x l ->
  S (length (filter (fun o => negb (opt_id o =? opt_id x)%Z) l)) = length l.
Proof.
  induction l as [|y l IH]; simpl; [tauto|].
  intros Hnd Hin. inversion Hnd as [|? ? Hy Hl]; subst.
  destruct (Z.eqb_spec (opt_id y) (opt_id x)) as [E|E]; simpl.
  - f_equal. f_equal. apply filter_all_true. intros o Ho.
    apply negb_true_iff, Z.eqb_neq. intros E'. apply Hy.
    rewrite E, <- E'. now apply in_map.
  - f_equal. destruct Hin as [->|Hin]; [congruence|]. auto.
Qed.

Section Part007Rounds.

Variable nbs : list NBallot.
Variable totalVotes majorityThreshold : nat.
Variable rounds : list Round.

(** A round with two options of different counts: the one with fewer
    votes is recorded as eliminated, the other one is returned as the
    winner, no majority winner is recorded, and the call returns with this
    round as its last. *)
Lemma Part007_two_option_round (a b : PollOption) (ca cb : nat) :
  let voteCounts := count_votes [a; b] nbs in
  opt_id a <> opt_id b ->
  obj_get (opt_id a) voteCounts = Some ca ->
  obj_get (opt_id b) voteCounts = Some cb ->
  ca <> cb ->
  Part007.body nbs totalVotes majorityThreshold rounds [a; b]
  = Return
      (finish totalVotes majorityThreshold
         (push_round rounds voteCounts
            (compute_percentages totalVotes [a; b] voteCounts) [a; b]
            (Some (if ca <? cb then a else b)) None None false)
         (Some (if ca <? cb then b else a))).
Proof.
  intros voteCounts Hid Ha Hb Hne.
  unfold Part007.body. fold voteCounts.
  change (2 <? length [a; b]) with false.
  change (length [a; b] =? 2) with true. cbv iota.
  assert (Htie : strict_eq_opt (nth_error (Object_values voteCounts) 0)
                               (nth_error (Object_values voteCounts) 1)
                 = false).
  { destruct (strict_eq_opt _ _) eqn:E; [|reflexivity].
    destruct (two_values_equal nbs [a; b] eq_refl E) as (c & Hc).
    fold voteCounts in Hc.
    pose proof (Hc a (or_introl eq_refl)) as H1.
    pose proof (Hc b (or_intror (or_introl eq_refl))) as H2. congruence. }
  rewrite Htie.
  assert (Hmin : Math_min (Object_values voteCounts) = Some (Nat.min ca cb)).
  { destruct (minVotes_attained nbs [a; b]) as (m & opt & Hm & Hopt & Hle);
      [simpl; lia|].
    fold voteCounts in Hm, Hopt, Hle. rewrite Hm. f_equal.
    pose proof (Hle ca (option_voteValues nbs [a; b] a ca Ha)).
    pose proof (Hle cb (option_voteValues nbs [a; b] b cb Hb)).
    apply filter_In in Hopt. destruct Hopt as [Hin Hmin].
    unfold has_min in Hmin. rewrite Hm in Hmin.
    destruct Hin as [<-|[<-|[]]].
    - rewrite Ha in Hmin. unfold strict_eq_min in Hmin.
      apply Nat.eqb_eq in Hmin. lia.
    - rewrite Hb in Hmin. unfold strict_eq_min in Hmin.
      apply Nat.eqb_eq in Hmin. lia. }
  rewrite Hmin. simpl find. unfold has_min. rewrite Ha, Hb.
  unfold strict_eq_min.
  destruct (Nat.ltb_spec ca cb) as [Hlt|Hge].
  - rewrite Nat.min_l by lia. rewrite Nat.eqb_refl.
    rewrite Z.eqb_refl. simpl.
    destruct (Z.eqb_spec (opt_id b) (opt_id a)); [congruence|reflexivity].
  - rewrite Nat.min_r by lia.
    destruct (Nat.eqb_spec ca cb); [contradiction|].
    rewrite Nat.eqb_refl.
    destruct (Z.eqb_spec (opt_id a) (opt_id b)); [contradiction|reflexivity].
Qed.

(** A round with three or more options, all with the same count below
    the threshold: exactly one option goes, the one with the lowest id,
    and the loop goes round again. *)
Lemma Part007_complete_tie_round (rem : list PollOption) (c : nat) :
  let voteCounts := count_votes rem nbs in
  2 < length rem ->
  NoDup (map opt_id rem) ->
  (forall opt, In opt rem -> obj_get (opt_id opt) voteCounts = Some c) ->
  c < majorityThreshold ->
  exists lowest,
    In lowest rem
    /\ (forall opt, In opt rem -> (opt_id lowest <= opt_id opt)%Z)
    /\ Part007.body nbs totalVotes majorityThreshold rounds rem
       = Continue
           (push_round rounds voteCounts
              (compute_percentages totalVotes rem voteCounts) rem
              (Some lowest) None None false)
           (filter (fun opt => negb (opt_id opt =? opt_id lowest)%Z) rem)
    /\ S (length
            (filter (fun opt => negb (opt_id opt =? opt_id lowest)%Z) rem))
       = length rem.
Proof.
  intros voteCounts Hlen Hnd Hc Hlt.
  destruct (reduce_lowest_id rem) as [lowest|] eqn:Er;
    [|destruct rem; [simpl in Hlen; lia|discriminate]].
  exists lowest.
  pose proof (reduce_lowest_id_In _ _ Er) as Hin.
  pose proof (reduce_lowest_id_le _ _ Er) as Hle.
  split; [assumption|]. split; [assumption|].
  split; [|now apply remove_one_id].
  unfold Part007.body. fold voteCounts.
  destruct (Nat.ltb_spec 2 (length rem)) as [_|]; [|lia].
  rewrite find_all_false.
  2:{ intros x Hx. unfold has_majority. rewrite (Hc x Hx).
      unfold ge_opt. apply Nat.leb_gt. assumption. }
  destruct (Nat.eqb_spec (length rem) 2) as [|_]; [lia|].
  assert (Hmin : Math_min (Object_values voteCounts) = Some c).
  { destruct (minVotes_attained nbs rem) as (m & opt & Hm & Hopt & _);
      [lia|].
    fold voteCounts in Hm, Hopt. rewrite Hm. f_equal.
    apply filter_In in Hopt. destruct Hopt as [Ho Hmin].
    unfold has_min in Hmin. rewrite Hm, (Hc opt Ho) in Hmin.
    unfold strict_eq_min in Hmin. apply Nat.eqb_eq in Hmin. congruence. }
  rewrite Hmin.
  assert (Hall : all_same (Object_values voteCounts) (Some c) = true).
  { unfold all_same. apply forallb_forall. intros v Hv.
    destruct (voteValues_option nbs rem v Hv) as (opt & Ho & Hg).
    fold voteCounts in Hg. rewrite (Hc opt Ho) in Hg.
    injection Hg as <-. simpl. apply Nat.eqb_refl. }
  rewrite Hall. simpl andb. cbv iota.
  rewrite filter_all_true.
  2:{ intros x Hx. unfold has_min. rewrite (Hc x Hx). simpl.
      apply Nat.eqb_refl. }
  now rewrite Er.
Qed.

End Part007Rounds.

Ltac crack_body :=
  repeat match goal with
         | |- context [match ?x with _ => _ end] =>
             lazymatch x with
             | context [match _ with _ => _ end] => fail
             | _ => destruct x eqn:?; cbv beta iota
             end
         end.

(** Every pass of [src/unnamed/part_007] appends one record, and the
    record names a majority winner only if more than two options played
    the round. *)
Lemma Part007_body_guarded nbs tv t rounds rem :
  match Part007.body nbs tv t rounds rem with
  | Return r => exists rd, res_rounds r = rounds ++ [rd]
                           /\ majority_guarded rd
  | Continue rounds' _ => exists rd, rounds' = rounds ++ [rd]
                                     /\ majority_guarded rd
  | Throw => True
  end.
Proof.
  unfold Part007.body, push_round.
  destruct (2 <? length rem) eqn:E3.
  - apply Nat.ltb_lt in E3.
    crack_body; try exact I; eexists; (split; [reflexivity|]);
      unfold majority_guarded; simpl; intros _; now rewrite length_map.
  - crack_body; try exact I; eexists; (split; [reflexivity|]);
      unfold majority_guarded; simpl; congruence.
Qed.

Lemma Part007_majority_guarded options ballots res :
  Part007.calculateIRV options ballots = Returned res ->
  Forall majority_guarded (res_rounds res).
Proof.
  unfold Part007.calculateIRV.
  destruct options as [|o os]; [intros [= <-]; constructor|].
  destruct ballots as [|b bs]; [intros [= <-]; constructor|].
  cbv zeta. intros Hr.
  set (nbs := normalizedBallots (b :: bs)) in *.
  destruct (while_loop_rule
              (Part007.body nbs (length nbs) (threshold_of (length nbs)))
              (finish (length nbs) (threshold_of (length nbs)))
              (fun rounds rem =>
                 loop_inv nbs (copy_options (o :: os)) rounds rem
                 /\ Forall majority_guarded rounds)
              (fun r => Forall majority_guarded (res_rounds r)))
    with (fuel := length (o :: os)) (rounds := @nil Round)
         (rem := copy_options (o :: os)) as (r & Hr' & Hg).
  - intros rounds rem [_ Hg] _. exact Hg.
  - intros rounds rem [HI Hg] Hlen.
    pose proof (Part007_body_sound nbs _ rounds rem HI Hlen) as Hs.
    pose proof (Part007_body_guarded nbs (length nbs)
                  (threshold_of (length nbs)) rounds rem) as Hb.
    destruct (Part007.body _ _ _ rounds rem) as [r|rounds' rem'|];
      [| |contradiction].
    + destruct Hb as (rd & -> & Hrd). apply Forall_app. auto.
    + destruct Hb as (rd & -> & Hrd). destruct Hs as [HI' Hl].
      split; [split; [exact HI'|]|exact Hl]. apply Forall_app. auto.
  - split; [|constructor]. split; [apply kept_from_refl|constructor].
  - unfold copy_options. now rewrite length_map.
  - congruence.
Qed.

(** ** The test suite, run on [src/unnamed/part_007] *)

Example test_no_options :
  Part007.calculateIRV [] []
  = Returned (error_result No_options_available).
Proof. reflexivity. Qed.

Example test_no_ballots :
  Part007.calculateIRV [optA] []
  = Returned (error_result No_ballots_available).
Proof. reflexivity. Qed.

Example test_single_option :
  Part007.calculateIRV [optA] [ranked 1 [1%Z]]
  = Returned (finish 1 1 [] (Some optA)).
Proof. reflexivity. Qed.

Example test_majority_first_round :
  exists res rd,
    Part007.calculateIRV [optA; optB; optC] ballots_B = Returned res
    /\ res_rounds res = [rd]
    /\ rd_majorityWinner rd = Some 1%Z
    /\ count_in rd 1 = Some 3
    /\ res_majorityThreshold res = Some 3
    /\ res_winner res = Some optA.
Proof.
  eexists; eexists; (split; [vm_compute; reflexivity|]); repeat split.
Qed.

Example test_redistribution :
  exists res rd1 rd2,
    Part007.calculateIRV [optA; optB; optC] ballots_redistribute
    = Returned res
    /\ res_rounds res = [rd1; rd2]
    /\ rd_eliminated rd1 = Some optB
    /\ rd_voteCounts rd2 = [(1%Z, 3); (3%Z, 2)]
    /\ rd_eliminated rd2 = Some optC
    /\ res_winner res = Some optA.
Proof.
  eexists; eexists; eexists; (split; [vm_compute; reflexivity|]);
    repeat split.
Qed.

Example test_nested_pollOption :
  res_winner (returned (Part007.calculateIRV [optA; optB] ballots_nested))
  = Some optA.
Proof. reflexivity. Qed.

Example test_unsorted_rankings :
  res_winner (returned (Part007.calculateIRV [optA; optB] ballots_unsorted))
  = Some optA.
Proof. reflexivity. Qed.

(** ** Where [src/backend/utils/irv.js] departs from its tests *)

(** C1. On the input of the test "two options with clear winner"
    (scenario A: counts 1: 2, 2: 1, threshold 2) [src/backend/utils/irv.js]
    runs the majority check in the two-option round: the round records
    [majorityWinner = 1] and no eliminated option, where the test reads
    [rounds[0].eliminated.id].  [src/unnamed/part_007] records option 2 as
    eliminated, no majority winner, and returns option 1 as the winner
    after that single round. *)
Theorem backend_majority_check_with_two_options :
  (exists res rd,
      BackendIrv.calculateIRV [optA; optB] ballots_A = Returned res
      /\ res_rounds res = [rd]
      /\ rd_remaining rd = [1; 2]%Z
      /\ rd_voteCounts rd = [(1%Z, 2); (2%Z, 1)]
      /\ rd_majorityWinner rd = Some 1%Z
      /\ rd_eliminated rd = None
      /\ res_winner res = Some optA)
  /\ (exists res rd,
         Part007.calculateIRV [optA; optB] ballots_A = Returned res
         /\ res_rounds res = [rd]
         /\ rd_remaining rd = [1; 2]%Z
         /\ rd_voteCounts rd = [(1%Z, 2); (2%Z, 1)]
         /\ rd_majorityWinner rd = None
         /\ rd_eliminated rd = Some optB
         /\ res_winner res = Some optA).
Proof.
  split; eexists; eexists; (split; [vm_compute; reflexivity|]);
    repeat split.
Qed.

(** C2. On the input of the test "handles three-round elimination" (four
    options with one first choice each, threshold 3)
    [src/backend/utils/irv.js] stops in round 1 with a four-way tie and no
    winner, where the test expects a winner.  [src/unnamed/part_007]
    eliminates option 1, the lowest id, alone in round 1, goes on to a
    second round and returns option 2 as the winner. *)
Theorem backend_complete_tie_stops :
  (exists res rd,
      BackendIrv.calculateIRV [optA; optB; optC; optD] ballots_four_way
      = Returned res
      /\ res_rounds res = [rd]
      /\ rd_remaining rd = [1; 2; 3; 4]%Z
      /\ rd_voteCounts rd = [(1%Z, 1); (2%Z, 1); (3%Z, 1); (4%Z, 1)]
      /\ rd_majorityWinner rd = None
      /\ rd_eliminated rd = None
      /\ rd_eliminatedMultiple rd = None
      /\ rd_tie rd = true
      /\ res_tie res = true
      /\ res_tiedOptions res = Some [optA; optB; optC; optD]
      /\ res_winner res = None)
  /\ (exists res rd1 rd2,
         Part007.calculateIRV [optA; optB; optC; optD] ballots_four_way
         = Returned res
         /\ res_rounds res = [rd1; rd2]
         /\ rd_remaining rd1 = [1; 2; 3; 4]%Z
         /\ rd_voteCounts rd1 = [(1%Z, 1); (2%Z, 1); (3%Z, 1); (4%Z, 1)]
         /\ rd_eliminated rd1 = Some optA
         /\ rd_eliminatedMultiple rd1 = None
         /\ rd_tie rd1 = false
         /\ rd_remaining rd2 = [2; 3; 4]%Z
         /\ res_tie res = false
         /\ res_winner res = Some optB).
Proof.
  split.
  - eexists; eexists; (split; [vm_compute; reflexivity|]); repeat split.
  - eexists; eexists; eexists; (split; [vm_compute; reflexivity|]);
      repeat split.
Qed.

(** * The run of the round loop, pass by pass *)

Lemma eliminated_options_record (l : list PollOption) :
  l <> [] ->
  match (if length l =? 1 then nth_error l 0 else None) with
  | Some e => [e]
  | None => []
  end
  ++ match (if 1 <? length l then Some l else None) with
     | Some es => es
     | None => []
     end
  = l.
Proof.
  destruct l as [|x [|y l]]; [congruence| |]; intros _; reflexivity.
Qed.

Lemma has_min_count vc m e :
  has_min vc m e = true ->
  exists c, obj_get (opt_id e) vc = Some c /\ m = Some c.
Proof.
  unfold has_min, strict_eq_min.
  destruct (obj_get (opt_id e) vc) as [c|]; [|discriminate].
  destruct m as [c'|]; [|discriminate].
  intros H. apply Nat.eqb_eq in H. subst. eauto.
Qed.

Lemma remove_single_id (x : PollOption) (rem : list PollOption) :
  filter (fun opt => negb (opt_id opt =? opt_id x)%Z) rem
  = remove_ids (map opt_id [x]) rem.
Proof.
  unfold remove_ids. apply filter_ext. intros o. simpl.
  now rewrite orb_false_r, Z.eqb_sym.
Qed.

Lemma round_base_record nbs rounds rem pct e em mw t :
  let rd := {| rd_round := length rounds + 1;
               rd_voteCounts := count_votes rem nbs;
               rd_percentages := pct;
               rd_eliminated := e;
               rd_eliminatedMultiple := em;
               rd_remaining := map opt_id rem;
               rd_majorityWinner := mw;
               rd_tie := t |} in
  (forall x, In x (eliminated_options rd) ->
             In x rem
             /\ has_min (count_votes rem nbs)
                        (Math_min (Object_values (count_votes rem nbs)))
                        x = true) ->
  round_base nbs rounds rem rd.
Proof.
  intros rd H. unfold round_base.
  split; [reflexivity|]. split; [reflexivity|]. split; [reflexivity|].
  intros x Hx. destruct (H x Hx) as [Hin Hmin].
  split; [assumption|]. now apply has_min_count.
Qed.

Section BodyPasses.

Variable nbs : list NBallot.
Variables totalVotes majorityThreshold : nat.

Lemma BackendIrv_body_pass rounds rem :
  1 < length rem ->
  pass_ok nbs rounds rem
          (BackendIrv.body nbs totalVotes majorityThreshold rounds rem).
Proof.
  intros Hlen. unfold BackendIrv.body, push_round.
  destruct (find _ rem) as [mw|] eqn:Emw.
  - (* majority winner *)
    apply find_some in Emw. destruct Emw as [Hin _].
    eexists. split; [reflexivity|]. split.
    + apply round_base_record. intros x [].
    + split; [reflexivity|]. left. exists mw.
      split; [assumption|]. repeat (split; [reflexivity|]). reflexivity.
  - destruct (Nat.ltb_spec 1 (length rem)) as [_|]; [|lia].
    rewrite andb_true_r.
    destruct (all_same _ _) eqn:Eall.
    + (* declared tie *)
      eexists. split; [reflexivity|]. split.
      * apply round_base_record. intros x [].
      * split; [reflexivity|]. right; left.
        repeat (split; [reflexivity|]). reflexivity.
    + (* elimination *)
      pose proof (remove_ids_survivor nbs rem Eall) as Hsurv.
      destruct (minVotes_attained nbs rem Hlen) as (m & opt & _ & Hopt & _).
      set (minVoteOptions :=
             filter (has_min (count_votes rem nbs)
                             (Math_min (Object_values (count_votes rem nbs))))
                    rem) in *.
      assert (Hne : minVoteOptions <> []).
      { intros E. rewrite E in Hopt. destruct Hopt. }
      match goal with
      | |- context [length ?l =? 0] =>
          destruct (Nat.eqb_spec (length l) 0) as [E|E]
      end.
      { apply length_zero_iff_nil in E. contradiction. }
      eexists. split; [reflexivity|]. split.
      * apply round_base_record. unfold eliminated_options.
        cbn [rd_eliminated rd_eliminatedMultiple].
        rewrite (eliminated_options_record _ Hne).
        intros x Hx. now apply filter_In in Hx.
      * unfold eliminated_options.
        cbn [rd_eliminated rd_eliminatedMultiple].
        rewrite (eliminated_options_record _ Hne).
        repeat (split; [reflexivity|]). split; [assumption|].
        split; [reflexivity|]. intros _. assumption.
Qed.

Lemma Part007_body_pass rounds rem :
  1 < length rem ->
  pass_ok nbs rounds rem
          (Part007.body nbs totalVotes majorityThreshold rounds rem).
Proof.
  intros Hlen. unfold Part007.body, push_round.
  destruct (if 2 <? length rem then find _ rem else None) as [mw|] eqn:Emw.
  - (* majority winner *)
    destruct (2 <? length rem); [|discriminate].
    apply find_some in Emw. destruct Emw as [Hin _].
    eexists. split; [reflexivity|]. split.
    + apply round_base_record. intros x [].
    + split; [reflexivity|]. left. exists mw.
      split; [assumption|]. repeat (split; [reflexivity|]). reflexivity.
  - clear Emw. destruct (Nat.eqb_spec (length rem) 2) as [E2|E2].
    + (* two options *)
      destruct (strict_eq_opt _ _) eqn:Etie.
      * eexists. split; [reflexivity|]. split.
        -- apply round_base_record. intros x [].
        -- split; [reflexivity|]. right; left.
           repeat (split; [reflexivity|]). reflexivity.
      * destruct (find_has_min_Some nbs rem Hlen) as (elim & Hf).
        rewrite Hf. apply find_some in Hf. destruct Hf as [Hin Hmin].
        eexists. split; [reflexivity|]. split.
        -- apply round_base_record. intros x [<-|[]]. now split.
        -- split; [reflexivity|]. right; right. exists elim.
           repeat (split; [reflexivity|]). reflexivity.
    + (* three or more options *)
      destruct (Nat.ltb_spec 2 (length rem)) as [H3|]; [|lia].
      rewrite andb_true_r. simpl andb. cbv iota.
      destruct (minVotes_attained nbs rem Hlen) as (m & opt & _ & Hopt & _).
      destruct (all_same _ _) eqn:Eall.
      * (* complete tie: the lowest id goes *)
        destruct (reduce_lowest_id _) as [elim|] eqn:Er.
        2:{ destruct (filter _ rem); [destruct Hopt|discriminate]. }
        apply reduce_lowest_id_In in Er.
        pose proof Er as Hf. apply filter_In in Hf. destruct Hf as [Hin Hmin].
        eexists. split; [reflexivity|]. split.
        -- apply round_base_record. intros x [<-|[]]. now split.
        -- repeat (split; [reflexivity|]). split; [discriminate|].
           split; [apply remove_single_id|].
           intros Hnd E.
           pose proof (remove_one_id rem elim Hnd Hin) as Hl.
           rewrite E in Hl. simpl in Hl. lia.
      * (* every option at the minimum goes *)
        pose proof (remove_ids_survivor nbs rem Eall) as Hsurv.
        set (minVoteOptions :=
               filter (has_min (count_votes rem nbs)
                         (Math_min (Object_values (count_votes rem nbs))))
                      rem) in *.
        assert (Hne : minVoteOptions <> []).
        { intros E. rewrite E in Hopt. destruct Hopt. }
        assert (Hm : forall x, In x minVoteOptions ->
                      In x rem
                      /\ has_min (count_votes rem nbs)
                           (Math_min (Object_values (count_votes rem nbs)))
                           x = true).
        { intros x Hx. now apply filter_In in Hx. }
        clearbody minVoteOptions.
        destruct minVoteOptions as [|x xs]; [congruence|].
        match goal with
        | |- context [length ?l =? 0] =>
            destruct (Nat.eqb_spec (length l) 0) as [E|E]
        end.
        { apply length_zero_iff_nil in E. contradiction. }
        eexists. split; [reflexivity|]. split.
        -- apply round_base_record. unfold eliminated_options.
           cbn [rd_eliminated rd_eliminatedMultiple].
           rewrite (eliminated_options_record (x :: xs) Hne). exact Hm.
        -- unfold eliminated_options.
           cbn [rd_eliminated rd_eliminatedMultiple].
           rewrite (eliminated_options_record (x :: xs) Hne).
           repeat (split; [reflexivity|]). split; [assumption|].
           split; [reflexivity|]. intros _. assumption.
Qed.

End BodyPasses.

Lemma remove_ids_shorter (elim rem : list PollOption) :
  elim <> [] -> incl elim rem ->
  length (remove_ids (map opt_id elim) rem) < length rem.
Proof.
  intros Hne Hincl. destruct elim as [|e es]; [congruence|].
  apply (filter_length_lt _ _ e); [apply Hincl; now left|].
  apply negb_false_iff, includes_In. now left.
Qed.

Lemma round_base_incl nbs rounds rem rd :
  round_base nbs rounds rem rd -> incl (eliminated_options rd) rem.
Proof. intros (_ & _ & _ & H) e He. now apply H. Qed.

Section Run.

Variable nbs : list NBallot.
Variable body : list Round -> list PollOption -> pass.
Hypothesis body_pass : forall rounds rem,
  1 < length rem -> pass_ok nbs rounds rem (body rounds rem).

(** The loop returns, and what it returns is the result of a run. *)
Lemma run_tallied (options : list PollOption) (fuel : nat) :
  length options <= fuel ->
  exists res,
    while_loop body (finish (length nbs) (threshold_of (length nbs)))
               fuel [] options = Returned res
    /\ tallied nbs options res.
Proof.
  intros Hf.
  apply while_loop_rule with (Inv := played nbs options).
  - intros rounds rem Hp Hl. now apply tallied_exit.
  - intros rounds rem Hp Hl. specialize (body_pass rounds rem Hl).
    destruct (body rounds rem) as [r|rounds' rem'|]; simpl in body_pass.
    + destruct body_pass as (rd & Hr & Hb & He).
      now apply (tallied_return nbs options rounds rem rd).
    + destruct body_pass as (rd & -> & Hb & Hmw & Ht & Hne & -> & Hnd).
      split; [now apply played_pass|].
      apply remove_ids_shorter; [assumption|].
      now apply (round_base_incl nbs rounds).
    + assumption.
  - constructor.
  - assumption.
Qed.

End Run.

(** Every result of a call on non-empty input is the result of a run. *)
Lemma tally_returns_tallied options ballots res :
  tally_returns options ballots res ->
  options <> [] -> ballots <> [] ->
  tallied (normalizedBallots ballots) options res.
Proof.
  intros Hr Ho Hb.
  destruct options as [|o os]; [congruence|].
  destruct ballots as [|b bs]; [congruence|].
  set (nbs := normalizedBallots (b :: bs)).
  destruct Hr as [H|H].
  - unfold BackendIrv.calculateIRV in H. cbv zeta in H.
    rewrite copy_options_id in H. fold nbs in H.
    destruct (run_tallied nbs
                (BackendIrv.body nbs (length nbs) (threshold_of (length nbs)))
                (BackendIrv_body_pass nbs _ _) (o :: os) (length (o :: os))
                (le_n _)) as (r & Hr & Ht).
    congruence.
  - unfold Part007.calculateIRV in H. cbv zeta in H.
    rewrite copy_options_id in H. fold nbs in H.
    destruct (run_tallied nbs
                (Part007.body nbs (length nbs) (threshold_of (length nbs)))
                (Part007_body_pass nbs _ _) (o :: os) (length (o :: os))
                (le_n _)) as (r & Hr & Ht).
    congruence.
Qed.

(** ** What holds of the rounds played so far *)

Section Played.

Variable nbs : list NBallot.
Variable options : list PollOption.

Lemma played_numbered rounds rem :
  played nbs options rounds rem ->
  map rd_round rounds = seq 1 (length rounds).
Proof.
  induction 1 as [|rounds rem rd Hp IH Hl Hb Hmw Ht Hne Hnd]; [reflexivity|].
  rewrite map_app, length_app, IH. simpl length.
  rewrite Nat.add_1_r, seq_S. simpl.
  destruct Hb as (-> & _). now rewrite Nat.add_1_r.
Qed.

Lemma played_unflagged rounds rem :
  played nbs options rounds rem ->
  Forall (fun rd => rd_majorityWinner rd = None /\ rd_tie rd = false) rounds.
Proof.
  induction 1 as [|rounds rem rd Hp IH Hl Hb Hmw Ht Hne Hnd]; [constructor|].
  apply Forall_app. split; [assumption|]. now repeat constructor.
Qed.

Lemma played_kept rounds rem :
  played nbs options rounds rem -> kept_from options rem.
Proof.
  induction 1 as [|rounds rem rd Hp [keep ->] Hl Hb Hmw Ht Hne Hnd].
  - apply kept_from_refl.
  - eexists. unfold remove_ids. apply filter_filter.
Qed.

Lemma played_bound rounds rem :
  played nbs options rounds rem ->
  length rounds + length rem <= length options.
Proof.
  induction 1 as [|rounds rem rd Hp IH Hl Hb Hmw Ht Hne Hnd]; [simpl; lia|].
  rewrite length_app. simpl length.
  pose proof (remove_ids_shorter _ rem Hne (round_base_incl _ _ _ _ Hb)).
  lia.
Qed.

Lemma played_nonempty rounds rem :
  played nbs options rounds rem ->
  options <> [] -> NoDup (map opt_id options) -> rem <> [].
Proof.
  intros Hp Ho Hn.
  destruct Hp as [|rounds rem rd Hp Hl Hb Hmw Ht Hne Hnd]; [assumption|].
  apply Hnd. apply (kept_from_NoDup options); [|assumption].
  now apply (played_kept rounds).
Qed.

Lemma remove_ids_gone (ids : list Z) (rem : list PollOption) (k : Z) :
  In k ids -> ~ In k (map opt_id (remove_ids ids rem)).
Proof.
  intros Hk Hin. apply in_map_iff in Hin. destruct Hin as (o & <- & Ho).
  apply filter_In in Ho. destruct Ho as [_ Ho].
  apply negb_true_iff in Ho.
  apply includes_In in Hk. congruence.
Qed.

Lemma remove_ids_sub (ids : list Z) (rem : list PollOption) (k : Z) :
  In k (map opt_id (remove_ids ids rem)) -> In k (map opt_id rem).
Proof.
  intros Hin. apply in_map_iff in Hin. destruct Hin as (o & <- & Ho).
  apply filter_In in Ho. apply in_map, Ho.
Qed.

(** The ids of the options eliminated so far are out of the race. *)
Lemma played_eliminated_out rounds rem :
  played nbs options rounds rem ->
  Forall (fun rd => forall e, In e (eliminated_options rd) ->
                              ~ In (opt_id e) (map opt_id rem))
         rounds.
Proof.
  induction 1 as [|rounds rem rd Hp IH Hl Hb Hmw Ht Hne Hnd]; [constructor|].
  apply Forall_app. split.
  - eapply Forall_impl; [|exact IH]. intros r Hr e He Hin.
    apply (Hr e He). now apply remove_ids_sub in Hin.
  - constructor; [|constructor]. intros e He.
    apply remove_ids_gone. now apply in_map.
Qed.

Lemma map_remove_ids (ids : list Z) (rem : list PollOption) :
  map opt_id (remove_ids ids rem)
  = filter (fun k => negb (includes ids k)) (map opt_id rem).
Proof.
  unfold remove_ids. induction rem as [|o rem IH]; simpl; [reflexivity|].
  destruct (negb (includes ids (opt_id o))); simpl; now rewrite IH.
Qed.

(** The race after the rounds played so far: all the options before the
    first round, what the last round left afterwards. *)
Lemma played_last rounds rem :
  played nbs options rounds rem ->
  match rev rounds with
  | [] => rem = options
  | rd :: _ => map opt_id rem = remaining_after rd
               /\ length rem < length (rd_remaining rd)
  end.
Proof.
  destruct 1 as [|rounds rem rd Hp Hl Hb Hmw Ht Hne Hnd]; [reflexivity|].
  rewrite rev_app_distr. simpl.
  pose proof (remove_ids_shorter _ rem Hne (round_base_incl _ _ _ _ Hb)).
  destruct Hb as (_ & _ & Hrem & _).
  unfold remaining_after. rewrite Hrem, length_map. split; [|assumption].
  apply map_remove_ids.
Qed.

Lemma chained_snoc rounds rem rd :
  chained options rounds ->
  match rev rounds with
  | [] => rem = options
  | r :: _ => map opt_id rem = remaining_after r
              /\ length rem < length (rd_remaining r)
  end ->
  rd_remaining rd = map opt_id rem ->
  chained options (rounds ++ [rd]).
Proof.
  intros [IH0 IH] Hlast Hrem. split.
  - intros rd0 H0. destruct rounds as [|r0 rs].
    + simpl in H0. injection H0 as <-. simpl in Hlast. now subst.
    + simpl in H0. apply IH0. exact H0.
  - intros i rd1 rd2 H1 H2.
    destruct (Nat.lt_ge_cases (S i) (length rounds)) as [Hlt|Hge].
    + rewrite nth_error_app1 in H1, H2 by lia. now apply (IH i).
    + assert (Hi : S i = length rounds).
      { assert (S i < length (rounds ++ [rd])).
        { apply nth_error_Some. congruence. }
        rewrite length_app in *. simpl in *. lia. }
      rewrite nth_error_app2 in H2 by lia.
      replace (S i - length rounds) with 0 in H2 by lia.
      simpl in H2. injection H2 as <-.
      rewrite nth_error_app1 in H1 by lia.
      assert (Hr : rev rounds = rd1 :: rev (firstn i rounds)).
      { rewrite <- (firstn_skipn i rounds) at 1.
        assert (Hs : skipn i rounds = [rd1]).
        { apply nth_error_split in H1.
          destruct H1 as (l1 & l2 & -> & Hl1).
          rewrite <- Hl1, skipn_app, skipn_all, Nat.sub_diag. simpl.
          rewrite length_app in Hi. simpl in Hi.
          destruct l2; [reflexivity|simpl in Hi; lia]. }
        rewrite Hs, rev_app_distr. reflexivity. }
      rewrite Hr in Hlast. destruct Hlast as [Ha Hb].
      rewrite Hrem. split; [assumption|]. now rewrite length_map.
Qed.

Lemma played_chain rounds rem :
  played nbs options rounds rem -> chained options rounds.
Proof.
  induction 1 as [|rounds rem rd Hp IH Hl Hb Hmw Ht Hne Hnd].
  - split; [intros rd H; discriminate|]. intros [|i] ? ? H; discriminate.
  - apply (chained_snoc rounds rem); [assumption| |apply Hb].
    now apply played_last.
Qed.

(** Every round played so far is the record of a race among some of the
    options. *)
Lemma played_bases rounds rem :
  played nbs options rounds rem ->
  Forall (fun rd => exists rounds0 rem0,
                      kept_from options rem0
                      /\ 1 < length rem0
                      /\ round_base nbs rounds0 rem0 rd)
         rounds.
Proof.
  induction 1 as [|rounds rem rd Hp IH Hl Hb Hmw Ht Hne Hnd]; [constructor|].
  apply Forall_app. split; [assumption|]. constructor; [|constructor].
  exists rounds, rem. split; [|split]; auto. now apply (played_kept rounds).
Qed.

(** A pass is only played with two options or more in the race, so the
    rounds are fewer than the options. *)
Lemma played_fewer rounds rem :
  played nbs options rounds rem ->
  rounds = [] \/ length rounds < length options.
Proof.
  destruct 1 as [|rounds rem rd Hp Hl Hb Hmw Ht Hne Hnd]; [now left|].
  right. pose proof (played_bound _ _ Hp).
  rewrite length_app. simpl. lia.
Qed.

End Played.

(** * Further properties of the tally *)

Lemma returns_C : tally_returns [optA; optB; optC] ballots_C result_C.
Proof. right. vm_compute. reflexivity. Defined.

Lemma returns_D : tally_returns [optA; optB] ballots_D result_D.
Proof. right. vm_compute. reflexivity. Defined.

Lemma returns_four_way :
  tally_returns [optA; optB; optC; optD] ballots_four_way result_four_way.
Proof. right. vm_compute. reflexivity. Defined.

Lemma returns_B : tally_returns [optA; optB; optC] ballots_B result_B.
Proof. left. vm_compute. reflexivity. Defined.

Lemma distinct_ABC : NoDup (map opt_id [optA; optB; optC]).
Proof. simpl. repeat constructor; simpl; intuition discriminate. Defined.

(** A returned result is a precondition error, without rounds, or the
    result of a run. *)
Lemma tally_cases options ballots res :
  tally_returns options ballots res ->
  ((options = [] \/ ballots = [])
   /\ exists msg, res = error_result msg)
  \/ (options <> [] /\ ballots <> []
      /\ tallied (normalizedBallots ballots) options res).
Proof.
  intros Hr. destruct (tally_returns_cases _ _ _ Hr)
    as [[Ho ->]|[[Hb ->]|(Ho & Hb & _)]].
  - left. split; [now left|eauto].
  - left. split; [now right|eauto].
  - right. split; [assumption|]. split; [assumption|].
    now apply tally_returns_tallied.
Qed.

Lemma snoc_split {A} (l pre post : list A) (x y : A) :
  l ++ [x] = pre ++ y :: post ->
  (post = [] /\ pre = l /\ y = x)
  \/ exists post', post = post' ++ [x] /\ l = pre ++ y :: post'.
Proof.
  intros H. destruct (rev post) as [|z zs] eqn:E.
  - left. apply (f_equal (@rev A)) in E. rewrite rev_involutive in E.
    simpl in E. subst post.
    change (pre ++ [y]) with (pre ++ [y]) in H.
    apply app_inj_tail in H. destruct H as [-> ->]. auto.
  - right. apply (f_equal (@rev A)) in E. rewrite rev_involutive in E.
    simpl in E. subst post. exists (rev zs).
    rewrite app_comm_cons, app_assoc in H.
    apply app_inj_tail in H. destruct H as [-> ->]. auto.
Qed.

(** ** Round numbers *)

(** X1. The rounds of a result are numbered 1, 2, 3, ... in the order in
    which they were played. *)
Theorem rounds_numbered options ballots res :
  tally_returns options ballots res ->
  map rd_round (res_rounds res) = seq 1 (length (res_rounds res)).
Proof.
  intros Hr. destruct (tally_cases _ _ _ Hr) as [[_ (msg & ->)]|(_ & _ & Ht)];
    [reflexivity|].
  destruct Ht as [rounds rem Hp Hl|rounds rem rd r Hp Hl Hrs Hb He].
  - simpl. now apply (played_numbered _ _ _ _ Hp).
  - rewrite Hrs, map_app, length_app, (played_numbered _ _ _ _ Hp).
    simpl length. rewrite Nat.add_1_r, seq_S. simpl.
    destruct Hb as (-> & _). now rewrite Nat.add_1_r.
Qed.

Lemma rounds_numbered_witness :
  tally_returns [optA; optB; optC; optD] ballots_four_way result_four_way
  /\ map rd_round (res_rounds result_four_way) = [1; 2].
Proof.
  split; [exact returns_four_way|].
  exact (rounds_numbered _ _ _ returns_four_way).
Defined.

(** ** Majority winner and tie flag *)

(** X2. Only the last round of a result can name a majority winner or carry
    the tie flag.  A round that names a majority winner makes that option,
    one of the options supplied, the winner of the result; a round flagged
    as a tie makes the result a tie without a winner. *)
Theorem flags_end_the_tally options ballots res pre rd post :
  tally_returns options ballots res ->
  res_rounds res = pre ++ rd :: post ->
  (forall k, rd_majorityWinner rd = Some k ->
             post = []
             /\ res_tie res = false
             /\ exists w, res_winner res = Some w /\ opt_id w = k
                          /\ In w options)
  /\ (rd_tie rd = true ->
      post = [] /\ res_tie res = true /\ res_winner res = None).
Proof.
  intros Hr Hrs.
  destruct (tally_cases _ _ _ Hr) as [[_ (msg & ->)]|(_ & _ & Ht)].
  { destruct pre; discriminate. }
  assert (Hun : forall rounds rem,
             played (normalizedBallots ballots) options rounds rem ->
             In rd rounds ->
             rd_majorityWinner rd = None /\ rd_tie rd = false).
  { intros rounds rem Hp Hin. apply played_unflagged in Hp.
    rewrite Forall_forall in Hp. now apply Hp. }
  destruct Ht as [rounds rem Hp Hl|rounds rem rd0 r Hp Hl Hrs0 Hb He].
  - simpl in Hrs. destruct (Hun rounds rem Hp) as [Hm Ht].
    { rewrite Hrs. apply in_or_app. right. now left. }
    split; [intros k Hk|intros Hk]; congruence.
  - rewrite Hrs0 in Hrs. apply snoc_split in Hrs.
    destruct Hrs as [(-> & -> & ->)|(post' & -> & ->)].
    + destruct He as (_ & [(w & Hw & Hmw & Hwin & Ht & Hrt & _)
                          |[(Hmw & Ht & Hrt & Hwin & _)
                           |(e & Hmw & Ht & Hrt & _)]]).
      * split; [|congruence]. intros k Hk. split; [reflexivity|].
        split; [assumption|]. exists w. rewrite Hmw in Hk.
        injection Hk as <-. repeat split; auto.
        apply (kept_from_incl options rem); [|assumption].
        now apply (played_kept _ _ _ _ Hp).
      * split; [congruence|]. auto.
      * split; [intros k Hk|intros Hk]; congruence.
    + destruct (Hun _ rem Hp) as [Hm Ht].
      { apply in_or_app. right. now left. }
      split; [intros k Hk|intros Hk]; congruence.
Qed.

Lemma flags_end_the_tally_witness :
  tally_returns [optA; optB; optC] ballots_B result_B
  /\ exists rd,
       res_rounds result_B = [] ++ rd :: []
       /\ rd_majorityWinner rd = Some 1%Z
       /\ exists w, res_winner result_B = Some w /\ opt_id w = 1%Z
                    /\ In w [optA; optB; optC].
Proof.
  split; [exact returns_B|].
  eexists. split; [reflexivity|]. split; [reflexivity|].
  destruct (flags_end_the_tally _ _ _ [] _ [] returns_B eq_refl) as [H _].
  exact (proj2 (proj2 (H 1%Z eq_refl))).
Defined.

(** ** The race shrinks from round to round *)

Lemma tally_chained options ballots res :
  tally_returns options ballots res ->
  chained options (res_rounds res).
Proof.
  intros Hr. destruct (tally_cases _ _ _ Hr) as [[_ (msg & ->)]|(_ & _ & Ht)].
  { split; [intros rd H; discriminate|]. intros [|i] ? ? H; discriminate. }
  destruct Ht as [rounds rem Hp Hl|rounds rem rd r Hp Hl Hrs Hb He].
  - simpl. now apply (played_chain _ _ _ _ Hp).
  - rewrite Hrs. apply (chained_snoc options rounds rem).
    + now apply (played_chain _ _ _ _ Hp).
    + now apply (played_last _ _ _ _ Hp).
    + apply Hb.
Qed.

(** X3. The first round is played by all the options, in the order supplied;
    every later round is played by what the round before it left once its
    eliminated options were removed, which is strictly fewer. *)
Theorem remaining_shrinks options ballots res :
  tally_returns options ballots res ->
  chained options (res_rounds res).
Proof. apply tally_chained. Qed.

Lemma remaining_shrinks_witness :
  tally_returns [optA; optB; optC; optD] ballots_four_way result_four_way
  /\ exists rd1 rd2,
       nth_error (res_rounds result_four_way) 0 = Some rd1
       /\ nth_error (res_rounds result_four_way) 1 = Some rd2
       /\ rd_remaining rd1 = [1; 2; 3; 4]%Z
       /\ rd_remaining rd2 = remaining_after rd1
       /\ length (rd_remaining rd2) < length (rd_remaining rd1).
Proof.
  split; [exact returns_four_way|].
  destruct (remaining_shrinks _ _ _ returns_four_way) as [H0 H].
  eexists. eexists. split; [reflexivity|]. split; [reflexivity|].
  split; [exact (H0 _ eq_refl)|]. exact (H 0 _ _ eq_refl eq_refl).
Defined.

(** ** Who is eliminated *)

Lemma Math_min_le (vs : list nat) (m v : nat) :
  Math_min vs = Some m -> In v vs -> m <= v.
Proof.
  intros Hm Hv. destruct (Math_min_spec vs) as (m' & Hm' & _ & Hle).
  - intros E. rewrite E in Hv. destruct Hv.
  - rewrite Hm in Hm'. injection Hm' as <-. now apply Hle.
Qed.

Lemma round_base_minimum nbs rounds rem rd e :
  round_base nbs rounds rem rd ->
  In e (eliminated_options rd) ->
  In e rem
  /\ In (opt_id e) (rd_remaining rd)
  /\ exists c, count_in rd (opt_id e) = Some c
               /\ forall k c', count_in rd k = Some c' -> c <= c'.
Proof.
  intros (_ & _ & Hrem & H) He. destruct (H e He) as (Hin & c & Hc & Hm).
  split; [assumption|]. split; [rewrite Hrem; now apply in_map|].
  exists c. split; [assumption|]. intros k c' Hk.
  apply (Math_min_le _ _ _ Hm). unfold count_in in Hk.
  apply obj_get_In in Hk. now apply (in_map snd) in Hk.
Qed.

(** X4. Every option that a round records as eliminated, alone or among
    several, is one of the options supplied, played that round, and has a
    count in it that no other count of the round is below. *)
Theorem eliminated_at_minimum options ballots res rd e :
  tally_returns options ballots res ->
  In rd (res_rounds res) ->
  In e (eliminated_options rd) ->
  In e options
  /\ In (opt_id e) (rd_remaining rd)
  /\ exists c, count_in rd (opt_id e) = Some c
               /\ forall k c', count_in rd k = Some c' -> c <= c'.
Proof.
  intros Hr Hin He.
  destruct (tally_cases _ _ _ Hr) as [[_ (msg & ->)]|(_ & _ & Ht)];
    [destruct Hin|].
  assert (G : forall rounds rem,
             played (normalizedBallots ballots) options rounds rem ->
             In rd rounds ->
             In e options
             /\ In (opt_id e) (rd_remaining rd)
             /\ exists c, count_in rd (opt_id e) = Some c
                          /\ forall k c', count_in rd k = Some c' -> c <= c').
  { intros rounds rem Hp Hi. apply played_bases in Hp.
    rewrite Forall_forall in Hp.
    destruct (Hp rd Hi) as (rounds0 & rem0 & Hk & _ & Hb).
    destruct (round_base_minimum _ _ _ _ _ Hb He) as (H1 & H2 & H3).
    split; [|now split]. now apply (kept_from_incl options rem0). }
  destruct Ht as [rounds rem Hp Hl|rounds rem rd0 r Hp Hl Hrs Hb Hend].
  - now apply (G rounds rem).
  - rewrite Hrs in Hin. apply in_app_or in Hin.
    destruct Hin as [Hin|[<-|[]]]; [now apply (G rounds rem)|].
    destruct (round_base_minimum _ _ _ _ _ Hb He) as (H1 & H2 & H3).
    split; [|now split].
    apply (kept_from_incl options rem); [|assumption].
    now apply (played_kept _ _ _ _ Hp).
Qed.

Lemma eliminated_at_minimum_witness :
  tally_returns [optA; optB; optC] ballots_C result_C
  /\ exists rd,
       In rd (res_rounds result_C)
       /\ In optB (eliminated_options rd)
       /\ exists c, count_in rd 2%Z = Some c
                    /\ forall k c', count_in rd k = Some c' -> c <= c'.
Proof.
  split; [exact returns_C|].
  eexists. split; [left; reflexivity|]. split; [left; reflexivity|].
  exact (proj2 (proj2 (eliminated_at_minimum _ _ _ _ optB returns_C
                         (or_introl eq_refl) (or_introl eq_refl)))).
Defined.

(** ** How many rounds *)

(** X5. A call on [n] options records fewer than [n] rounds. *)
Theorem rounds_fewer_than_options options ballots res :
  tally_returns options ballots res ->
  options <> [] ->
  length (res_rounds res) < length options.
Proof.
  intros Hr Ho.
  assert (Hn : 0 < length options) by (destruct options; simpl; [congruence|lia]).
  destruct (tally_cases _ _ _ Hr) as [[_ (msg & ->)]|(_ & _ & Ht)];
    [exact Hn|].
  destruct Ht as [rounds rem Hp Hl|rounds rem rd r Hp Hl Hrs Hb He].
  - simpl. destruct (played_fewer _ _ _ _ Hp) as [->|H]; [exact Hn|exact H].
  - rewrite Hrs, length_app. simpl.
    pose proof (played_bound _ _ _ _ Hp). lia.
Qed.

Lemma rounds_fewer_than_options_witness :
  tally_returns [optA; optB; optC; optD] ballots_four_way result_four_way
  /\ [optA; optB; optC; optD] <> []
  /\ length (res_rounds result_four_way) < 4.
Proof.
  split; [exact returns_four_way|]. split; [discriminate|].
  apply (rounds_fewer_than_options _ _ _ returns_four_way). discriminate.
Defined.

(** ** The winner *)

(** X6. The winner of a result is one of the options supplied and has the id
    of no option recorded as eliminated in any round; the tied options of
    a tie are options supplied as well. *)
Theorem winner_never_eliminated options ballots res :
  tally_returns options ballots res ->
  (forall w, res_winner res = Some w ->
             In w options
             /\ forall rd e, In rd (res_rounds res) ->
                             In e (eliminated_options rd) ->
                             opt_id e <> opt_id w)
  /\ (forall tied, res_tiedOptions res = Some tied -> incl tied options).
Proof.
  intros Hr.
  destruct (tally_cases _ _ _ Hr) as [[_ (msg & ->)]|(_ & _ & Ht)].
  { split; intros ? H; discriminate H. }
  assert (G : forall rounds rem w,
             played (normalizedBallots ballots) options rounds rem ->
             In w rem ->
             In w options
             /\ forall rd e, In rd rounds -> In e (eliminated_options rd) ->
                             opt_id e <> opt_id w).
  { intros rounds rem w Hp Hw. split.
    - apply (kept_from_incl options rem); [|assumption].
      now apply (played_kept _ _ _ _ Hp).
    - intros rd e Hrd He E. apply played_eliminated_out in Hp.
      rewrite Forall_forall in Hp. apply (Hp rd Hrd e He).
      rewrite E. now apply in_map. }
  destruct Ht as [rounds rem Hp Hl|rounds rem rd0 r Hp Hl Hrs Hb Hend].
  - split; [|intros tied H; discriminate H].
    simpl. intros w Hw. apply (G rounds rem w Hp).
    destruct rem; [discriminate|]. injection Hw as <-. now left.
  - destruct Hend as (_ & [(w & Hw & Hmw & Hwin & Ht & Hrt & Hno & Hel)
                          |[(Hmw & Ht & Hrt & Hwin & Htd & Hel)
                           |(e & Hmw & Ht & Hrt & Hno & Hel & Hwin)]]).
    + split; [|intros tied Htd; congruence].
      intros w' Hw'. rewrite Hwin in Hw'. injection Hw' as <-.
      destruct (G rounds rem w Hp Hw) as [Hin Hne].
      split; [assumption|]. intros rd e Hrd He.
      rewrite Hrs in Hrd. apply in_app_or in Hrd.
      destruct Hrd as [Hrd|[<-|[]]]; [now apply (Hne rd)|].
      rewrite Hel in He. destruct He.
    + split; [intros w Hw; congruence|].
      intros tied Htd'. rewrite Htd in Htd'. injection Htd' as <-.
      apply (kept_from_incl options). now apply (played_kept _ _ _ _ Hp).
    + split; [|intros tied Htd; congruence].
      intros w Hw. rewrite Hwin in Hw. apply find_some in Hw.
      destruct Hw as [Hw Hne']. apply negb_true_iff, Z.eqb_neq in Hne'.
      destruct (G rounds rem w Hp Hw) as [Hin Hne].
      split; [assumption|]. intros rd e' Hrd He.
      rewrite Hrs in Hrd. apply in_app_or in Hrd.
      destruct Hrd as [Hrd|[<-|[]]]; [now apply (Hne rd)|].
      rewrite Hel in He. destruct He as [<-|[]]. congruence.
Qed.

Lemma winner_never_eliminated_witness :
  tally_returns [optA; optB; optC] ballots_C result_C
  /\ res_winner result_C = Some optA
  /\ In optA [optA; optB; optC]
  /\ forall rd e, In rd (res_rounds result_C) ->
                  In e (eliminated_options rd) -> opt_id e <> 1%Z.
Proof.
  split; [exact returns_C|]. split; [reflexivity|].
  exact (proj1 (winner_never_eliminated _ _ _ returns_C) optA eq_refl).
Defined.

Lemma other_option {A} (f : A -> Z) (l : list A) (e : A) :
  NoDup (map f l) -> In e l -> 1 < length l ->
  exists o, In o l /\ f o <> f e.
Proof.
  intros Hnd He Hl. destruct l as [|x [|y l]]; simpl in Hl; try lia.
  destruct (Z.eq_dec (f x) (f e)) as [E|E].
  - exists y. split; [right; now left|].
    simpl in Hnd. inversion Hnd as [|? ? Hx _]; subst.
    intros E'. apply Hx. left. congruence.
  - exists x. split; [now left|assumption].
Qed.

(** X7. With distinct option ids, a call on non-empty input ends in exactly
    one of two ways: it names a winner and is no tie, or it is a tie and
    names no winner. *)
Theorem winner_or_tie options ballots res :
  tally_returns options ballots res ->
  options <> [] -> ballots <> [] ->
  NoDup (map opt_id options) ->
  (res_tie res = false /\ exists w, res_winner res = Some w)
  \/ (res_tie res = true /\ res_winner res = None).
Proof.
  intros Hr Ho Hb Hnd.
  destruct (tally_cases _ _ _ Hr) as [[[E|E] _]|(_ & _ & Ht)];
    try contradiction.
  destruct Ht as [rounds rem Hp Hl|rounds rem rd0 r Hp Hl Hrs Hbase Hend].
  - left. split; [reflexivity|]. simpl.
    pose proof (played_nonempty _ _ _ _ Hp Ho Hnd).
    destruct rem as [|w rem]; [congruence|]. simpl. eauto.
  - destruct Hend as (_ & [(w & Hw & Hmw & Hwin & Ht & Hrt & Hno & Hel)
                          |[(Hmw & Ht & Hrt & Hwin & Htd & Hel)
                           |(e & Hmw & Ht & Hrt & Hno & Hel & Hwin)]]).
    + left. eauto.
    + right. auto.
    + left. split; [assumption|]. rewrite Hwin.
      assert (He : In e rem).
      { apply (round_base_incl _ _ _ _ Hbase). rewrite Hel. now left. }
      assert (Hn : NoDup (map opt_id rem)).
      { apply (kept_from_NoDup options); [|assumption].
        now apply (played_kept _ _ _ _ Hp). }
      destruct (other_option opt_id rem e Hn He Hl) as (o & Hin & Hne).
      destruct (find _ rem) as [w|] eqn:Ef; [eauto|].
      pose proof (find_none _ _ Ef o Hin) as Hf. simpl in Hf.
      apply negb_false_iff, Z.eqb_eq in Hf. contradiction.
Qed.

Lemma winner_or_tie_witness :
  tally_returns [optA; optB] ballots_D result_D
  /\ [optA; optB] <> [] /\ ballots_D <> []
  /\ NoDup (map opt_id [optA; optB])
  /\ ((res_tie result_D = false /\ exists w, res_winner result_D = Some w)
      \/ (res_tie result_D = true /\ res_winner result_D = None)).
Proof.
  assert (Hnd : NoDup (map opt_id [optA; optB])).
  { simpl. repeat constructor; simpl; intuition discriminate. }
  split; [exact returns_D|]. split; [discriminate|]. split; [discriminate|].
  split; [exact Hnd|].
  apply (winner_or_tie _ _ _ returns_D); [discriminate|discriminate|exact Hnd].
Defined.

(** ** Edge inputs *)

(** X8. A result carries an error exactly when the options or the ballots
    are empty: "No options available" when there are no options, whatever
    the ballots, "No ballots available" when there are options but no
    ballots; an error result has no rounds, no winner and no totals. *)
Theorem error_iff_empty_input options ballots res :
  tally_returns options ballots res ->
  (res_error res = Some No_options_available <-> options = [])
  /\ (res_error res = Some No_ballots_available
      <-> options <> [] /\ ballots = [])
  /\ (res_error res = None <-> options <> [] /\ ballots <> [])
  /\ (res_error res <> None ->
      res_rounds res = [] /\ res_winner res = None /\ res_tie res = false
      /\ res_totalVotes res = None /\ res_majorityThreshold res = None).
Proof.
  intros Hr.
  destruct (tally_returns_cases _ _ _ Hr)
    as [[-> ->]|[[-> ->]|(Ho & Hb & Hs)]].
  - simpl. repeat split; try discriminate; try tauto; intros [H _]; congruence.
  - assert (Ho : options <> []).
    { intros ->. destruct Hr as [H|H]; simpl in H; discriminate. }
    simpl. repeat split; try discriminate; try tauto.
  - destruct Hs as (_ & _ & He & _). rewrite He.
    repeat split; try discriminate; try tauto; try congruence.
Qed.

Lemma error_iff_empty_input_witness :
  tally_returns [] ballots_A (error_result No_options_available)
  /\ (res_error (error_result No_options_available)
      = Some No_options_available <-> @nil PollOption = []).
Proof.
  assert (H : tally_returns [] ballots_A (error_result No_options_available)).
  { left. reflexivity. }
  split; [exact H|]. exact (proj1 (error_iff_empty_input _ _ _ H)).
Defined.

(** X9. A call on non-empty input records no round exactly when there is a
    single option, and that option is then the winner. *)
Theorem no_rounds_iff_single_option options ballots res :
  tally_returns options ballots res ->
  options <> [] -> ballots <> [] ->
  (res_rounds res = [] <-> length options = 1)
  /\ (length options = 1 -> res_winner res = hd_error options).
Proof.
  intros Hr Ho Hb.
  assert (Hn : 0 < length options) by (destruct options; simpl; [congruence|lia]).
  destruct (tally_cases _ _ _ Hr) as [[[E|E] _]|(_ & _ & Ht)];
    try contradiction.
  destruct Ht as [rounds rem Hp Hl|rounds rem rd0 r Hp Hl Hrs Hbase Hend].
  - simpl. pose proof (played_bound _ _ _ _ Hp) as Hbd.
    destruct Hp as [|rounds rem rd Hp Hl' Hb' Hmw Ht Hne Hnd].
    + split; [split; [intros _; lia|reflexivity]|reflexivity].
    + pose proof (played_bound _ _ _ _ Hp).
      split; [split|].
      * intros E. destruct rounds; discriminate E.
      * intros E. lia.
      * intros E. lia.
  - pose proof (played_bound _ _ _ _ Hp).
    rewrite Hrs. split; [split|].
    + intros E. destruct rounds; discriminate E.
    + intros E. lia.
    + intros E. lia.
Qed.

Lemma no_rounds_iff_single_option_witness :
  tally_returns [optA] ballots_A
    (finish 3 2 [] (Some optA))
  /\ res_winner (finish 3 2 [] (Some optA)) = hd_error [optA].
Proof.
  assert (H : tally_returns [optA] ballots_A (finish 3 2 [] (Some optA))).
  { left. vm_compute. reflexivity. }
  split; [exact H|].
  apply (no_rounds_iff_single_option _ _ _ H); [discriminate|discriminate|].
  reflexivity.
Defined.

(** * [src/backend/api/polls.js] *)

(** ** Sorting by a key *)

Section SortByFacts.

Context {A : Type}.
Variable key : A -> Z.

Let key_le (a b : A) : Prop := (key a <= key b)%Z.

Lemma insert_by_perm x l : Permutation (insert_by key x l) (x :: l).
Proof.
  induction l as [|y l IH]; simpl; [reflexivity|].
  destruct (key x <=? key y)%Z; [reflexivity|].
  rewrite IH. apply perm_swap.
Qed.

Lemma sort_by_perm l : Permutation (sort_by key l) l.
Proof.
  induction l as [|x l IH]; simpl; [reflexivity|].
  rewrite insert_by_perm. now constructor.
Qed.

Lemma insert_by_Sorted x l :
  Sorted key_le l -> Sorted key_le (insert_by key x l).
Proof.
  induction 1 as [|y l Hs IH Hd]; simpl.
  - repeat constructor.
  - destruct (Z.leb_spec (key x) (key y)) as [Hle|Hgt].
    + constructor; [now constructor|]. now constructor.
    + constructor; [assumption|].
      destruct l as [|z l]; simpl.
      * constructor. unfold key_le. lia.
      * destruct (Z.leb_spec (key x) (key z)).
        -- constructor. unfold key_le. lia.
        -- constructor. now inversion Hd.
Qed.

Lemma sort_by_Sorted l : Sorted key_le (sort_by key l).
Proof.
  induction l as [|x l IH]; simpl; [constructor|].
  now apply insert_by_Sorted.
Qed.

Lemma sort_by_StronglySorted l : StronglySorted key_le (sort_by key l).
Proof.
  apply Sorted_StronglySorted; [|apply sort_by_Sorted].
  intros a b c. unfold key_le. lia.
Qed.

(** Sorting what is sorted changes nothing. *)
Lemma sort_by_sorted l : Sorted key_le l -> sort_by key l = l.
Proof.
  induction 1 as [|x l Hs IH Hd]; simpl; [reflexivity|].
  rewrite IH. destruct Hd as [|y l Hxy]; simpl; [reflexivity|].
  unfold key_le in Hxy. destruct (Z.leb_spec (key x) (key y)); [reflexivity|lia].
Qed.

(** Two sorted lists with the same members, of which no two share a key,
    are the same list. *)
Lemma sorted_perm_unique l1 l2 :
  StronglySorted key_le l1 -> StronglySorted key_le l2 ->
  Permutation l1 l2 ->
  (forall a b, In a l1 -> In b l1 -> key a = key b -> a = b) ->
  l1 = l2.
Proof.
  intros H1. revert l2.
  induction H1 as [|a l1 Hs1 IH Ha]; intros l2 H2 Hp Hinj.
  - apply Permutation_nil in Hp. now subst.
  - destruct H2 as [|b l2 Hs2 Hb].
    { apply Permutation_sym, Permutation_nil in Hp. discriminate. }
    rewrite Forall_forall in Ha, Hb.
    assert (Hba : In b (a :: l1)).
    { apply (Permutation_in _ (Permutation_sym Hp)). now left. }
    assert (Hab : In a (b :: l2)).
    { apply (Permutation_in _ Hp). now left. }
    assert (E : a = b).
    { apply Hinj; [now left|assumption|].
      assert (key_le a b).
      { destruct Hba as [<-|Hba]; [unfold key_le; lia|now apply Ha]. }
      assert (key_le b a).
      { destruct Hab as [<-|Hab]; [unfold key_le; lia|now apply Hb]. }
      unfold key_le in *. lia. }
    subst b. f_equal. apply IH; [assumption| |].
    + now apply Permutation_cons_inv in Hp.
    + intros x y Hx Hy. apply Hinj; now right.
Qed.

End SortByFacts.

Lemma sort_by_rank_is_sort_by rs : sort_by_rank rs = sort_by rank rs.
Proof.
  unfold sort_by_rank, sort_by. induction rs as [|r rs IH]; simpl;
    [reflexivity|]. rewrite IH. generalize (fold_right (insert_by rank) [] rs).
  intros l. induction l as [|x l IHl]; simpl; [reflexivity|].
  now rewrite IHl.
Qed.

(** The engine's sort of a ballot that the route has sorted already
    changes nothing. *)
Lemma sort_by_rank_idempotent rs :
  sort_by_rank (sort_by_rank rs) = sort_by_rank rs.
Proof.
  rewrite !sort_by_rank_is_sort_by. apply sort_by_sorted, sort_by_Sorted.
Qed.

(** ** The checks on a vote *)

Lemma same_value_eq x y : same_value x y = true <-> x = y.
Proof.
  destruct x as [a|], y as [b|]; simpl; split; try discriminate; auto.
  - intros H. apply Z.eqb_eq in H. now subst.
  - intros [= ->]. apply Z.eqb_refl.
Qed.

Lemma Set_add_cases s x :
  (In x s /\ Set_add s x = s) \/ (~ In x s /\ Set_add s x = s ++ [x]).
Proof.
  unfold Set_add. destruct (existsb (same_value x) s) eqn:E.
  - left. split; [|reflexivity]. apply existsb_exists in E.
    destruct E as (y & Hy & E). apply same_value_eq in E. now subst.
  - right. split; [|reflexivity]. intros Hin.
    assert (existsb (same_value x) s = true); [|congruence].
    apply existsb_exists. exists x. split; [assumption|].
    now apply same_value_eq.
Qed.

Lemma Set_fold_length l s :
  length (fold_left Set_add l s) <= length s + length l.
Proof.
  revert s. induction l as [|x l IH]; intros s; simpl; [lia|].
  specialize (IH (Set_add s x)).
  destruct (Set_add_cases s x) as [[_ E]|[_ E]]; rewrite E in *.
  - lia.
  - rewrite length_app in IH. simpl in IH. lia.
Qed.

Lemma Set_fold_distinct l s :
  length (fold_left Set_add l s) = length s + length l ->
  NoDup l /\ forall x, In x l -> ~ In x s.
Proof.
  revert s. induction l as [|x l IH]; intros s; simpl.
  - intros _. split; [constructor|intros x []].
  - intros H. pose proof (Set_fold_length l (Set_add s x)) as Hle.
    destruct (Set_add_cases s x) as [[_ E]|[Hx E]]; rewrite E in *.
    + lia.
    + destruct (IH (s ++ [x])) as [Hnd Hout].
      { rewrite length_app. simpl. lia. }
      split.
      * constructor; [|assumption]. intros Hin.
        apply (Hout x Hin). apply in_or_app. right. now left.
      * intros y [<-|Hy]; [assumption|]. intros Hin.
        apply (Hout y Hy). apply in_or_app. now left.
Qed.

Lemma Set_fold_fresh l s :
  NoDup l -> (forall x, In x l -> ~ In x s) ->
  fold_left Set_add l s = s ++ l.
Proof.
  revert s. induction l as [|x l IH]; intros s Hnd Hout; simpl.
  - now rewrite app_nil_r.
  - inversion Hnd as [|? ? Hx Hl]; subst.
    destruct (Set_add_cases s x) as [[Hin _]|[_ E]].
    + exfalso. apply (Hout x); [now left|assumption].
    + rewrite E, IH; [now rewrite <- app_assoc| assumption|].
      intros y Hy Hin. apply in_app_or in Hin.
      destruct Hin as [Hin|[<-|[]]]; [|contradiction].
      apply (Hout y); [now right|assumption].
Qed.

(** The set of the ranked ids is as large as their list exactly when no
    id is ranked twice. *)
Lemma Set_values_length l :
  length (Set_values l) = length l <-> NoDup l.
Proof.
  unfold Set_values. split.
  - intros H. now apply (Set_fold_distinct l []).
  - intros H. rewrite Set_fold_fresh; auto.
Qed.

Lemma sequential_from_spec (i : nat) (l : list Z) :
  sequential_from (Z.of_nat i) l = true
  <-> l = map Z.of_nat (seq (S i) (length l)).
Proof.
  revert i. induction l as [|r l IH]; intros i; simpl.
  - tauto.
  - rewrite andb_true_iff, Z.eqb_eq.
    replace (Z.of_nat i + 1)%Z with (Z.of_nat (S i)) by lia.
    rewrite IH. split.
    + intros [-> <-]. reflexivity.
    + intros [= -> H]. split; [lia|assumption].
Qed.

Lemma ranks_upto_sorted (a n : nat) :
  StronglySorted (fun x y : Z => (x <= y)%Z) (map Z.of_nat (seq a n)).
Proof.
  revert a. induction n as [|n IH]; intros a; simpl; constructor.
  - apply IH.
  - apply Forall_forall. intros x Hx. apply in_map_iff in Hx.
    destruct Hx as (k & <- & Hk). apply in_seq in Hk. lia.
Qed.

Lemma includes_value_In optionIds x :
  includes_value optionIds x = true <-> In x (map Some optionIds).
Proof.
  destruct x as [k|]; simpl.
  - rewrite includes_In. split.
    + intros H. now apply in_map.
    + intros H. apply in_map_iff in H. destruct H as (k' & [= ->] & H). exact H.
  - split; [discriminate|]. intros H. apply in_map_iff in H.
    destruct H as (k' & E & _). discriminate.
Qed.

Lemma NoDup_map_Some {A} (l : list A) : NoDup l -> NoDup (map Some l).
Proof.
  induction 1 as [|x l Hx Hl IH]; simpl; constructor; [|assumption].
  intros Hin. apply in_map_iff in Hin. destruct Hin as (y & [= ->] & Hy).
  contradiction.
Qed.

Lemma validate_vote_permutations (options : list PollOption)
    (rankings : list RawRanking) :
  NoDup (map opt_id options) ->
  validate_vote options (Some rankings) = None
  <-> Permutation (map pollOptionId rankings)
                  (map Some (map opt_id options))
      /\ Permutation (map rank rankings) (ranks_upto (length options)).
Proof.
  intros Hnd.
  assert (HndS : NoDup (map Some (map opt_id options))).
  { now apply NoDup_map_Some. }
  pose proof (sort_by_perm (fun r : Z => r) (map rank rankings)) as Hsp.
  unfold validate_vote. split.
  - destruct (Nat.eqb_spec (length rankings) (length options)) as [Hlen|]; [|simpl; discriminate].
    simpl negb. cbv iota.
    rewrite !length_map.
    destruct (Nat.eqb_spec (length (Set_values (map pollOptionId rankings)))
                           (length options))
      as [Hset|]; [|simpl; discriminate].
    simpl negb. cbv iota.
    destruct (forallb _ rankings) eqn:Hall; [|simpl; discriminate].
    simpl negb. cbv iota.
    destruct (sequential_from 0 _) eqn:Hseq; [|simpl; discriminate].
    intros _. split.
    + apply NoDup_Permutation_bis.
      * apply Set_values_length. rewrite length_map. congruence.
      * rewrite !length_map. lia.
      * intros x Hx. apply in_map_iff in Hx. destruct Hx as (r & <- & Hr).
        rewrite forallb_forall in Hall.
        now apply includes_value_In, Hall.
    + apply (sequential_from_spec 0) in Hseq.
      rewrite (Permutation_length Hsp), length_map, Hlen in Hseq.
      unfold ranks_upto. rewrite <- Hseq. now symmetry.
  - intros [Hids Hranks].
    assert (Hlen : length rankings = length options).
    { apply Permutation_length in Hids. now rewrite !length_map in Hids. }
    rewrite Hlen, Nat.eqb_refl. simpl negb. cbv iota.
    rewrite !length_map.
    assert (Hset : length (Set_values (map pollOptionId rankings))
                   = length options).
    { rewrite (proj2 (Set_values_length _)), length_map; [assumption|].
      apply (Permutation_NoDup (Permutation_sym Hids) HndS). }
    rewrite Hset, Nat.eqb_refl. simpl negb. cbv iota.
    assert (Hall : forallb (fun ranking =>
                              includes_value (map opt_id options)
                                             (pollOptionId ranking))
                           rankings = true).
    { apply forallb_forall. intros r Hr. apply includes_value_In.
      apply (Permutation_in _ Hids). now apply in_map. }
    rewrite Hall. simpl negb. cbv iota.
    assert (Hsort : sort_by (fun r : Z => r) (map rank rankings)
                    = ranks_upto (length options)).
    { apply (sorted_perm_unique (fun r : Z => r)).
      - apply sort_by_StronglySorted.
      - apply ranks_upto_sorted.
      - now rewrite Hsp.
      - auto. }
    rewrite Hsort.
    assert (Hseq : sequential_from 0 (ranks_upto (length options)) = true).
    { apply (sequential_from_spec 0). unfold ranks_upto.
      now rewrite length_map, length_seq. }
    now rewrite Hseq.
Qed.

(** X13. With distinct option ids, the rankings of a vote pass the checks of
    the route exactly when every option is ranked once, by its id, and the
    ranks are 1, 2, ..., n in some order. *)
Theorem vote_accepted_iff (options : list PollOption)
    (rankings : list RawRanking) :
  NoDup (map opt_id options) ->
  validate_vote options (Some rankings) = None
  <-> Permutation (map pollOptionId rankings)
                  (map Some (map opt_id options))
      /\ Permutation (map rank rankings) (ranks_upto (length options)).
Proof. apply validate_vote_permutations. Qed.

Lemma vote_accepted_iff_witness :
  NoDup (map opt_id [optA; optB; optC])
  /\ validate_vote [optA; optB; optC]
       (Some [direct 2 1; direct 3 2; direct 1 3]) = None
  /\ Permutation (map pollOptionId [direct 2 1; direct 3 2; direct 1 3])
                 (map Some (map opt_id [optA; optB; optC])).
Proof.
  split; [exact distinct_ABC|]. split; [reflexivity|].
  exact (proj1 (proj1 (vote_accepted_iff [optA; optB; optC]
                         [direct 2 1; direct 3 2; direct 1 3] distinct_ABC)
                      eq_refl)).
Defined.

(** ** Accepted votes in the tally *)

Lemma reference_agrees_resolve r :
  reference_agrees r -> resolve_id r = pollOptionId r.
Proof.
  unfold reference_agrees, resolve_id.
  destruct (pollOption r) as [o|]; [|reflexivity].
  intros ->. destruct (Z.eqb_spec (opt_id o) 0) as [->|_]; reflexivity.
Qed.

(** An accepted ballot ranks, after normalisation, every option of the
    poll. *)
Lemma accepted_ranks_all options ballot opt :
  NoDup (map opt_id options) ->
  accepted options ballot -> In opt options ->
  exists r, In r (nb_rankings (normalize_ballot ballot))
            /\ nr_pollOptionId r = Some (opt_id opt).
Proof.
  intros Hnd [Hv Hag] Hopt.
  apply (validate_vote_permutations options _ Hnd) in Hv.
  destruct Hv as [Hids _].
  assert (Hin : In (Some (opt_id opt)) (map pollOptionId (rankings ballot))).
  { apply (Permutation_in _ (Permutation_sym Hids)).
    now apply in_map, in_map. }
  apply in_map_iff in Hin. destruct Hin as (r & Hr & Hin).
  exists (normalize_ranking r). split.
  - unfold normalize_ballot. simpl. apply in_map.
    apply (Permutation_in _ (Permutation_sym (sort_by_rank_perm _))).
    assumption.
  - simpl. now rewrite (reference_agrees_resolve r (Hag r Hin)).
Qed.

(** X14. When every ballot has passed the checks of the vote route and the
    option ids are distinct, no ballot is ever exhausted: in every round
    of the result of either copy the counters add up to the number of
    ballots. *)
Theorem accepted_ballots_all_count options ballots res rd :
  NoDup (map opt_id options) ->
  (forall b, In b ballots -> accepted options b) ->
  tally_returns options ballots res ->
  In rd (res_rounds res) ->
  list_sum (Object_values (rd_voteCounts rd)) = length ballots.
Proof.
  intros Hnd Hacc Hr Hin.
  destruct (tally_rounds_sound _ _ _ _ Hr Hin) as (_ & _ & Hs).
  destruct Hs as [(rem & Hk & Hvc & Hrem & Hlen) _].
  rewrite Hvc, count_votes_sum.
  rewrite <- (length_map normalize_ballot ballots).
  fold (normalizedBallots ballots).
  apply filter_length_all. intros nb Hnb.
  unfold normalizedBallots in Hnb. apply in_map_iff in Hnb.
  destruct Hnb as (b & <- & Hb).
  apply has_choice_ranks.
  destruct rem as [|opt rem']; [simpl in Hlen; lia|].
  assert (Ho : In opt options).
  { apply (kept_from_incl options (opt :: rem')); [assumption|now left]. }
  destruct (accepted_ranks_all options b opt Hnd (Hacc b Hb) Ho)
    as (r & Hr' & Hid).
  exists r, (opt_id opt). split; [assumption|]. split; [assumption|].
  simpl. now rewrite Z.eqb_refl.
Qed.

Lemma accepted_ballots_all_count_witness :
  NoDup (map opt_id [optA; optB; optC])
  /\ (forall b, In b ballots_C -> accepted [optA; optB; optC] b)
  /\ tally_returns [optA; optB; optC] ballots_C result_C
  /\ exists rd, In rd (res_rounds result_C)
                /\ list_sum (Object_values (rd_voteCounts rd)) = 4.
Proof.
  assert (Hacc : forall b, In b ballots_C -> accepted [optA; optB; optC] b).
  { intros b [<-|[<-|[<-|[<-|[]]]]];
      (split; [reflexivity|]);
      intros r [<-|[<-|[<-|[]]]]; exact I. }
  split; [exact distinct_ABC|]. split; [exact Hacc|].
  split; [exact returns_C|].
  eexists. split; [left; reflexivity|].
  exact (accepted_ballots_all_count _ _ _ _ distinct_ABC Hacc returns_C
           (or_introl eq_refl)).
Defined.

(** ** The results route *)

Lemma normalize_sorted_ballot ballot :
  normalize_ballot {| ballot_id := ballot_id ballot;
                      rankings := sort_by_rank (rankings ballot) |}
  = normalize_ballot ballot.
Proof.
  unfold normalize_ballot. simpl. now rewrite sort_by_rank_idempotent.
Qed.

Lemma normalizedBallots_sorted ballots :
  normalizedBallots (sortedBallots ballots) = normalizedBallots ballots.
Proof.
  unfold normalizedBallots, sortedBallots. rewrite map_map.
  apply map_ext. intros b. apply normalize_sorted_ballot.
Qed.

(** The engine sees its ballots through their normalisation only. *)
Lemma BackendIrv_normalized options ballots ballots' :
  normalizedBallots ballots = normalizedBallots ballots' ->
  BackendIrv.calculateIRV options ballots
  = BackendIrv.calculateIRV options ballots'.
Proof.
  intros Hn. unfold BackendIrv.calculateIRV.
  destruct options as [|o os]; [reflexivity|].
  destruct ballots as [|b bs], ballots' as [|b' bs']; try discriminate Hn;
    [reflexivity|].
  cbv zeta. now rewrite Hn.
Qed.

Lemma BackendIrv_ballot_perm options ballots ballots' :
  Permutation ballots ballots' ->
  BackendIrv.calculateIRV options ballots
  = BackendIrv.calculateIRV options ballots'.
Proof.
  intros Hp.
  assert (Hn : Permutation (normalizedBallots ballots)
                           (normalizedBallots ballots')).
  { unfold normalizedBallots. now apply Permutation_map. }
  assert (Hl : length (normalizedBallots ballots)
               = length (normalizedBallots ballots')).
  { now apply Permutation_length. }
  unfold BackendIrv.calculateIRV.
  destruct options as [|o os]; [reflexivity|].
  destruct ballots as [|b bs].
  { apply Permutation_nil in Hp. now subst. }
  destruct ballots' as [|b' bs'].
  { apply Permutation_sym, Permutation_nil in Hp. discriminate. }
  cbv zeta. rewrite Hl. apply while_loop_ext. intros.
  now apply BackendIrv_body_perm.
Qed.

(** X15. The rows of a poll can come back from the store in any order: with
    distinct option ids, two fetches whose options and ballots are
    permutations of each other are handed to the tally as the same
    options, and give the same results. *)
Theorem results_row_order_irrelevant
    (options options' : list PollOption) (ballots ballots' : list Ballot) :
  NoDup (map opt_id options) ->
  Permutation options options' ->
  Permutation ballots ballots' ->
  sortedOptions options = sortedOptions options'
  /\ irvResults options ballots = irvResults options' ballots'.
Proof.
  intros Hnd Ho Hb.
  assert (Hs : sortedOptions options = sortedOptions options').
  { unfold sortedOptions. apply (sorted_perm_unique opt_id).
    - apply sort_by_StronglySorted.
    - apply sort_by_StronglySorted.
    - rewrite !sort_by_perm. assumption.
    - intros a b Ha Hb'. apply (NoDup_map_inj opt_id options); auto.
      + apply (Permutation_in _ (sort_by_perm opt_id options) Ha).
      + apply (Permutation_in _ (sort_by_perm opt_id options) Hb'). }
  split; [exact Hs|].
  unfold irvResults. rewrite Hs. apply BackendIrv_ballot_perm.
  unfold sortedBallots. now apply Permutation_map.
Qed.

Lemma results_row_order_irrelevant_witness :
  NoDup (map opt_id [optA; optB; optC])
  /\ Permutation [optA; optB; optC] [optC; optA; optB]
  /\ Permutation ballots_C (rev ballots_C)
  /\ sortedOptions [optA; optB; optC] = sortedOptions [optC; optA; optB]
  /\ irvResults [optA; optB; optC] ballots_C
     = irvResults [optC; optA; optB] (rev ballots_C).
Proof.
  assert (Hp : Permutation [optA; optB; optC] [optC; optA; optB]).
  { apply Permutation_sym.
    apply (Permutation_cons_app [optA; optB] [] optC). reflexivity. }
  split; [exact distinct_ABC|]. split; [exact Hp|].
  split; [apply Permutation_rev|].
  apply (results_row_order_irrelevant _ _ _ _ distinct_ABC Hp).
  apply Permutation_rev.
Defined.

Lemma StronglySorted_filter {A} (R : A -> A -> Prop) (f : A -> bool) l :
  StronglySorted R l -> StronglySorted R (filter f l).
Proof.
  induction 1 as [|x l Hs IH Hx]; simpl; [constructor|].
  destruct (f x); [|assumption]. constructor; [assumption|].
  rewrite Forall_forall in *. intros y Hy. apply filter_In in Hy.
  now apply Hx.
Qed.

Lemma StronglySorted_map_id (l : list PollOption) :
  StronglySorted (fun a b => (opt_id a <= opt_id b)%Z) l ->
  StronglySorted Z.le (map opt_id l).
Proof.
  induction 1 as [|x l Hs IH Hx]; simpl; constructor; [assumption|].
  rewrite Forall_forall in *. intros k Hk. apply in_map_iff in Hk.
  destruct Hk as (y & <- & Hy). now apply Hx.
Qed.

(** X16. The route's sort of the rankings is redundant: the tally normalises
    the ballots itself, so the results are those of the unsorted ballots.
    Its sort of the options is not: in every round of the results the
    [remaining] ids are in ascending order. *)
Theorem results_sorted (options : list PollOption) (ballots : list Ballot) :
  irvResults options ballots
  = BackendIrv.calculateIRV (sortedOptions options) ballots
  /\ forall res rd,
       irvResults options ballots = Returned res ->
       In rd (res_rounds res) ->
       StronglySorted Z.le (rd_remaining rd).
Proof.
  assert (E : irvResults options ballots
              = BackendIrv.calculateIRV (sortedOptions options) ballots).
  { unfold irvResults. apply BackendIrv_normalized.
    apply normalizedBallots_sorted. }
  split; [exact E|].
  intros res rd Hr Hin. rewrite E in Hr.
  destruct (tally_rounds_sound (sortedOptions options) ballots res rd)
    as (_ & _ & Hs); [now left|assumption|].
  destruct Hs as [(rem & [keep ->] & _ & -> & _) _].
  apply StronglySorted_map_id, StronglySorted_filter.
  apply sort_by_StronglySorted.
Qed.

Lemma results_sorted_witness :
  irvResults [optC; optA; optB] ballots_C = Returned result_route
  /\ exists rd,
       In rd (res_rounds result_route)
       /\ rd_remaining rd = [1; 2; 3]%Z
       /\ StronglySorted Z.le (rd_remaining rd).
Proof.
  assert (H : irvResults [optC; optA; optB] ballots_C
              = Returned result_route) by (vm_compute; reflexivity).
  split; [exact H|].
  eexists. split; [left; reflexivity|]. split; [reflexivity|].
  exact (proj2 (results_sorted [optC; optA; optB] ballots_C) result_route _ H
           (or_introl eq_refl)).
Defined.

(** ** The life of a poll *)

Section PollLife.

Variable trim : string -> string.
Variable saves : Poll -> Poll -> bool.

Lemma update_keeps_link poll title description status draw :
  has_shareLink poll = true ->
  poll_shareLink (ans_poll (update_poll trim saves poll title description status
                                        draw))
  = poll_shareLink poll.
Proof.
  intros Hl. unfold update_poll, saved.
  destruct (String.eqb (poll_status poll) closed); [reflexivity|].
  destruct title as [| |t]; [| |destruct (truthy t)];
    (destruct description as [| |d];
     (destruct status as [| |st];
        [destruct (saves _ _); reflexivity
        |destruct (saves _ _); reflexivity|];
      destruct (truthy st); [|destruct (saves _ _); reflexivity];
      destruct (negb (existsb (String.eqb st) [draft; published; closed]));
        [reflexivity|];
      destruct (saves _ _); [|reflexivity];
      unfold has_shareLink in *; simpl in *;
      destruct (String.eqb st published); simpl; [|reflexivity];
      rewrite Hl; reflexivity)).
Qed.

Lemma handle_keeps_link poll req :
  has_shareLink poll = true ->
  poll_shareLink (ans_poll (handle trim saves poll req)) = poll_shareLink poll.
Proof.
  intros Hl. destruct req as [t d s draw|]; simpl.
  - now apply update_keeps_link.
  - unfold close_poll, saved.
    destruct (String.eqb (poll_status poll) closed); [reflexivity|].
    destruct (saves _ _); reflexivity.
Qed.

Ltac body_fields title description :=
  destruct title as [| |?t]; [| |destruct (truthy t)];
  destruct description as [| |?d].

Lemma update_status poll title description status draw :
  let poll' := ans_poll (update_poll trim saves poll title description status draw) in
  poll_status poll' = poll_status poll
  /\ poll_shareLink poll' = poll_shareLink poll
  \/ exists st, status = Str st
                /\ In st [draft; published; closed]
                /\ poll_status poll <> closed
                /\ poll_status poll' = st
                /\ (st = published ->
                    truthy draw = true -> has_shareLink poll' = true)
                /\ (st <> published ->
                    poll_shareLink poll' = poll_shareLink poll).
Proof.
  destruct poll as [pt pd ps pl]. unfold update_poll, saved.
  cbn [poll_status].
  destruct (String.eqb_spec ps closed) as [|Hnc]; [left; now split|].
  destruct status as [| |st].
  1,2: body_fields title description; destruct (saves _ _); left; split;
    reflexivity.
  destruct (truthy st).
  2: body_fields title description; destruct (saves _ _); left; split;
    reflexivity.
  destruct (existsb (String.eqb st) [draft; published; closed]) eqn:Ev.
  2: body_fields title description; left; split; reflexivity.
  cbn [negb].
  destruct (saves _ _); [|left; split; reflexivity].
  right. exists st. split; [reflexivity|]. split.
  { apply existsb_exists in Ev. destruct Ev as (x & Hx & Ex).
    apply String.eqb_eq in Ex. now subst. }
  split; [assumption|].
  unfold generateShareLink, has_shareLink.
  body_fields title description;
    (destruct (String.eqb_spec st published) as [Ep|Ep];
     [destruct pl as [l|]; [destruct (truthy l) eqn:Et|]|];
     cbn; rewrite ?Et; cbn; rewrite ?Et;
     (split; [reflexivity|]);
     split; intros; (reflexivity || congruence || assumption)).
Qed.

(** X17. A closed poll is closed for good: every update and every close
    request on it is answered with 400, and after any sequence of
    requests the poll is stored as it was. *)
Theorem closed_is_final (poll : Poll) (reqs : list request) :
  poll_status poll = closed ->
  after trim saves poll reqs = poll
  /\ forall req, ans_code (handle trim saves poll req) = 400
                 /\ ans_error (handle trim saves poll req) <> None.
Proof.
  intros Hc.
  assert (H1 : forall req, handle trim saves poll req
                           = {| ans_code := 400;
                                ans_error := ans_error (handle trim saves poll req);
                                ans_poll := poll |}
                           /\ ans_error (handle trim saves poll req) <> None).
  { intros [t d s draw|]; simpl.
    - unfold update_poll. rewrite Hc. simpl. split; [reflexivity|discriminate].
    - unfold close_poll. rewrite Hc. simpl. split; [reflexivity|discriminate]. }
  split.
  - unfold after. induction reqs as [|req reqs IH]; simpl; [reflexivity|].
    destruct (H1 req) as [-> _]. exact IH.
  - intros req. destruct (H1 req) as [-> H]. split; [reflexivity|exact H].
Qed.

(** X18. The share link of a poll never changes once it is set: whatever
    requests follow, and whether the store takes or rejects their saves,
    the stored link stays the same. *)
Theorem shareLink_is_permanent (poll : Poll) (reqs : list request) :
  has_shareLink poll = true ->
  poll_shareLink (after trim saves poll reqs) = poll_shareLink poll.
Proof.
  unfold after. revert poll.
  induction reqs as [|req reqs IH]; intros poll Hl; simpl; [reflexivity|].
  pose proof (handle_keeps_link poll req Hl) as Hk.
  rewrite IH; [assumption|].
  unfold has_shareLink in *. now rewrite Hk.
Qed.

Lemma handle_ok poll req :
  poll_ok poll ->
  (forall t d s draw, req = Update t d s draw -> truthy draw = true) ->
  poll_ok (ans_poll (handle trim saves poll req)).
Proof.
  intros [Hs Hl] Hd. destruct req as [t d s draw|]; simpl.
  - destruct (update_status poll t d s draw)
      as [[Es El]|(st & -> & Hin & Hnc & Est & Hp & Hn)].
    + split; [now rewrite Es|]. intros E. rewrite Es in E.
      unfold has_shareLink in *. rewrite El. auto.
    + split; [now rewrite Est|]. intros E. rewrite Est in E.
      apply Hp; [assumption|]. now apply (Hd t d (Str st) draw).
  - unfold close_poll, saved.
    destruct (String.eqb_spec (poll_status poll) closed); simpl.
    + now split.
    + destruct (saves _ _); simpl; [|now split].
      split; [right; right; now left|]. discriminate.
Qed.

(** X19. Every stored poll has one of the three statuses and, while it is
    published, a share link: what holds of a poll holds of it after any
    sequence of requests. *)
Theorem published_polls_have_links (poll : Poll) (reqs : list request) :
  poll_ok poll -> draws_nonempty reqs ->
  poll_ok (after trim saves poll reqs).
Proof.
  unfold after. revert poll.
  induction reqs as [|req reqs IH]; intros poll Hok Hd; simpl; [assumption|].
  apply IH.
  - apply handle_ok; [assumption|]. intros t d s draw ->.
    apply (Hd t d s draw). now left.
  - intros t d s draw Hin. apply (Hd t d s draw). now right.
Qed.

End PollLife.

Lemma closed_is_final_witness :
  poll_status poll_closed = closed
  /\ after (fun s => s) title_notEmpty poll_closed requests_republish
     = poll_closed.
Proof.
  split; [reflexivity|].
  exact (proj1 (closed_is_final (fun s => s) title_notEmpty poll_closed
                               requests_republish eq_refl)).
Defined.

Lemma shareLink_is_permanent_witness :
  has_shareLink poll_published = true
  /\ poll_shareLink (after (fun s => s) title_notEmpty poll_published
                           requests_republish)
     = poll_shareLink poll_published.
Proof.
  split; [reflexivity|].
  exact (shareLink_is_permanent (fun s => s) title_notEmpty poll_published
                                requests_republish eq_refl).
Defined.

Lemma published_polls_have_links_witness :
  poll_ok poll_draft
  /\ draws_nonempty requests_publish
  /\ poll_ok (after (fun s => s) title_notEmpty poll_draft requests_publish).
Proof.
  assert (H1 : poll_ok poll_draft).
  { split; [now left|discriminate]. }
  assert (H2 : draws_nonempty requests_publish).
  { intros t d s draw [[= <- <- <- <-]|[]]. reflexivity. }
  split; [exact H1|]. split; [exact H2|].
  exact (published_polls_have_links (fun s => s) title_notEmpty _ _ H1 H2).
Defined.

(** * [src/frontend/src/components/PollResults.jsx] *)

Lemma map_or_throw_None {A B} (f : A -> option B) (xs : list A) :
  map_or_throw f xs = None <-> exists x, In x xs /\ f x = None.
Proof.
  induction xs as [|x xs IH]; simpl.
  - split; [discriminate|]. intros (x & [] & _).
  - destruct (f x) as [y|] eqn:E.
    + destruct (map_or_throw f xs) as [ys|].
      * split; [discriminate|]. intros (x' & [<-|Hin] & Hx); [congruence|].
        assert (H : Some ys = None) by (apply IH; eauto). discriminate H.
      * split; [|reflexivity]. intros _.
        destruct (proj1 IH eq_refl) as (x' & Hin & Hx). eauto.
    + split; [|reflexivity]. intros _. eauto.
Qed.

Lemma client_ballot_None ballot :
  client_ballot ballot = None
  <-> exists r, In r (rankings ballot) /\ pollOption r = None.
Proof.
  unfold client_ballot.
  destruct (map_or_throw client_ranking (rankings ballot)) as [rs|] eqn:E.
  - split; [discriminate|]. intros (r & Hin & Hr).
    assert (map_or_throw client_ranking (rankings ballot) = None);
      [|congruence].
    apply map_or_throw_None. exists r. split; [assumption|].
    unfold client_ranking. now rewrite Hr.
  - split; [|reflexivity]. intros _. apply map_or_throw_None in E.
    destruct E as (r & Hin & Hr). exists r. split; [assumption|].
    unfold client_ranking in Hr. destruct (pollOption r); [discriminate|].
    reflexivity.
Qed.

Lemma client_ballots_None ballots :
  map_or_throw client_ballot ballots = None
  <-> exists b r, In b ballots /\ In r (rankings b) /\ pollOption r = None.
Proof.
  rewrite map_or_throw_None. split.
  - intros (b & Hb & E). apply client_ballot_None in E.
    destruct E as (r & Hr & E). eauto.
  - intros (b & r & Hb & Hr & E). exists b. split; [assumption|].
    apply client_ballot_None. eauto.
Qed.

Lemma client_voteCounts_sorted rem cbs :
  client_voteCounts rem cbs = count_votes rem (map sorted_nballot cbs).
Proof.
  unfold client_voteCounts, count_votes.
  generalize (init_voteCounts rem).
  induction cbs as [|b cbs IH]; intros vc; simpl; [reflexivity|].
  rewrite <- IH. reflexivity.
Qed.

(** One pass of the component's loop: the first option at the minimum
    count goes, alone. *)
Lemma client_body_pass cbs rounds rem :
  1 < length rem ->
  exists e rd,
    client_body cbs rounds rem
    = Continue (rounds ++ [rd]) (remove_ids (map opt_id [e]) rem)
    /\ round_base (map sorted_nballot cbs) rounds rem rd
    /\ rd_majorityWinner rd = None
    /\ rd_tie rd = false
    /\ rd_eliminated rd = Some e
    /\ rd_eliminatedMultiple rd = None
    /\ (NoDup (map opt_id rem) ->
        S (length (remove_ids (map opt_id [e]) rem)) = length rem).
Proof.
  intros Hlen. unfold client_body, push_round.
  rewrite client_voteCounts_sorted.
  destruct (find_has_min_Some (map sorted_nballot cbs) rem Hlen)
    as (e & Hf).
  rewrite Hf. apply find_some in Hf. destruct Hf as [Hin Hmin].
  exists e. eexists. rewrite remove_single_id.
  split; [reflexivity|]. split.
  - apply round_base_record. intros x [<-|[]]. now split.
  - repeat (split; [reflexivity|]). intros Hnd.
    rewrite <- remove_single_id. now apply remove_one_id.
Qed.

(** The invariant of the component's loop. *)
Lemma client_loop options cbs fuel :
  length options <= fuel ->
  exists rounds rem,
    while_loop (client_body cbs) client_finish fuel [] options
    = Returned (client_finish rounds (hd_error rem))
    /\ played (map sorted_nballot cbs) options rounds rem
    /\ length rem <= 1
    /\ Forall (fun rd => exists e, rd_eliminated rd = Some e
                                   /\ rd_eliminatedMultiple rd = None)
              rounds
    /\ (NoDup (map opt_id options) ->
        length rounds + length rem = length options).
Proof.
  intros Hf.
  destruct (while_loop_rule (client_body cbs) client_finish
              (fun rounds rem =>
                 played (map sorted_nballot cbs) options rounds rem
                 /\ Forall (fun rd => exists e,
                                rd_eliminated rd = Some e
                                /\ rd_eliminatedMultiple rd = None) rounds
                 /\ (NoDup (map opt_id options) ->
                     length rounds + length rem = length options))
              (fun res =>
                 exists rounds rem,
                   res = client_finish rounds (hd_error rem)
                   /\ played (map sorted_nballot cbs) options rounds rem
                   /\ length rem <= 1
                   /\ Forall (fun rd => exists e,
                                  rd_eliminated rd = Some e
                                  /\ rd_eliminatedMultiple rd = None) rounds
                   /\ (NoDup (map opt_id options) ->
                       length rounds + length rem = length options)))
    with (fuel := fuel) (rounds := @nil Round) (rem := options)
    as (res & Hres & rounds & rem & -> & H).
  - intros rounds rem (Hp & Hs & Hn) Hl. exists rounds, rem. auto.
  - intros rounds rem (Hp & Hs & Hn) Hl.
    destruct (client_body_pass cbs rounds rem Hl)
      as (e & rd & -> & Hb & Hmw & Ht & He & Hem & Hone).
    assert (Hel : eliminated_options rd = [e]).
    { unfold eliminated_options. now rewrite He, Hem. }
    assert (Hk : NoDup (map opt_id options) -> NoDup (map opt_id rem)).
    { apply kept_from_NoDup. now apply (played_kept _ _ _ _ Hp). }
    split; [split; [|split]|].
    + rewrite <- Hel. apply played_pass; auto.
      * rewrite Hel. discriminate.
      * rewrite Hel. intros Hnd E. specialize (Hone Hnd).
        rewrite E in Hone. cbn [length] in Hone. lia.
    + apply Forall_app. split; [assumption|]. constructor; [eauto|constructor].
    + intros Hnd. specialize (Hn Hnd). specialize (Hone (Hk Hnd)).
      rewrite length_app. cbn [length]. lia.
    + apply remove_ids_shorter; [discriminate|].
      rewrite <- Hel. exact (round_base_incl _ _ _ _ Hb).
  - split; [constructor|]. split; [constructor|]. intros _. reflexivity.
  - assumption.
  - exists rounds, rem. split; [assumption|]. exact H.
Qed.

(** X20. The component's tally returns [null] exactly when there are no
    ballots and throws exactly when there are ballots and one of their
    rankings lacks its nested [pollOption]; on all other inputs it returns
    its rounds and winner. *)
Theorem calculateResults_outcomes options ballots :
  (calculateResults options ballots = ReturnedNull <-> ballots = [])
  /\ (calculateResults options ballots = ClientThrew
      <-> ballots <> []
          /\ exists b r, In b ballots /\ In r (rankings b)
                         /\ pollOption r = None)
  /\ (ballots <> [] -> all_nested ballots ->
      exists res, calculateResults options ballots = ReturnedResults res).
Proof.
  unfold calculateResults.
  destruct ballots as [|b bs].
  { split; [tauto|]. split; [|congruence].
    split; [discriminate|]. intros [H _]. congruence. }
  destruct (map_or_throw client_ballot (b :: bs)) as [cbs|] eqn:E.
  - destruct (client_loop options cbs (length options) (le_n _))
      as (rounds & rem & -> & _).
    split; [split; discriminate|]. split.
    + split; [discriminate|]. intros [_ H].
      apply (proj2 (client_ballots_None (b :: bs))) in H. congruence.
    + eauto.
  - split; [split; discriminate|]. split.
    + split; [|reflexivity]. intros _. split; [discriminate|].
      now apply client_ballots_None.
    + intros _ Hall. apply client_ballots_None in E.
      destruct E as (b' & r & Hb & Hr & E). exact (False_ind _ (Hall b' r Hb Hr E)).
Qed.

Lemma calculateResults_outcomes_witness :
  ballots_C <> []
  /\ (exists b r, In b ballots_C /\ In r (rankings b)
                  /\ pollOption r = None)
  /\ calculateResults [optA; optB; optC] ballots_C = ClientThrew.
Proof.
  assert (H : ballots_C <> []
              /\ exists b r, In b ballots_C /\ In r (rankings b)
                             /\ pollOption r = None).
  { split; [discriminate|]. eexists; eexists.
    split; [left; reflexivity|]. split; [left; reflexivity|reflexivity]. }
  split; [exact (proj1 H)|]. split; [exact (proj2 H)|].
  exact (proj2 (proj1 (proj2
           (calculateResults_outcomes [optA; optB; optC] ballots_C))) H).
Defined.

(** X21. With distinct option ids and every ranking carrying its nested
    [pollOption], the component's tally of [n] options plays exactly
    [n - 1] rounds, each recording exactly one eliminated option, which is
    an option of the poll at the smallest count of its round; every round
    starts from what the round before it left; and the winner is the one
    option of the poll that no round eliminated. *)
Theorem calculateResults_rounds options ballots :
  NoDup (map opt_id options) ->
  options <> [] -> ballots <> [] -> all_nested ballots ->
  exists res w,
    calculateResults options ballots = ReturnedResults res
    /\ length (res_rounds res) = length options - 1
    /\ res_winner res = Some w
    /\ In w options
    /\ (forall rd e, In rd (res_rounds res) -> rd_eliminated rd = Some e ->
                     opt_id e <> opt_id w)
    /\ Forall (fun rd =>
                 exists e c,
                   rd_eliminated rd = Some e
                   /\ rd_eliminatedMultiple rd = None
                   /\ In e options
                   /\ count_in rd (opt_id e) = Some c
                   /\ forall k c', count_in rd k = Some c' -> c <= c')
              (res_rounds res)
    /\ chained options (res_rounds res).
Proof.
  intros Hnd Ho Hb Hall. unfold calculateResults.
  destruct ballots as [|b bs]; [congruence|].
  destruct (map_or_throw client_ballot (b :: bs)) as [cbs|] eqn:E.
  2:{ apply client_ballots_None in E.
      destruct E as (b' & r & Hb' & Hr & E).
      exact (False_ind _ (Hall b' r Hb' Hr E)). }
  destruct (client_loop options cbs (length options) (le_n _))
    as (rounds & rem & -> & Hp & Hl & Hs & Hn).
  specialize (Hn Hnd).
  pose proof (played_nonempty _ _ _ _ Hp Ho Hnd) as Hne.
  destruct rem as [|w [|? ?]]; [congruence| |simpl in Hl; lia].
  exists (client_finish rounds (Some w)), w. simpl in *.
  split; [reflexivity|]. split; [lia|]. split; [reflexivity|].
  assert (Hk := played_kept _ _ _ _ Hp).
  split; [apply (kept_from_incl options [w]); [assumption|now left]|].
  split; [|split].
  - intros rd e Hrd He E'.
    pose proof (played_eliminated_out _ _ _ _ Hp) as Hout.
    rewrite Forall_forall in Hout. apply (Hout rd Hrd e).
    + unfold eliminated_options. rewrite He. now left.
    + simpl. left. now symmetry.
  - pose proof (played_bases _ _ _ _ Hp) as Hbs.
    rewrite Forall_forall in *. intros rd Hrd.
    destruct (Hs rd Hrd) as (e & He & Hem).
    destruct (Hbs rd Hrd) as (rounds0 & rem0 & Hk0 & _ & Hb0).
    assert (Hel : In e (eliminated_options rd)).
    { unfold eliminated_options. rewrite He. now left. }
    destruct (round_base_minimum _ _ _ _ _ Hb0 Hel)
      as (Hin & _ & c & Hc & Hmin).
    exists e, c. repeat split; auto.
    now apply (kept_from_incl options rem0).
  - now apply (played_chain _ _ _ _ Hp).
Qed.

Lemma calculateResults_rounds_witness :
  NoDup (map opt_id [optA; optB; optC])
  /\ [optA; optB; optC] <> [] /\ ballots_C_nested <> []
  /\ all_nested ballots_C_nested
  /\ exists res w,
       calculateResults [optA; optB; optC] ballots_C_nested
       = ReturnedResults res
       /\ length (res_rounds res) = 2
       /\ res_winner res = Some w
       /\ In w [optA; optB; optC].
Proof.
  assert (Hall : all_nested ballots_C_nested).
  { intros b r Hb Hr.
    repeat (destruct Hb as [<-|Hb];
            [repeat (destruct Hr as [<-|Hr]; [discriminate|]);
             destruct Hr|]).
    destruct Hb. }
  split; [exact distinct_ABC|]. split; [discriminate|].
  split; [discriminate|]. split; [exact Hall|].
  destruct (calculateResults_rounds [optA; optB; optC] ballots_C_nested
              distinct_ABC) as (res & w & H1 & H2 & H3 & H4 & _);
    [discriminate|discriminate|exact Hall|].
  exists res, w. auto.
Defined.

(** * Votes from round to round *)

Lemma in_race_ids rem k :
  in_race rem k = true <-> In k (map opt_id rem).
Proof.
  rewrite in_race_In. split.
  - intros (o & Ho & <-). now apply in_map.
  - intros H. apply in_map_iff in H. destruct H as (o & <- & Ho). eauto.
Qed.

(** A ballot whose vote is with an option stays with it for as long as
    the option stays in the race. *)
Lemma first_valid_choice_stays rem rem' rs k :
  (forall j, in_race rem' j = true -> in_race rem j = true) ->
  first_valid_choice rem rs = Some k ->
  in_race rem' k = true ->
  first_valid_choice rem' rs = Some k.
Proof.
  intros Hsub. induction rs as [|r rs IH]; simpl; [discriminate|].
  destruct (nr_pollOptionId r) as [j|]; [|exact IH].
  destruct (in_race rem j) eqn:E.
  - intros [= ->] Hk. now rewrite Hk.
  - intros H Hk. destruct (in_race rem' j) eqn:E'.
    + apply Hsub in E'. congruence.
    + now apply IH.
Qed.

Lemma filter_length_mono {A} (f g : A -> bool) (l : list A) :
  (forall x, f x = true -> g x = true) ->
  length (filter f l) <= length (filter g l).
Proof.
  intros H. induction l as [|x l IH]; simpl; [lia|].
  destruct (f x) eqn:E.
  - rewrite (H x E). simpl. lia.
  - destruct (g x); simpl; lia.
Qed.

Lemma count_votes_grows nbs rem rem' k c c' :
  (forall j, in_race rem' j = true -> in_race rem j = true) ->
  in_race rem' k = true ->
  obj_get k (count_votes rem nbs) = Some c ->
  obj_get k (count_votes rem' nbs) = Some c' ->
  c <= c'.
Proof.
  intros Hsub Hk Hc Hc'.
  rewrite count_votes_first_choice in Hc by now apply Hsub.
  rewrite count_votes_first_choice in Hc' by assumption.
  injection Hc as <-. injection Hc' as <-.
  apply filter_length_mono. intros b. unfold chooses.
  destruct (first_valid_choice rem (nb_rankings b)) as [j|] eqn:E;
    [|discriminate].
  intros Ej. apply Z.eqb_eq in Ej. subst j.
  rewrite (first_valid_choice_stays rem rem' _ k Hsub E Hk).
  apply Z.eqb_refl.
Qed.

(** X10. An option that is still in the race in the next round has at least
    as many votes there as it had: votes are only ever added to the
    options that stay. *)
Theorem survivors_keep_their_votes options ballots res i rd1 rd2 k c1 c2 :
  tally_returns options ballots res ->
  nth_error (res_rounds res) i = Some rd1 ->
  nth_error (res_rounds res) (S i) = Some rd2 ->
  In k (rd_remaining rd2) ->
  count_in rd1 k = Some c1 ->
  count_in rd2 k = Some c2 ->
  c1 <= c2.
Proof.
  intros Hr H1 H2 Hk Hc1 Hc2.
  destruct (tally_chained _ _ _ Hr) as [_ Hch].
  destruct (Hch i rd1 rd2 H1 H2) as [Hrem _].
  destruct (tally_rounds_sound _ _ _ rd1 Hr (nth_error_In _ _ H1))
    as (_ & _ & [(rem1 & _ & Hv1 & Hr1 & _) _]).
  destruct (tally_rounds_sound _ _ _ rd2 Hr (nth_error_In _ _ H2))
    as (_ & _ & [(rem2 & _ & Hv2 & Hr2 & _) _]).
  unfold count_in in *. rewrite Hv1 in Hc1. rewrite Hv2 in Hc2.
  apply (count_votes_grows (normalizedBallots ballots) rem1 rem2 k);
    try assumption.
  - intros j Hj. apply in_race_ids. apply in_race_ids in Hj.
    rewrite <- Hr1. rewrite <- Hr2, Hrem in Hj.
    unfold remaining_after in Hj. apply filter_In in Hj. apply Hj.
  - apply in_race_ids. now rewrite <- Hr2.
Qed.

Lemma survivors_keep_their_votes_witness :
  tally_returns [optA; optB; optC; optD] ballots_four_way result_four_way
  /\ exists rd1 rd2,
       nth_error (res_rounds result_four_way) 0 = Some rd1
       /\ nth_error (res_rounds result_four_way) 1 = Some rd2
       /\ In 2%Z (rd_remaining rd2)
       /\ count_in rd1 2 = Some 1
       /\ count_in rd2 2 = Some 2
       /\ 1 <= 2.
Proof.
  split; [exact returns_four_way|].
  eexists. eexists. split; [reflexivity|]. split; [reflexivity|].
  split; [left; reflexivity|]. split; [reflexivity|]. split; [reflexivity|].
  exact (survivors_keep_their_votes _ _ _ 0 _ _ 2%Z 1 2 returns_four_way
           eq_refl eq_refl (or_introl eq_refl) eq_refl eq_refl).
Defined.

(** ** The counters of a round *)

(** X11. Every round is played by at least two options, and its
    [voteCounts] have one counter for each id of its [remaining] list and
    none for any other id: looking up an id that is out of the race gives
    [undefined]. *)
Theorem counters_are_the_remaining options ballots res rd :
  tally_returns options ballots res ->
  In rd (res_rounds res) ->
  NoDup (obj_keys (rd_voteCounts rd))
  /\ 2 <= length (rd_remaining rd)
  /\ forall k, count_in rd k <> None <-> In k (rd_remaining rd).
Proof.
  intros Hr Hin.
  destruct (tally_rounds_sound _ _ _ rd Hr Hin)
    as (_ & _ & [(rem & _ & Hv & Hrem & Hlen) _]).
  rewrite Hv, Hrem, length_map. split; [apply count_votes_NoDup|].
  split; [assumption|]. intros k. unfold count_in. rewrite Hv.
  rewrite <- in_race_ids.
  rewrite <- (count_votes_key rem (normalizedBallots ballots) k).
  destruct (obj_get k (count_votes rem (normalizedBallots ballots))) eqn:E.
  - apply obj_get_Some_key in E. split; [auto|discriminate].
  - apply obj_get_None in E. split; [congruence|contradiction].
Qed.

Lemma counters_are_the_remaining_witness :
  tally_returns [optA; optB; optC; optD] ballots_four_way result_four_way
  /\ exists rd,
       nth_error (res_rounds result_four_way) 1 = Some rd
       /\ rd_remaining rd = [2; 3; 4]%Z
       /\ (count_in rd 1 <> None <-> In 1%Z (rd_remaining rd)).
Proof.
  split; [exact returns_four_way|].
  eexists. split; [reflexivity|]. split; [reflexivity|].
  exact (proj2 (proj2 (counters_are_the_remaining _ _ _ _ returns_four_way
                         (or_intror (or_introl eq_refl)))) 1%Z).
Defined.

(** ** Normalisation *)

(** X12. Normalising a ballot loses no ranking and adds none, puts the
    rankings in ascending order of rank, and leaves a ballot whose
    rankings are in that order already as it is. *)
Theorem normalize_ballot_sorts ballot :
  Permutation (nb_rankings (normalize_ballot ballot))
              (map normalize_ranking (rankings ballot))
  /\ Sorted rank_le (nb_rankings (normalize_ballot ballot))
  /\ (Sorted raw_rank_le (rankings ballot) ->
      nb_rankings (normalize_ballot ballot)
      = map normalize_ranking (rankings ballot)).
Proof.
  unfold normalize_ballot. simpl. split; [|split].
  - apply Permutation_map, sort_by_rank_perm.
  - apply normalize_Sorted, sort_by_rank_Sorted.
  - intros Hs. rewrite sort_by_rank_is_sort_by.
    now rewrite (sort_by_sorted rank).
Qed.

Lemma normalize_ballot_sorts_witness :
  Sorted raw_rank_le (rankings (ranked 1 [3; 1; 2]%Z))
  /\ nb_rankings (normalize_ballot (ranked 1 [3; 1; 2]%Z))
     = map normalize_ranking (rankings (ranked 1 [3; 1; 2]%Z)).
Proof.
  assert (H : Sorted raw_rank_le (rankings (ranked 1 [3; 1; 2]%Z))).
  { simpl. repeat constructor; unfold raw_rank_le; simpl; lia. }
  split; [exact H|].
  exact (proj2 (proj2 (normalize_ballot_sorts (ranked 1 [3; 1; 2]%Z))) H).
Defined.

(** * The two copies of [calculateIRV] compared *)

Lemma same_record_refl rd : same_record rd rd.
Proof. unfold same_record. repeat split; auto. Qed.

Lemma same_records_refl rounds : Forall2 same_record rounds rounds.
Proof.
  induction rounds as [|rd l IH]; constructor;
    [apply same_record_refl|exact IH].
Qed.

Lemma same_verdict_refl r : same_verdict r r.
Proof.
  unfold same_verdict. repeat split; try reflexivity.
  apply same_records_refl.
Qed.

Lemma same_verdict_last tv t rounds rd1 rd2 w :
  round_tally rd1 = round_tally rd2 ->
  same_verdict (finish tv t (rounds ++ [rd1]) w)
               (finish tv t (rounds ++ [rd2]) w).
Proof.
  intros H. unfold same_verdict. simpl.
  rewrite !removelast_last, !map_app. simpl. rewrite H.
  repeat split; try reflexivity. apply same_records_refl.
Qed.

(** The two counters of a round of two options. *)
Lemma two_option_values nbs (a b : PollOption) ca cb :
  opt_id a <> opt_id b ->
  obj_get (opt_id a) (count_votes [a; b] nbs) = Some ca ->
  obj_get (opt_id b) (count_votes [a; b] nbs) = Some cb ->
  Object_values (count_votes [a; b] nbs) = [ca; cb]
  \/ Object_values (count_votes [a; b] nbs) = [cb; ca].
Proof.
  intros Hne Ha Hb.
  assert (Hp : Permutation (obj_keys (count_votes [a; b] nbs))
                           [opt_id a; opt_id b]).
  { apply NoDup_Permutation.
    - apply count_votes_NoDup.
    - constructor; [simpl; intuition congruence|].
      constructor; [simpl; tauto|constructor].
    - intros k. rewrite count_votes_key, in_race_In. simpl. split.
      + intros (o & [<-|[<-|[]]] & <-); auto.
      + intros [<-|[<-|[]]]; eauto. }
  unfold obj_keys, Object_values in *.
  destruct (count_votes [a; b] nbs) as [|[k0 v0] [|[k1 v1] [|x o]]];
    try (apply Permutation_length in Hp; simpl in Hp; discriminate).
  simpl in *. apply Permutation_length_2 in Hp.
  destruct Hp as [[-> ->]|[-> ->]].
  - rewrite Z.eqb_refl in Ha.
    destruct (Z.eqb_spec (opt_id a) (opt_id b)); [contradiction|].
    rewrite Z.eqb_refl in Hb. left. congruence.
  - rewrite Z.eqb_refl in Hb.
    destruct (Z.eqb_spec (opt_id b) (opt_id a)); [congruence|].
    rewrite Z.eqb_refl in Ha. right. congruence.
Qed.

Section Copies.

Variable nbs : list NBallot.
Let tv := length nbs.
Let t := threshold_of (length nbs).

Lemma two_option_bodies rounds (a b : PollOption) :
  opt_id a <> opt_id b ->
  match BackendIrv.body nbs tv t rounds [a; b],
        Part007.body nbs tv t rounds [a; b] with
  | Return r1, Return r2 => same_verdict r1 r2
  | Continue rs1 rem1, Return r2 =>
      length rem1 <= 1 /\ finish tv t rs1 (hd_error rem1) = r2
  | _, _ => False
  end.
Proof.
  intros Hne.
  destruct (count_votes_get [a; b] nbs a (or_introl eq_refl)) as (ca & Ha).
  destruct (count_votes_get [a; b] nbs b (or_intror (or_introl eq_refl)))
    as (cb & Hb).
  assert (Hmaj : t <= ca -> t <= cb -> False).
  { intros H1 H2. apply Hne.
    exact (count_votes_majority_unique _ _ _ _ _ _ Ha Hb H1 H2). }
  pose proof (two_option_values nbs a b ca cb Hne Ha Hb) as Hv.
  destruct (Nat.eq_dec ca cb) as [<-|Hcc].
  - (* both copies declare the tie *)
    assert (Hv' : Object_values (count_votes [a; b] nbs) = [ca; ca])
      by (destruct Hv; assumption).
    unfold BackendIrv.body, Part007.body.
    change (2 <? length [a; b]) with false.
    change (length [a; b] =? 2) with true. cbv iota.
    rewrite Hv'. simpl find. unfold has_majority. rewrite Ha, Hb.
    simpl ge_opt.
    destruct (Nat.leb_spec t ca) as [L|L]; [exfalso; auto|].
    simpl. rewrite Nat.min_id, Nat.eqb_refl. simpl.
    apply same_verdict_refl.
  - rewrite (Part007_two_option_round nbs tv t rounds a b ca cb Hne Ha Hb Hcc).
    unfold BackendIrv.body.
    simpl find. unfold has_majority. rewrite Ha, Hb. simpl ge_opt.
    destruct (Nat.leb_spec t ca) as [La|La].
    + (* a has the majority *)
      destruct (Nat.ltb_spec ca cb) as [Hlt|Hge]; [exfalso; apply Hmaj; lia|].
      unfold push_round. apply same_verdict_last. reflexivity.
    + destruct (Nat.leb_spec t cb) as [Lb|Lb].
      * destruct (Nat.ltb_spec ca cb) as [Hlt|Hge]; [|lia].
        unfold push_round. apply same_verdict_last. reflexivity.
      * (* no majority: the lower count goes and the loop ends *)
        assert (Hm : Math_min (Object_values (count_votes [a; b] nbs))
                     = Some (Nat.min ca cb)).
        { destruct Hv as [-> | ->]; simpl; [reflexivity|].
          now rewrite Nat.min_comm. }
        assert (Hs : all_same (Object_values (count_votes [a; b] nbs))
                       (Some (Nat.min ca cb)) = false).
        { destruct Hv as [-> | ->]; simpl;
            destruct (Nat.eqb_spec ca (Nat.min ca cb));
            destruct (Nat.eqb_spec cb (Nat.min ca cb));
            try reflexivity; lia. }
        rewrite Hm, Hs. cbv beta iota zeta. simpl andb. cbv iota.
        unfold remove_ids. simpl filter. unfold has_min.
        rewrite Ha, Hb. unfold strict_eq_min.
        destruct (Nat.ltb_spec ca cb) as [Hlt|Hge].
        -- rewrite Nat.min_l by lia. rewrite Nat.eqb_refl.
           destruct (Nat.eqb_spec cb ca) as [|_]; [lia|].
           simpl. rewrite Z.eqb_refl. simpl.
           destruct (Z.eqb_spec (opt_id a) (opt_id b)); [contradiction|].
           simpl. split; [lia|reflexivity].
        -- rewrite Nat.min_r by lia. rewrite Nat.eqb_refl.
           destruct (Nat.eqb_spec ca cb) as [|_]; [lia|].
           simpl. rewrite Z.eqb_refl. simpl.
           destruct (Z.eqb_spec (opt_id b) (opt_id a)); [congruence|].
           simpl. split; [lia|reflexivity].
Qed.

(** With three or more options in the race the two copies differ only
    when all the counts are the same. *)
Lemma many_option_bodies rounds rem :
  2 < length rem ->
  match BackendIrv.body nbs tv t rounds rem,
        Part007.body nbs tv t rounds rem with
  | Return r1, Return r2 => r1 = r2
  | Continue rs1 rem1, Continue rs2 rem2 =>
      rs1 = rs2 /\ rem1 = rem2 /\ kept_from rem rem1
  | Return r1, Continue _ _ => res_tiedOptions r1 = Some rem
  | _, Throw => True
  | _, _ => False
  end.
Proof.
  intros Hlen. unfold BackendIrv.body, Part007.body.
  assert (H2 : (2 <? length rem) = true) by (apply Nat.ltb_lt; lia).
  assert (H1 : (1 <? length rem) = true) by (apply Nat.ltb_lt; lia).
  assert (H0 : (length rem =? 2) = false) by (apply Nat.eqb_neq; lia).
  rewrite H2, H1, H0. cbv zeta.
  destruct (find _ rem) as [mw|]; [reflexivity|].
  rewrite !andb_true_r. cbv iota.
  destruct (all_same _ _).
  - destruct (reduce_lowest_id _); [reflexivity|exact I].
  - simpl andb. cbv iota.
    destruct (filter _ rem) as [|e es] eqn:E;
      [destruct (length _ =? 0); exact I|].
    rewrite <- E.
    destruct (length (remove_ids _ rem) =? 0); [reflexivity|].
    split; [reflexivity|]. split; [reflexivity|].
    unfold remove_ids. eexists. reflexivity.
Qed.

Lemma copies_loop fuel rounds rem r1 r2 :
  NoDup (map opt_id rem) ->
  while_loop (BackendIrv.body nbs tv t) (finish tv t) fuel rounds rem
  = Returned r1 ->
  while_loop (Part007.body nbs tv t) (finish tv t) fuel rounds rem
  = Returned r2 ->
  (forall tied, res_tiedOptions r1 = Some tied -> length tied <= 2) ->
  same_verdict r1 r2.
Proof.
  revert rounds rem. induction fuel as [|fuel IH]; intros rounds rem Hnd;
    simpl; destruct (Nat.leb_spec (length rem) 1) as [Hl|Hl];
    try (intros [= <-] [= <-] _; apply same_verdict_refl);
    try discriminate.
  destruct (Nat.eq_dec (length rem) 2) as [E2|E2].
  - destruct rem as [|a [|b [|c rem]]]; try discriminate.
    assert (Hne : opt_id a <> opt_id b).
    { inversion Hnd as [|? ? Ha _]; subst. intros E. apply Ha.
      left. now symmetry. }
    pose proof (two_option_bodies rounds a b Hne) as Hb.
    destruct (BackendIrv.body nbs tv t rounds [a; b]) as [r|rs1 rem1|];
      destruct (Part007.body nbs tv t rounds [a; b]) as [r'|rs2 rem2|];
      try contradiction.
    + intros [= <-] [= <-] _. exact Hb.
    + destruct Hb as [Hl1 <-]. intros H [= <-] _.
      destruct fuel; simpl in H;
        destruct (Nat.leb_spec (length rem1) 1); try lia;
        injection H as <-; apply same_verdict_refl.
  - pose proof (many_option_bodies rounds rem ltac:(lia)) as Hb.
    destruct (BackendIrv.body nbs tv t rounds rem) as [r|rs1 rem1|];
      destruct (Part007.body nbs tv t rounds rem) as [r'|rs2 rem2|];
      try contradiction; try discriminate.
    + intros [= <-] [= <-] _. subst r'. apply same_verdict_refl.
    + intros [= <-] _ Htie. specialize (Htie rem Hb). lia.
    + destruct Hb as (<- & <- & Hk). apply IH.
      exact (kept_from_NoDup _ _ Hk Hnd).
Qed.

End Copies.

(** X22. The two copies reach the same verdict unless the tally of
    [src/backend/utils/irv.js] ends in a tie among three or more options:
    with distinct option ids their results have the same winner, tie
    flag, tied options, error and totals; their rounds before the last
    agree in number, counters, percentages, remaining ids, eliminated
    option, majority winner and tie flag, and in the options eliminated
    together when there are several (where there are none, one copy
    writes [null] and the other [undefined] or no field); and their last
    rounds have the same number, counters, percentages, remaining ids
    and tie flag. *)
Theorem copies_agree options ballots r1 r2 :
  NoDup (map opt_id options) ->
  BackendIrv.calculateIRV options ballots = Returned r1 ->
  Part007.calculateIRV options ballots = Returned r2 ->
  (forall tied, res_tiedOptions r1 = Some tied -> length tied <= 2) ->
  same_verdict r1 r2.
Proof.
  intros Hnd. unfold BackendIrv.calculateIRV, Part007.calculateIRV.
  destruct options as [|o os]; [intros [= <-] [= <-] _; apply same_verdict_refl|].
  destruct ballots as [|b bs]; [intros [= <-] [= <-] _; apply same_verdict_refl|].
  cbv zeta. rewrite copy_options_id. apply copies_loop. exact Hnd.
Qed.

Lemma copies_agree_witness :
  same_verdict (returned (BackendIrv.calculateIRV [optA; optB] ballots_A))
               (returned (Part007.calculateIRV [optA; optB] ballots_A)).
Proof.
  apply (copies_agree [optA; optB] ballots_A).
  - repeat constructor; simpl; intuition discriminate.
  - vm_compute. reflexivity.
  - vm_compute. reflexivity.
  - intros tied H. vm_compute in H. discriminate H.
Defined.

(** * Votes of the ballots as supplied *)

Lemma top_ranking_None ids rs :
  top_ranking ids rs = None
  <-> forall r, In r rs -> refers_to ids r = false.
Proof.
  induction rs as [|x rs IH]; simpl; [tauto|].
  destruct (refers_to ids x) eqn:Ex.
  - split.
    + destruct (top_ranking ids rs) as [f|];
        [destruct (rank x <=? rank f)%Z|]; discriminate.
    + intros H. specialize (H x (or_introl eq_refl)). congruence.
  - rewrite IH. split.
    + intros H r [<-|Hr]; auto.
    + intros H r Hr. auto.
Qed.

(** [top_ranking] is a ranking of the ballot that refers to a listed id
    and has the least rank among those that do. *)
Lemma top_ranking_least ids rs r :
  top_ranking ids rs = Some r ->
  In r rs /\ refers_to ids r = true
  /\ forall x, In x rs -> refers_to ids x = true -> (rank r <= rank x)%Z.
Proof.
  revert r. induction rs as [|x rs IH]; simpl; [discriminate|].
  intros r. destruct (refers_to ids x) eqn:Ex.
  - destruct (top_ranking ids rs) as [f|] eqn:Et.
    + destruct (IH f eq_refl) as (Hf & Rf & Lf).
      destruct (Z.leb_spec (rank x) (rank f)); intros [= <-].
      * split; [now left|]. split; [assumption|].
        intros y [<-|Hy] Ry; [lia|]. specialize (Lf y Hy Ry). lia.
      * split; [now right|]. split; [assumption|].
        intros y [<-|Hy] Ry; [lia|auto].
    + intros [= <-]. split; [now left|]. split; [assumption|].
      intros y [<-|Hy] Ry; [lia|].
      rewrite (proj1 (top_ranking_None ids rs) Et y Hy) in Ry.
      discriminate.
  - intros H. destruct (IH r H) as (Hr & Rr & Lr).
    split; [now right|]. split; [assumption|].
    intros y [<-|Hy] Ry; [congruence|auto].
Qed.

Lemma ranks_remaining_option_top ids ballot :
  ranks_remaining_option ids ballot
  <-> top_ranking ids (rankings ballot) <> None.
Proof.
  unfold ranks_remaining_option. split.
  - intros (r & k & Hr & Hk & Hin) H.
    pose proof (proj1 (top_ranking_None _ _) H r Hr) as E.
    unfold refers_to in E. rewrite Hk in E.
    apply includes_In in Hin. congruence.
  - intros H. destruct (top_ranking ids (rankings ballot)) as [r|] eqn:E;
      [|contradiction].
    destruct (top_ranking_least _ _ _ E) as (Hr & R & _).
    unfold refers_to in R. destruct (ranked_option r) as [k|] eqn:Ek;
      [|discriminate].
    exists r, k. split; [assumption|]. split; [assumption|].
    now apply includes_In.
Qed.

(** *** The scan of the sorted rankings finds the top ranking *)

Section Scan.

Variable valid : RawRanking -> bool.

Lemma find_insert_by_rank r l :
  Sorted raw_rank_le l ->
  find valid (insert_by_rank r l)
  = if valid r then
      match find valid l with
      | Some f => if (rank r <=? rank f)%Z then Some r else Some f
      | None => Some r
      end
    else find valid l.
Proof.
  intros Hs. apply Sorted_StronglySorted in Hs;
    [|intros a b c; unfold raw_rank_le; lia].
  induction Hs as [|x l Hs IH Hx]; simpl.
  - destruct (valid r); reflexivity.
  - destruct (Z.leb_spec (rank r) (rank x)) as [Hle|Hgt]; simpl.
    + destruct (valid r) eqn:Er; [|reflexivity].
      destruct (valid x) eqn:Ex.
      * destruct (Z.leb_spec (rank r) (rank x)); [reflexivity|lia].
      * destruct (find valid l) as [f|] eqn:Ef; [|reflexivity].
        apply find_some in Ef. destruct Ef as [Hf _].
        rewrite Forall_forall in Hx. specialize (Hx f Hf).
        unfold raw_rank_le in Hx.
        destruct (Z.leb_spec (rank r) (rank f)); [reflexivity|lia].
    + destruct (valid x) eqn:Ex.
      * destruct (valid r); [|reflexivity].
        destruct (Z.leb_spec (rank r) (rank x)); [lia|reflexivity].
      * exact IH.
Qed.

End Scan.

Lemma top_ranking_sorted ids rs :
  find (refers_to ids) (sort_by_rank rs) = top_ranking ids rs.
Proof.
  induction rs as [|r rs IH]; simpl; [reflexivity|].
  rewrite find_insert_by_rank by apply sort_by_rank_Sorted.
  now rewrite IH.
Qed.

(** Where no nested id is 0 the code resolves a ranking to the option it
    refers to. *)
Lemma resolve_id_ranked r :
  (forall o, pollOption r = Some o -> opt_id o <> 0%Z) ->
  resolve_id r = ranked_option r.
Proof.
  unfold resolve_id, ranked_option. intros H.
  destruct (pollOption r) as [o|]; [|reflexivity].
  destruct (Z.eqb_spec (opt_id o) 0) as [E|_]; [|reflexivity].
  now destruct (H o eq_refl).
Qed.

Lemma includes_in_race rem k :
  includes (map opt_id rem) k = in_race rem k.
Proof.
  unfold includes, in_race. induction rem as [|o rem IH]; simpl;
    [reflexivity|]. now rewrite IH.
Qed.

Lemma first_valid_choice_find rem rs :
  (forall r o, In r rs -> pollOption r = Some o -> opt_id o <> 0%Z) ->
  first_valid_choice rem (map normalize_ranking rs)
  = match find (refers_to (map opt_id rem)) rs with
    | Some r => ranked_option r
    | None => None
    end.
Proof.
  induction rs as [|r rs IH]; simpl; [reflexivity|]. intros H.
  rewrite (resolve_id_ranked r) by (intros o; apply H; now left).
  unfold refers_to at 1. rewrite IH by (intros x o Hx; apply H; now right).
  destruct (ranked_option r) as [k|] eqn:Ek; [|reflexivity].
  rewrite includes_in_race. destruct (in_race rem k); [|reflexivity].
  now rewrite Ek.
Qed.

Lemma first_valid_choice_supplied rem ballot :
  (forall r o, In r (rankings ballot) -> pollOption r = Some o ->
               opt_id o <> 0%Z) ->
  first_valid_choice rem (nb_rankings (normalize_ballot ballot))
  = first_remaining_option (map opt_id rem) ballot.
Proof.
  intros H. unfold normalize_ballot, first_remaining_option. simpl.
  rewrite first_valid_choice_find.
  - now rewrite top_ranking_sorted.
  - intros r o Hr. apply H.
    apply (Permutation_in _ (sort_by_rank_perm _)). exact Hr.
Qed.

Lemma filter_map_length {A B} (f : B -> bool) (g : A -> B) (l : list A) :
  length (filter f (map g l)) = length (filter (fun x => f (g x)) l).
Proof.
  induction l as [|x l IH]; simpl; [reflexivity|].
  destruct (f (g x)); simpl; now rewrite IH.
Qed.

Lemma credits_a_vote_ranks ids ballot :
  credits_a_vote ids ballot = true <-> ranks_remaining_option ids ballot.
Proof.
  rewrite ranks_remaining_option_top.
  unfold credits_a_vote, first_remaining_option.
  destruct (top_ranking ids (rankings ballot)) as [r|] eqn:E.
  - destruct (top_ranking_least _ _ _ E) as (_ & R & _).
    unfold refers_to in R.
    destruct (ranked_option r); [|discriminate].
    split; [discriminate|reflexivity].
  - split; [discriminate|congruence].
Qed.

(** X23. In every round of every result of either copy, as long as no
    ranking carries a nested option of id 0: the counters add up to the
    number of supplied ballots that rank an option of the round's
    [remaining] list, which is at most [totalVotes] and equal to it
    exactly when every supplied ballot ranks such an option; with
    distinct option ids that sum is the sum of [voteCounts[id]] over
    [remaining]; and the counter of each id of the round is the number of
    supplied ballots whose ranking of least rank, among those that refer
    to a remaining option, refers to that id. *)
Theorem supplied_ballots_votes
    (options : list PollOption) (ballots : list Ballot) (res : Result)
    (rd : Round) :
  no_nested_zero ballots ->
  tally_returns options ballots res ->
  In rd (res_rounds res) ->
  let total := list_sum (Object_values (rd_voteCounts rd)) in
  let ids := rd_remaining rd in
  res_totalVotes res = Some (length ballots)
  /\ total = length (filter (credits_a_vote ids) ballots)
  /\ total <= length ballots
  /\ (total = length ballots
      <-> forall b, In b ballots -> ranks_remaining_option ids b)
  /\ (NoDup (map opt_id options) -> sum_over_remaining rd = total)
  /\ forall k, In k ids ->
       count_in rd k = Some (length (filter (first_choice_is ids k) ballots)).
Proof.
  intros Hz Hr Hin total ids.
  destruct (tally_rounds_sound _ _ _ _ Hr Hin) as (_ & Ht & Hs).
  destruct Hs as [(rem & Hk & Hvc & Hrem & _) _].
  assert (Hfirst : forall b, In b ballots ->
            first_valid_choice rem (nb_rankings (normalize_ballot b))
            = first_remaining_option ids b).
  { intros b Hb. unfold ids. rewrite Hrem.
    apply first_valid_choice_supplied. intros r o. now apply Hz. }
  assert (Hsum : total = length (filter (credits_a_vote ids) ballots)).
  { unfold total. rewrite Hvc, count_votes_sum.
    unfold normalizedBallots. rewrite filter_map_length. f_equal.
    apply filter_ext_in. intros b Hb.
    unfold has_choice, credits_a_vote. now rewrite Hfirst. }
  split; [assumption|]. split; [assumption|]. split; [|split; [|split]].
  - rewrite Hsum. apply filter_length_le.
  - rewrite Hsum, filter_length_all. split; intros H b Hb.
    + now apply credits_a_vote_ranks, H.
    + now apply credits_a_vote_ranks, H.
  - intros Hnd. unfold sum_over_remaining, count_in, total.
    rewrite <- values_by_key by (rewrite Hvc; apply count_votes_NoDup).
    apply list_sum_perm, Permutation_map. rewrite Hrem.
    apply NoDup_Permutation.
    + now apply (kept_from_NoDup options).
    + rewrite Hvc. apply count_votes_NoDup.
    + intros k. rewrite Hvc, count_votes_key, in_race_In. split.
      * intros Hi. apply in_map_iff in Hi. destruct Hi as (o & <- & Ho).
        eauto.
      * intros (o & Ho & <-). now apply in_map.
  - intros k Hk'. unfold count_in. rewrite Hvc.
    rewrite count_votes_first_choice
      by (apply in_race_ids; now rewrite <- Hrem).
    f_equal. unfold normalizedBallots. rewrite filter_map_length. f_equal.
    apply filter_ext_in. intros b Hb.
    unfold chooses, first_choice_is. now rewrite Hfirst.
Qed.

Lemma supplied_ballots_votes_witness :
  no_nested_zero ballots_C
  /\ tally_returns [optA; optB; optC] ballots_C result_C
  /\ exists rd,
       In rd (res_rounds result_C)
       /\ list_sum (Object_values (rd_voteCounts rd)) = 4
       /\ length ballots_C = 4
       /\ (forall b, In b ballots_C ->
                     ranks_remaining_option (rd_remaining rd) b)
       /\ count_in rd 1 = Some 2
       /\ length (filter (first_choice_is (rd_remaining rd) 1) ballots_C) = 2
       /\ count_in rd 2 = Some 1.
Proof.
  assert (Hz : no_nested_zero ballots_C).
  { intros b r o Hb Hr Ho.
    repeat (destruct Hb as [<-|Hb]; [simpl in Hr; intuition (subst;
              discriminate)|]).
    destruct Hb. }
  split; [exact Hz|]. split; [exact returns_C|].
  eexists. split; [left; reflexivity|].
  destruct (supplied_ballots_votes _ _ _ _ Hz returns_C (or_introl eq_refl))
    as (_ & _ & _ & Hall & _ & Hc).
  split; [reflexivity|]. split; [reflexivity|].
  split; [exact (proj1 Hall eq_refl)|].
  split; [exact (Hc 1%Z (or_introl eq_refl))|].
  split; [reflexivity|].
  exact (Hc 2%Z (or_intror (or_introl eq_refl))).
Defined.

(** C4. The vote of a ballot for the option of id 0 is lost when its
    ranking names the option by a nested [pollOption].  A ballot that
    ranks that option alone ranks an option of the round, its first
    still-remaining ranked option; yet in both copies the counters of the
    round are 0 and 0 and add up to 0, below [totalVotes], which is 1.  A
    ballot that ranks it first and another option second credits its
    vote to the second.  The same ballots with a bare [pollOptionId] of 0
    are counted for the option of id 0. *)
Theorem nested_zero_vote_lost :
  Forall (fun b => ranks_remaining_option [0; 1]%Z b
                   /\ first_remaining_option [0; 1]%Z b = Some 0%Z)
         (ballots_zero_only ++ ballots_zero_unsorted)
  /\ length ballots_zero_only = 1
  /\ length ballots_zero_unsorted = 1
  /\ Forall (fun call =>
               res_totalVotes (returned call) = Some 1
               /\ map rd_remaining (res_rounds (returned call))
                  = [[0; 1]%Z]
               /\ map rd_voteCounts (res_rounds (returned call))
                  = [[(0%Z, 0); (1%Z, 0)]]
               /\ map (fun rd => list_sum (Object_values (rd_voteCounts rd)))
                      (res_rounds (returned call))
                  = [0])
            [BackendIrv.calculateIRV [optZero; optA] ballots_zero_only;
             Part007.calculateIRV [optZero; optA] ballots_zero_only]
  /\ Forall (fun call =>
               map rd_remaining (res_rounds (returned call)) = [[0; 1]%Z]
               /\ map rd_voteCounts (res_rounds (returned call))
                  = [[(0%Z, 0); (1%Z, 1)]])
            [BackendIrv.calculateIRV [optZero; optA] ballots_zero_unsorted;
             Part007.calculateIRV [optZero; optA] ballots_zero_unsorted]
  /\ Forall (fun call =>
               res_totalVotes (returned call) = Some 1
               /\ map rd_remaining (res_rounds (returned call))
                  = [[0; 1]%Z]
               /\ map rd_voteCounts (res_rounds (returned call))
                  = [[(0%Z, 1); (1%Z, 0)]])
            [BackendIrv.calculateIRV [optZero; optA] ballots_zero_only_bare;
             Part007.calculateIRV [optZero; optA] ballots_zero_only_bare;
             BackendIrv.calculateIRV [optZero; optA]
                                     ballots_zero_unsorted_bare;
             Part007.calculateIRV [optZero; optA]
                                  ballots_zero_unsorted_bare].
Proof.
  split; [|split; [reflexivity|split; [reflexivity|split; [|split]]]].
  - constructor; [|constructor; [|constructor]].
    + split; [|reflexivity].
      exists (nested 0 "Option Zero" 1), 0%Z.
      split; [now left|]. split; [reflexivity|now left].
    + split; [|reflexivity].
      exists (nested 0 "Option Zero" 1), 0%Z.
      split; [right; now left|]. split; [reflexivity|now left].
  - repeat constructor; vm_compute; reflexivity.
  - repeat constructor; vm_compute; reflexivity.
  - repeat constructor; vm_compute; reflexivity.
Qed.

(** * The order of the options *)

Lemma filter_perm {A} (f : A -> bool) (l l' : list A) :
  Permutation l l' -> Permutation (filter f l) (filter f l').
Proof.
  induction 1 as [|x l l' Hp IH|x y l|l l' l'' H1 IH1 H2 IH2]; simpl.
  - constructor.
  - destruct (f x); [constructor|]; exact IH.
  - destruct (f x), (f y); try reflexivity. apply perm_swap.
  - now transitivity (filter f l').
Qed.

Lemma filter_perm_ext {A} (f g : A -> bool) (l l' : list A) :
  (forall x, In x l -> f x = g x) ->
  Permutation l l' -> Permutation (filter f l) (filter g l').
Proof.
  intros Hfg Hp. rewrite (filter_ext_in f g l Hfg). now apply filter_perm.
Qed.

Lemma find_pointwise {A} (f g : A -> bool) (l : list A) :
  (forall x, f x = g x) -> find f l = find g l.
Proof.
  intros H. induction l as [|x l IH]; simpl; [reflexivity|].
  now rewrite H, IH.
Qed.

Lemma existsb_perm {A} (f : A -> bool) (l l' : list A) :
  Permutation l l' -> existsb f l = existsb f l'.
Proof.
  induction 1 as [|x l l' Hp IH|x y l|l l' l'' H1 IH1 H2 IH2]; simpl.
  - reflexivity.
  - now rewrite IH.
  - destruct (f x), (f y); reflexivity.
  - congruence.
Qed.

Lemma forallb_perm {A} (f : A -> bool) (l l' : list A) :
  Permutation l l' -> forallb f l = forallb f l'.
Proof.
  induction 1 as [|x l l' Hp IH|x y l|l l' l'' H1 IH1 H2 IH2]; simpl.
  - reflexivity.
  - now rewrite IH.
  - destruct (f x), (f y); reflexivity.
  - congruence.
Qed.

Lemma Math_min_perm (vs vs' : list nat) :
  Permutation vs vs' -> Math_min vs = Math_min vs'.
Proof.
  induction 1 as [|x l l' Hp IH|x y l|l l' l'' H1 IH1 H2 IH2]; simpl.
  - reflexivity.
  - now rewrite IH.
  - destruct (Math_min l) as [m|]; f_equal; lia.
  - congruence.
Qed.

(** In a dictionary without repeated keys an entry is what a lookup
    finds. *)
Lemma obj_In_get {A} (k : Z) (v : A) (o : obj A) :
  NoDup (obj_keys o) -> In (k, v) o -> obj_get k o = Some v.
Proof.
  induction o as [|[k' v'] o IH]; simpl; [tauto|].
  intros Hnd [E|Hin]; inversion Hnd as [|? ? Hk Ho]; subst.
  - injection E as -> ->. now rewrite Z.eqb_refl.
  - destruct (Z.eqb_spec k' k) as [->|_]; [|auto].
    exfalso. apply Hk. change k with (fst (k, v)). now apply in_map.
Qed.

Lemma same_entries_perm {A} (o o' : obj A) :
  NoDup (obj_keys o) -> NoDup (obj_keys o') ->
  same_entries o o' -> Permutation o o'.
Proof.
  intros Hn Hn' Hs. apply NoDup_Permutation.
  - now apply NoDup_map_inv in Hn.
  - now apply NoDup_map_inv in Hn'.
  - intros [k v]. split; intros H.
    + apply obj_get_In. rewrite <- Hs. now apply obj_In_get.
    + apply obj_get_In. rewrite Hs. now apply obj_In_get.
Qed.

(** The percentage of every id in the race, and of no other. *)
Lemma compute_percentages_get tv rem vc k :
  obj_get k (compute_percentages tv rem vc)
  = if in_race rem k then Some (percentage tv (obj_get k vc)) else None.
Proof.
  unfold compute_percentages.
  assert (G : forall rem pc,
             obj_get k
               (fold_left
                  (fun pc option =>
                     obj_set (opt_id option)
                       (percentage tv (obj_get (opt_id option) vc)) pc)
                  rem pc)
             = if in_race rem k then Some (percentage tv (obj_get k vc))
               else obj_get k pc).
  { clear rem. induction rem as [|o rem IH]; intros pc; simpl;
      [reflexivity|].
    rewrite IH. destruct (in_race rem k) eqn:E.
    - now rewrite orb_true_r.
    - rewrite orb_false_r. destruct (Z.eqb_spec (opt_id o) k) as [<-|Hne].
      + now rewrite obj_get_set_same.
      + now rewrite obj_get_set_other. }
  rewrite G. destruct (in_race rem k); reflexivity.
Qed.

Section Reordered.

Variable nbs : list NBallot.
Variables rem rem' : list PollOption.
Hypothesis rem_perm : Permutation rem rem'.

Lemma in_race_perm k : in_race rem k = in_race rem' k.
Proof. unfold in_race. now apply existsb_perm. Qed.

Lemma first_valid_choice_perm rs :
  first_valid_choice rem rs = first_valid_choice rem' rs.
Proof.
  induction rs as [|r rs IH]; simpl; [reflexivity|].
  destruct (nr_pollOptionId r) as [k|]; [|exact IH].
  now rewrite in_race_perm, IH.
Qed.

Lemma count_votes_entries :
  same_entries (count_votes rem nbs) (count_votes rem' nbs).
Proof.
  intros k. destruct (in_race rem k) eqn:E.
  - rewrite (count_votes_first_choice rem nbs k E).
    rewrite in_race_perm in E.
    rewrite (count_votes_first_choice rem' nbs k E).
    f_equal. f_equal. apply filter_ext. intros b. unfold chooses.
    now rewrite first_valid_choice_perm.
  - assert (H1 : obj_get k (count_votes rem nbs) = None).
    { apply obj_get_None. rewrite count_votes_key. congruence. }
    assert (H2 : obj_get k (count_votes rem' nbs) = None).
    { apply obj_get_None. rewrite count_votes_key, <- in_race_perm.
      congruence. }
    congruence.
Qed.

Lemma voteValues_perm :
  Permutation (Object_values (count_votes rem nbs))
              (Object_values (count_votes rem' nbs)).
Proof.
  unfold Object_values. apply Permutation_map, same_entries_perm.
  - apply count_votes_NoDup.
  - apply count_votes_NoDup.
  - apply count_votes_entries.
Qed.

Lemma minVotes_perm :
  Math_min (Object_values (count_votes rem nbs))
  = Math_min (Object_values (count_votes rem' nbs)).
Proof. apply Math_min_perm, voteValues_perm. Qed.

Lemma all_same_perm m :
  all_same (Object_values (count_votes rem nbs)) m
  = all_same (Object_values (count_votes rem' nbs)) m.
Proof. apply forallb_perm, voteValues_perm. Qed.

Lemma has_majority_perm t o :
  has_majority (count_votes rem nbs) t o
  = has_majority (count_votes rem' nbs) t o.
Proof. unfold has_majority. now rewrite count_votes_entries. Qed.

Lemma has_min_perm m o :
  has_min (count_votes rem nbs) m o = has_min (count_votes rem' nbs) m o.
Proof. unfold has_min. now rewrite count_votes_entries. Qed.

Lemma percentages_entries tv :
  same_entries (compute_percentages tv rem (count_votes rem nbs))
               (compute_percentages tv rem' (count_votes rem' nbs)).
Proof.
  intros k. rewrite !compute_percentages_get.
  now rewrite in_race_perm, count_votes_entries.
Qed.

Lemma minVoteOptions_perm :
  Permutation
    (filter (has_min (count_votes rem nbs)
               (Math_min (Object_values (count_votes rem nbs)))) rem)
    (filter (has_min (count_votes rem' nbs)
               (Math_min (Object_values (count_votes rem' nbs)))) rem').
Proof.
  apply filter_perm_ext; [|exact rem_perm].
  intros o _. now rewrite minVotes_perm, has_min_perm.
Qed.

Lemma remove_ids_perm ids ids' :
  Permutation ids ids' ->
  Permutation (remove_ids ids rem) (remove_ids ids' rem').
Proof.
  intros Hi. unfold remove_ids. apply filter_perm_ext; [|exact rem_perm].
  intros o _. f_equal. unfold includes. now apply existsb_perm.
Qed.

Hypothesis rem_distinct : NoDup (map opt_id rem).

Lemma find_majority_perm :
  find (has_majority (count_votes rem nbs) (threshold_of (length nbs))) rem
  = find (has_majority (count_votes rem' nbs) (threshold_of (length nbs)))
         rem'.
Proof.
  rewrite <- (find_pointwise _ _ rem' (fun o => has_majority_perm _ o)).
  symmetry. apply find_unique_perm; [|exact rem_perm].
  intros a b Ha Hb Pa Pb.
  apply has_majority_count in Pa, Pb.
  destruct Pa as (ca & Ga & La), Pb as (cb & Gb & Lb).
  apply (NoDup_map_inj opt_id rem); auto.
  exact (count_votes_majority_unique _ _ _ _ _ _ Ga Gb La Lb).
Qed.

End Reordered.

Lemma singleton_or_none_perm {A} (l l' : list A) :
  Permutation l l' ->
  (if length l =? 1 then nth_error l 0 else None)
  = (if length l' =? 1 then nth_error l' 0 else None).
Proof.
  intros Hp. rewrite <- (Permutation_length Hp).
  destruct (Nat.eqb_spec (length l) 1) as [E|_]; [|reflexivity].
  destruct l as [|x [|y l]]; try discriminate.
  apply Permutation_length_1_inv in Hp. now subst.
Qed.

Lemma several_or_none_perm {A} (l l' : list A) :
  Permutation l l' ->
  same_members (if 1 <? length l then Some l else None)
               (if 1 <? length l' then Some l' else None).
Proof.
  intros Hp. rewrite <- (Permutation_length Hp).
  destruct (1 <? length l); simpl; auto.
Qed.

Lemma push_round_reorder rounds rounds' vc vc' pc pc' rem rem' e em em'
    mw tie :
  Forall2 same_round_up_to_order rounds rounds' ->
  same_entries vc vc' -> same_entries pc pc' ->
  same_members em em' -> Permutation rem rem' ->
  Forall2 same_round_up_to_order
    (push_round rounds vc pc rem e em mw tie)
    (push_round rounds' vc' pc' rem' e em' mw tie).
Proof.
  intros Hr Hv Hc He Hp. unfold push_round.
  apply Forall2_app; [assumption|]. constructor; [|constructor].
  unfold same_round_up_to_order. simpl.
  rewrite (Forall2_length Hr).
  repeat split; auto. now apply Permutation_map.
Qed.

Lemma length_two {A} (l : list A) :
  length l = 2 -> exists a b, l = [a; b].
Proof. destruct l as [|a [|b [|c l]]]; try discriminate. eauto. Qed.

Lemma reduce_lowest_id_perm (l l' : list PollOption) :
  Permutation l l' -> NoDup (map opt_id l) ->
  reduce_lowest_id l = reduce_lowest_id l'.
Proof.
  intros Hp Hnd.
  destruct (reduce_lowest_id l) as [x|] eqn:E;
    destruct (reduce_lowest_id l') as [y|] eqn:E'.
  - f_equal.
    pose proof (reduce_lowest_id_In _ _ E) as Hx.
    pose proof (reduce_lowest_id_In _ _ E') as Hy.
    apply (Permutation_in _ (Permutation_sym Hp)) in Hy.
    apply (NoDup_map_inj opt_id l); auto.
    pose proof (reduce_lowest_id_le _ _ E y Hy).
    pose proof (reduce_lowest_id_le _ _ E' x (Permutation_in _ Hp Hx)).
    lia.
  - destruct l' as [|z l']; [|discriminate].
    apply Permutation_sym, Permutation_nil in Hp. subst. discriminate.
  - destruct l as [|z l]; [|discriminate].
    apply Permutation_nil in Hp. subst. discriminate.
  - reflexivity.
Qed.

(** A round of two options with the same count is declared a tie. *)
Lemma Part007_two_option_tie nbs tv t rounds (a b : PollOption) (c : nat) :
  opt_id a <> opt_id b ->
  obj_get (opt_id a) (count_votes [a; b] nbs) = Some c ->
  obj_get (opt_id b) (count_votes [a; b] nbs) = Some c ->
  Part007.body nbs tv t rounds [a; b]
  = Return
      (tie_result tv t
         (push_round rounds (count_votes [a; b] nbs)
            (compute_percentages tv [a; b] (count_votes [a; b] nbs))
            [a; b] None None None true)
         [a; b]).
Proof.
  intros Hne Ha Hb.
  assert (Hv : Object_values (count_votes [a; b] nbs) = [c; c])
    by (destruct (two_option_values nbs a b c c Hne Ha Hb); assumption).
  unfold Part007.body.
  change (2 <? length [a; b]) with false.
  change (length [a; b] =? 2) with true. cbv iota zeta.
  rewrite Hv. simpl. now rewrite Nat.eqb_refl.
Qed.

Section BodiesReordered.

Variable nbs : list NBallot.
Let tv := length nbs.
Let t := threshold_of (length nbs).

Variables rounds rounds' : list Round.
Variables rem rem' : list PollOption.
Hypothesis rem_perm : Permutation rem rem'.
Hypothesis rem_distinct : NoDup (map opt_id rem).
Hypothesis rounds_same : Forall2 same_round_up_to_order rounds rounds'.

Let vc := count_votes rem nbs.
Let vc' := count_votes rem' nbs.
Let pc := compute_percentages tv rem vc.
Let pc' := compute_percentages tv rem' vc'.
Let minVotes := Math_min (Object_values vc).
Let mvo := filter (has_min vc minVotes) rem.
Let mvo' := filter (has_min vc' minVotes) rem'.

Lemma pushed_same e em em' mw tie :
  same_members em em' ->
  Forall2 same_round_up_to_order
    (push_round rounds vc pc rem e em mw tie)
    (push_round rounds' vc' pc' rem' e em' mw tie).
Proof.
  intros He. apply push_round_reorder; auto.
  - apply count_votes_entries, rem_perm.
  - apply percentages_entries, rem_perm.
Qed.

Lemma mvo_perm : Permutation mvo mvo'.
Proof.
  unfold mvo, mvo'. apply filter_perm_ext; [|exact rem_perm].
  intros o _. now apply has_min_perm.
Qed.

(** The elimination step shared by both copies. *)
Lemma elimination_reorder :
  pass_up_to_order
    (let rounds1 :=
       push_round rounds vc pc rem
         (if length mvo =? 1 then nth_error mvo 0 else None)
         (if 1 <? length mvo then Some mvo else None) None false in
     let rem1 := remove_ids (map opt_id mvo) rem in
     if length rem1 =? 0
     then Return (eliminated_result tv t rounds1)
     else Continue rounds1 rem1)
    (let rounds1 :=
       push_round rounds' vc' pc' rem'
         (if length mvo' =? 1 then nth_error mvo' 0 else None)
         (if 1 <? length mvo' then Some mvo' else None) None false in
     let rem1 := remove_ids (map opt_id mvo') rem' in
     if length rem1 =? 0
     then Return (eliminated_result tv t rounds1)
     else Continue rounds1 rem1).
Proof.
  cbv zeta.
  assert (Hr : Permutation (remove_ids (map opt_id mvo) rem)
                           (remove_ids (map opt_id mvo') rem')).
  { apply remove_ids_perm; [exact rem_perm|].
    apply Permutation_map, mvo_perm. }
  rewrite <- (Permutation_length Hr).
  rewrite <- (singleton_or_none_perm mvo mvo' mvo_perm).
  pose proof (pushed_same
                (if length mvo =? 1 then nth_error mvo 0 else None)
                _ _ None false (several_or_none_perm mvo mvo' mvo_perm))
    as Hpush.
  destruct (length (remove_ids (map opt_id mvo) rem) =? 0); simpl.
  - unfold same_up_to_order. simpl. repeat split; auto.
  - split; assumption.
Qed.

Lemma BackendIrv_body_reorder :
  pass_up_to_order (BackendIrv.body nbs tv t rounds rem)
                   (BackendIrv.body nbs tv t rounds' rem').
Proof.
  pose proof elimination_reorder as Helim.
  pose proof (pushed_same None None None) as Hpush.
  unfold BackendIrv.body. cbv zeta in *.
  unfold mvo, mvo', minVotes, pc, pc', vc, vc', t, tv in *.
  rewrite <- (find_majority_perm nbs rem rem' rem_perm rem_distinct).
  rewrite <- (minVotes_perm nbs rem rem' rem_perm).
  rewrite <- (all_same_perm nbs rem rem' rem_perm).
  rewrite <- (Permutation_length rem_perm).
  destruct (find _ rem) as [mw|].
  - unfold same_up_to_order. simpl. repeat split; auto.
    apply Hpush. exact I.
  - destruct (all_same _ _ && (1 <? length rem)).
    + unfold same_up_to_order. simpl. repeat split; auto.
      apply Hpush. exact I.
    + exact Helim.
Qed.

Lemma Part007_two_options_reorder (a b : PollOption) :
  rem = [a; b] ->
  pass_up_to_order (Part007.body nbs tv t rounds rem)
                   (Part007.body nbs tv t rounds' rem').
Proof.
  intros E.
  pose proof (pushed_same None None None None true I) as Htie.
  pose proof (fun e => pushed_same (Some e) None None None false I) as Hout.
  pose proof (count_votes_entries nbs rem rem' rem_perm) as Hvc.
  unfold pc, pc', vc, vc', tv, t in *. subst rem.
  assert (Hne : opt_id a <> opt_id b).
  { inversion rem_distinct as [|? ? Ha _]; subst. intros H. apply Ha.
    left. now symmetry. }
  destruct (count_votes_get [a; b] nbs a (or_introl eq_refl)) as (ca & Ha).
  destruct (count_votes_get [a; b] nbs b (or_intror (or_introl eq_refl)))
    as (cb & Hb).
  pose proof Ha as Ha'. pose proof Hb as Hb'.
  rewrite Hvc in Ha', Hb'.
  assert (Hcases : rem' = [a; b] \/ rem' = [b; a]).
  { apply Permutation_length_2_inv in rem_perm. tauto. }
  destruct (Nat.eq_dec ca cb) as [<-|Hcc].
  - rewrite (Part007_two_option_tie nbs _ _ rounds a b ca Hne Ha Hb).
    destruct Hcases as [-> | ->].
    + rewrite (Part007_two_option_tie nbs _ _ rounds' a b ca Hne Ha Hb).
      unfold pass_up_to_order, same_up_to_order. simpl.
      repeat split; auto.
    + rewrite (Part007_two_option_tie nbs _ _ rounds' b a ca
                 (not_eq_sym Hne) Hb' Ha').
      unfold pass_up_to_order, same_up_to_order. simpl.
      repeat split; auto.
  - rewrite (Part007_two_option_round nbs _ _ rounds a b ca cb Hne Ha Hb Hcc).
    destruct Hcases as [-> | ->].
    + rewrite (Part007_two_option_round nbs _ _ rounds' a b ca cb
                 Hne Ha Hb Hcc).
      unfold pass_up_to_order, same_up_to_order. simpl.
      repeat split; auto.
    + rewrite (Part007_two_option_round nbs _ _ rounds' b a cb ca
                 (not_eq_sym Hne) Hb' Ha' (not_eq_sym Hcc)).
      unfold pass_up_to_order, same_up_to_order. simpl.
      destruct (Nat.ltb_spec ca cb), (Nat.ltb_spec cb ca); try lia;
        repeat split; auto.
Qed.

Lemma Part007_body_reorder :
  pass_up_to_order (Part007.body nbs tv t rounds rem)
                   (Part007.body nbs tv t rounds' rem').
Proof.
  destruct (Nat.eq_dec (length rem) 2) as [E2|E2].
  { destruct (length_two rem E2) as (a & b & E).
    now apply (Part007_two_options_reorder a b). }
  pose proof elimination_reorder as Helim.
  pose proof (pushed_same None None None) as Hpush.
  pose proof (fun e => pushed_same (Some e) None None None false I) as Hout.
  pose proof mvo_perm as Hmvo.
  assert (Hmnd : NoDup (map opt_id mvo)).
  { apply (kept_from_NoDup rem); [|exact rem_distinct].
    eexists. reflexivity. }
  pose proof (reduce_lowest_id_perm mvo mvo' Hmvo Hmnd) as Hlow.
  unfold Part007.body. cbv zeta in *.
  unfold mvo, mvo', minVotes, pc, pc', vc, vc', t, tv in *.
  rewrite <- (find_majority_perm nbs rem rem' rem_perm rem_distinct).
  rewrite <- (minVotes_perm nbs rem rem' rem_perm).
  rewrite <- (all_same_perm nbs rem rem' rem_perm).
  rewrite <- (Permutation_length rem_perm).
  destruct (Nat.eqb_spec (length rem) 2) as [|_]; [contradiction|].
  destruct (if 2 <? length rem then find _ rem else None) as [mw|].
  - unfold same_up_to_order. simpl. repeat split; auto.
    apply Hpush. exact I.
  - simpl andb. cbv iota.
    destruct (all_same _ _ && (2 <? length rem)).
    + rewrite <- Hlow. destruct (reduce_lowest_id _) as [x|]; [|exact I].
      split; [apply Hout|].
      apply filter_perm_ext; [reflexivity|exact rem_perm].
    + match goal with
      | |- context [filter ?f rem'] => set (m' := filter f rem') in *
      end.
      match goal with
      | |- context [filter ?f rem] => set (m := filter f rem) in *
      end.
      destruct m as [|x m0] eqn:Em; destruct m' as [|x' m0'] eqn:Em'.
      * exact I.
      * apply Permutation_nil in Hmvo. discriminate.
      * apply Permutation_sym, Permutation_nil in Hmvo. discriminate.
      * exact Helim.
Qed.

End BodiesReordered.

Section LoopReordered.

Variable body : list Round -> list PollOption -> pass.
Variable fin : list Round -> option PollOption -> Result.

Hypothesis fin_reorder : forall rounds rounds' w,
  Forall2 same_round_up_to_order rounds rounds' ->
  same_up_to_order (fin rounds w) (fin rounds' w).

Hypothesis body_reorder : forall rounds rounds' rem rem',
  Permutation rem rem' -> NoDup (map opt_id rem) ->
  Forall2 same_round_up_to_order rounds rounds' ->
  pass_up_to_order (body rounds rem) (body rounds' rem').

Hypothesis body_keeps : forall rounds rem rounds1 rem1,
  1 < length rem -> body rounds rem = Continue rounds1 rem1 ->
  kept_from rem rem1.

Lemma while_loop_reorder fuel rounds rounds' rem rem' :
  Permutation rem rem' -> NoDup (map opt_id rem) ->
  Forall2 same_round_up_to_order rounds rounds' ->
  outcome_up_to_order (while_loop body fin fuel rounds rem)
                      (while_loop body fin fuel rounds' rem').
Proof.
  revert rounds rounds' rem rem'.
  induction fuel as [|fuel IH]; intros rounds rounds' rem rem' Hp Hnd Hr;
    simpl; rewrite <- (Permutation_length Hp);
    destruct (Nat.leb_spec (length rem) 1) as [Hl|Hl]; try exact I.
  - assert (E : rem' = rem).
    { destruct rem as [|x [|y l]]; simpl in Hl; try lia.
      - now apply Permutation_nil in Hp.
      - now apply Permutation_length_1_inv in Hp. }
    rewrite E. simpl. now apply fin_reorder.
  - assert (E : rem' = rem).
    { destruct rem as [|x [|y l]]; simpl in Hl; try lia.
      - now apply Permutation_nil in Hp.
      - now apply Permutation_length_1_inv in Hp. }
    rewrite E. simpl. now apply fin_reorder.
  - pose proof (body_reorder rounds rounds' rem rem' Hp Hnd Hr) as Hb.
    pose proof (body_keeps rounds rem) as Hk.
    destruct (body rounds rem) as [r|rs rem1|];
      destruct (body rounds' rem') as [r'|rs' rem1'|];
      simpl in Hb; try contradiction; simpl; auto.
    destruct Hb as [Hrs Hrem]. apply IH; auto.
    apply (kept_from_NoDup rem); [|assumption].
    exact (Hk _ _ Hl eq_refl).
Qed.

End LoopReordered.

Lemma finish_reorder tv t rounds rounds' w :
  Forall2 same_round_up_to_order rounds rounds' ->
  same_up_to_order (finish tv t rounds w) (finish tv t rounds' w).
Proof. intros H. unfold same_up_to_order. simpl. repeat split; auto. Qed.

Lemma pass_ok_keeps nbs rounds rem rounds1 rem1 :
  pass_ok nbs rounds rem (Continue rounds1 rem1) -> kept_from rem rem1.
Proof.
  intros (rd & _ & _ & _ & _ & _ & -> & _). unfold remove_ids.
  eexists. reflexivity.
Qed.

Lemma same_up_to_order_refl r : same_up_to_order r r.
Proof.
  unfold same_up_to_order. repeat split; auto.
  - induction (res_rounds r) as [|rd l IH]; constructor; [|exact IH].
    unfold same_round_up_to_order, same_entries. repeat split; auto.
    destruct (rd_eliminatedMultiple rd); simpl; auto.
  - destruct (res_tiedOptions r); simpl; auto.
Qed.

(** With distinct ids, the order of the options shows in the result only
    as the order of its lists. *)
Lemma BackendIrv_option_perm options options' ballots :
  NoDup (map opt_id options) -> Permutation options options' ->
  outcome_up_to_order (BackendIrv.calculateIRV options ballots)
                      (BackendIrv.calculateIRV options' ballots).
Proof.
  intros Hnd Hp. unfold BackendIrv.calculateIRV.
  destruct options as [|o os].
  { apply Permutation_nil in Hp. subst. simpl. apply same_up_to_order_refl. }
  destruct options' as [|o' os'].
  { apply Permutation_sym, Permutation_nil in Hp. discriminate. }
  destruct ballots as [|b bs]; [simpl; apply same_up_to_order_refl|].
  cbv zeta. rewrite !copy_options_id, <- (Permutation_length Hp).
  apply while_loop_reorder; auto.
  - intros. now apply finish_reorder.
  - intros. now apply BackendIrv_body_reorder.
  - intros rounds rem rs rem1 Hl E.
    apply (pass_ok_keeps (normalizedBallots (b :: bs)) rounds rem rs).
    rewrite <- E. now apply BackendIrv_body_pass.
Qed.

Lemma Part007_option_perm options options' ballots :
  NoDup (map opt_id options) -> Permutation options options' ->
  outcome_up_to_order (Part007.calculateIRV options ballots)
                      (Part007.calculateIRV options' ballots).
Proof.
  intros Hnd Hp. unfold Part007.calculateIRV.
  destruct options as [|o os].
  { apply Permutation_nil in Hp. subst. simpl. apply same_up_to_order_refl. }
  destruct options' as [|o' os'].
  { apply Permutation_sym, Permutation_nil in Hp. discriminate. }
  destruct ballots as [|b bs]; [simpl; apply same_up_to_order_refl|].
  cbv zeta. rewrite !copy_options_id, <- (Permutation_length Hp).
  apply while_loop_reorder; auto.
  - intros. now apply finish_reorder.
  - intros. now apply Part007_body_reorder.
  - intros rounds rem rs rem1 Hl E.
    apply (pass_ok_keeps (normalizedBallots (b :: bs)) rounds rem rs).
    rewrite <- E. now apply Part007_body_pass.
Qed.

(** ** The order of the lists of a result *)

Section SuppliedOrder.

Variable options : list PollOption.
Variable nbs : list NBallot.
Variables tv t : nat.

Lemma kept_from_filter f rem :
  kept_from options rem -> kept_from options (filter f rem).
Proof.
  intros [keep ->]. exists (fun x => keep x && f x). apply filter_filter.
Qed.

Lemma push_in_order rounds vc pc rem e em mw tie :
  kept_from options rem ->
  Forall (round_in_supplied_order options) rounds ->
  (forall es, em = Some es -> kept_from options es) ->
  Forall (round_in_supplied_order options)
         (push_round rounds vc pc rem e em mw tie).
Proof.
  intros Hk Hr He. unfold push_round. apply Forall_app. split; [assumption|].
  constructor; [|constructor]. split; simpl; [|assumption].
  exists rem. auto.
Qed.

Lemma none_kept (es : list PollOption) :
  @None (list PollOption) = Some es -> kept_from options es.
Proof. discriminate. Qed.

Lemma several_kept f rem (es : list PollOption) :
  kept_from options rem ->
  (if 1 <? length (filter f rem) then Some (filter f rem) else None)
  = Some es ->
  kept_from options es.
Proof.
  intros Hk. destruct (1 <? length (filter f rem)); [|discriminate].
  intros [= <-]. now apply kept_from_filter.
Qed.

Lemma BackendIrv_body_order rounds rem :
  kept_from options rem ->
  Forall (round_in_supplied_order options) rounds ->
  match BackendIrv.body nbs tv t rounds rem with
  | Return r => in_supplied_order options r
  | Continue rounds1 rem1 =>
      kept_from options rem1
      /\ Forall (round_in_supplied_order options) rounds1
  | Throw => True
  end.
Proof.
  intros Hk Hr. unfold BackendIrv.body. cbv zeta.
  destruct (find _ rem) as [mw|].
  - split; simpl; [|discriminate].
    apply push_in_order; auto using none_kept.
  - destruct (all_same _ _ && _).
    + split; simpl.
      * apply push_in_order; auto using none_kept.
      * now intros tied [= <-].
    + assert (Hp : forall e,
                Forall (round_in_supplied_order options)
                  (push_round rounds (count_votes rem nbs)
                     (compute_percentages tv rem (count_votes rem nbs)) rem e
                     (if 1 <? length
                                (filter
                                   (has_min (count_votes rem nbs)
                                      (Math_min
                                         (Object_values
                                            (count_votes rem nbs)))) rem)
                      then Some
                             (filter
                                (has_min (count_votes rem nbs)
                                   (Math_min
                                      (Object_values (count_votes rem nbs))))
                                rem)
                      else None) None false)).
      { intros e. apply push_in_order; auto.
        intros es. now apply several_kept. }
      destruct (length _ =? 0).
      * split; simpl; [apply Hp|discriminate].
      * split; [now apply kept_from_filter|apply Hp].
Qed.

Lemma Part007_body_order rounds rem :
  kept_from options rem ->
  Forall (round_in_supplied_order options) rounds ->
  match Part007.body nbs tv t rounds rem with
  | Return r => in_supplied_order options r
  | Continue rounds1 rem1 =>
      kept_from options rem1
      /\ Forall (round_in_supplied_order options) rounds1
  | Throw => True
  end.
Proof.
  intros Hk Hr. unfold Part007.body. cbv zeta.
  assert (Hp : forall e,
            Forall (round_in_supplied_order options)
              (push_round rounds (count_votes rem nbs)
                 (compute_percentages tv rem (count_votes rem nbs)) rem e
                 (if 1 <? length
                            (filter
                               (has_min (count_votes rem nbs)
                                  (Math_min
                                     (Object_values
                                        (count_votes rem nbs)))) rem)
                  then Some
                         (filter
                            (has_min (count_votes rem nbs)
                               (Math_min
                                  (Object_values (count_votes rem nbs))))
                            rem)
                  else None) None false)).
  { intros e. apply push_in_order; auto.
    intros es. now apply several_kept. }
  assert (Hn : forall e mw tie,
            Forall (round_in_supplied_order options)
              (push_round rounds (count_votes rem nbs)
                 (compute_percentages tv rem (count_votes rem nbs)) rem e
                 None mw tie)).
  { intros. apply push_in_order; auto using none_kept. }
  destruct (if 2 <? length rem then find _ rem else None) as [mw|].
  - split; simpl; [apply Hn|discriminate].
  - destruct (length rem =? 2).
    + destruct (strict_eq_opt _ _).
      * split; simpl; [apply Hn|]. now intros tied [= <-].
      * destruct (find _ rem) as [e|]; [|exact I].
        split; simpl; [apply Hn|discriminate].
    + destruct (all_same _ _ && _).
      * destruct (reduce_lowest_id _) as [x|]; [|exact I].
        split; [now apply kept_from_filter|apply Hn].
      * destruct (false && _).
        -- split; simpl; [apply Hn|]. now intros tied [= <-].
        -- destruct (filter _ rem) as [|x m] eqn:E; [exact I|].
           rewrite <- E in *.
           destruct (length _ =? 0).
           ++ split; simpl; [apply Hp|discriminate].
           ++ split; [now apply kept_from_filter|apply Hp].
Qed.

Section Loop.

Variable body : list Round -> list PollOption -> pass.

Hypothesis body_order : forall rounds rem,
  kept_from options rem ->
  Forall (round_in_supplied_order options) rounds ->
  match body rounds rem with
  | Return r => in_supplied_order options r
  | Continue rounds1 rem1 =>
      kept_from options rem1
      /\ Forall (round_in_supplied_order options) rounds1
  | Throw => True
  end.

Lemma while_loop_order fuel rounds rem r :
  kept_from options rem ->
  Forall (round_in_supplied_order options) rounds ->
  while_loop body (finish tv t) fuel rounds rem = Returned r ->
  in_supplied_order options r.
Proof.
  revert rounds rem. induction fuel as [|fuel IH]; intros rounds rem Hk Hr;
    simpl; destruct (length rem <=? 1); try discriminate;
    try (intros [= <-]; split; simpl; [assumption|discriminate]).
  pose proof (body_order rounds rem Hk Hr) as Hb.
  destruct (body rounds rem) as [r'|rs rem1|]; try discriminate.
  - now intros [= <-].
  - destruct Hb. now apply IH.
Qed.

End Loop.

End SuppliedOrder.

Lemma error_in_order options msg :
  in_supplied_order options (error_result msg).
Proof. split; simpl; [constructor|discriminate]. Qed.

Lemma BackendIrv_in_order options ballots r :
  BackendIrv.calculateIRV options ballots = Returned r ->
  in_supplied_order options r.
Proof.
  unfold BackendIrv.calculateIRV.
  destruct options as [|o os]; [intros [= <-]; apply error_in_order|].
  destruct ballots as [|b bs]; [intros [= <-]; apply error_in_order|].
  cbv zeta. rewrite copy_options_id. apply while_loop_order.
  - intros. now apply BackendIrv_body_order.
  - apply kept_from_refl.
  - constructor.
Qed.

Lemma Part007_in_order options ballots r :
  Part007.calculateIRV options ballots = Returned r ->
  in_supplied_order options r.
Proof.
  unfold Part007.calculateIRV.
  destruct options as [|o os]; [intros [= <-]; apply error_in_order|].
  destruct ballots as [|b bs]; [intros [= <-]; apply error_in_order|].
  cbv zeta. rewrite copy_options_id. apply while_loop_order.
  - intros. now apply Part007_body_order.
  - apply kept_from_refl.
  - constructor.
Qed.

(** C8, as amended. The result of either copy depends on the order of
    its inputs only through the order of its lists.  Two calls whose
    ballot lists are permutations of each other return the same result
    for one and the same list of options; and when the options, with
    distinct ids, are permuted as well, the two results have the same
    winner, tie flag, error and totals and as many rounds, and
    corresponding rounds have the same number, the same count and
    percentage for every id, the same eliminated option, majority winner
    and tie flag, and [remaining], [eliminatedMultiple] and [tiedOptions]
    lists with the same members.  Those lists are in the order in which
    the options were supplied: each is what a filter keeps of them. *)
Theorem tally_under_reordering
    (options options' : list PollOption) (ballots ballots' : list Ballot) :
  Permutation ballots ballots' ->
  (BackendIrv.calculateIRV options ballots
   = BackendIrv.calculateIRV options ballots'
   /\ Part007.calculateIRV options ballots
      = Part007.calculateIRV options ballots')
  /\ (NoDup (map opt_id options) -> Permutation options options' ->
      (exists r r',
          BackendIrv.calculateIRV options ballots = Returned r
          /\ BackendIrv.calculateIRV options' ballots' = Returned r'
          /\ same_up_to_order r r')
      /\ exists r r',
           Part007.calculateIRV options ballots = Returned r
           /\ Part007.calculateIRV options' ballots' = Returned r'
           /\ same_up_to_order r r')
  /\ forall r, tally_returns options ballots r ->
               in_supplied_order options r.
Proof.
  intros Hb. split; [now apply calculateIRV_ballot_perm|]. split.
  - intros Hnd Ho.
    destruct (calculateIRV_ballot_perm options' ballots ballots' Hb)
      as [<- <-].
    pose proof (BackendIrv_option_perm options options' ballots Hnd Ho)
      as H1.
    pose proof (Part007_option_perm options options' ballots Hnd Ho) as H2.
    destruct (calculateIRV_total options ballots) as (r1 & r2 & E1 & E2).
    destruct (calculateIRV_total options' ballots)
      as (r1' & r2' & E1' & E2').
    rewrite E1, E1' in H1. rewrite E2, E2' in H2.
    split; [exists r1, r1'|exists r2, r2']; auto.
  - intros r [H|H].
    + now apply (BackendIrv_in_order options ballots).
    + now apply (Part007_in_order options ballots).
Qed.

Lemma tally_under_reordering_witness :
  Permutation ballots_C (rev ballots_C)
  /\ NoDup (map opt_id [optA; optB; optC])
  /\ Permutation [optA; optB; optC] [optC; optB; optA]
  /\ exists r r',
       Part007.calculateIRV [optA; optB; optC] ballots_C = Returned r
       /\ Part007.calculateIRV [optC; optB; optA] (rev ballots_C)
          = Returned r'
       /\ same_up_to_order r r'
       /\ res_winner r = Some optA
       /\ map rd_remaining (res_rounds r) = [[1; 2; 3]%Z]
       /\ map rd_remaining (res_rounds r') = [[3; 2; 1]%Z]
       /\ map rd_eliminatedMultiple (res_rounds r) = [Some [optB; optC]]
       /\ map rd_eliminatedMultiple (res_rounds r') = [Some [optC; optB]].
Proof.
  assert (Hb : Permutation ballots_C (rev ballots_C))
    by apply Permutation_rev.
  assert (Ho : Permutation [optA; optB; optC] [optC; optB; optA])
    by apply (Permutation_rev [optA; optB; optC]).
  split; [exact Hb|]. split; [exact distinct_ABC|]. split; [exact Ho|].
  destruct (tally_under_reordering [optA; optB; optC] [optC; optB; optA]
              ballots_C (rev ballots_C) Hb) as (_ & H & _).
  destruct (H distinct_ABC Ho) as (_ & r & r' & E & E' & Hs).
  exists r, r'. split; [exact E|]. split; [exact E'|]. split; [exact Hs|].
  vm_compute in E. injection E as <-.
  vm_compute in E'. injection E' as <-.
  repeat split; reflexivity.
Defined.
